(** * Infrastructure-Network-Analyzer: the graph builder, the articulation-point
    finder and the edge list of the renderer of [visualizer_script.py]. *)

From stdpp Require Import base option list sets gmap fin_sets relations strings.
From Stdlib Require Import ZArith Lia DecimalString.

Local Open Scope Z_scope.

(** ** Python outcomes

    A run either returns a value or raises.  Only the exceptions that the
    modelled statements can raise are listed. *)

Inductive exn : Set :=
  | KeyError
  | TypeError
  | ValueError
  | RecursionError.

Inductive result (A : Type) : Type :=
  | Ok (a : A)
  | Raise (e : exn).
Arguments Ok {A} a.
Arguments Raise {A} e.

#[global] Instance result_ret : MRet result := λ A a, Ok a.
#[global] Instance result_bind : MBind result :=
  λ A B k r, match r with Ok a => k a | Raise e => Raise e end.

Definition raises {A} (r : result A) : Prop := ∃ e, r = Raise e.

(** [m[k]] on a dict: KeyError when the key is missing. *)
Definition getitem {V} (m : gmap Z V) (k : Z) : result V :=
  match m !! k with
  | Some v => Ok v
  | None => Raise KeyError
  end.

(** ** Adjacency maps

    [adj] is a Python dict from node id to a set of ids.  A dict iterates in
    insertion order, so it is kept as an association list; a set iterates in
    an order of its own, so each neighbour set is kept as the list of its
    elements in that order. *)

Abbreviation adjacency := (list (Z * list Z)).

Fixpoint adj_lookup (adj : adjacency) (u : Z) : option (list Z) :=
  match adj with
  | [] => None
  | (k, ns) :: rest => if decide (k = u) then Some ns else adj_lookup rest u
  end.

(** [adj.get(u, [])] *)
Definition adj_get (adj : adjacency) (u : Z) : list Z :=
  default [] (adj_lookup adj u).

Definition adj_keys (adj : adjacency) : list Z := adj.*1.

(** [adj.setdefault(k, set())]: a missing key is inserted last. *)
Definition adj_setdefault (k : Z) (adj : adjacency) : adjacency :=
  match adj_lookup adj k with
  | Some _ => adj
  | None => adj ++ [(k, [])]
  end.

(** [s.add(t)] on the set kept as the list [ns]. *)
Definition set_add (t : Z) (ns : list Z) : list Z :=
  if decide (t ∈ ns) then ns else ns ++ [t].

(** The set stored under [k] gets [t]; the other entries are untouched. *)
Fixpoint adj_add (k t : Z) (adj : adjacency) : adjacency :=
  match adj with
  | [] => []
  | (k', ns) :: rest =>
      if decide (k' = k) then (k', set_add t ns) :: rest
      else (k', ns) :: adj_add k t rest
  end.

(** [adj[k].add(t)]: KeyError when [k] is missing. *)
Definition adj_getitem_add (k t : Z) (adj : adjacency) : result adjacency :=
  match adj_lookup adj k with
  | Some _ => Ok (adj_add k t adj)
  | None => Raise KeyError
  end.

(** [adj.setdefault(k, set()).add(t)] *)
Definition adj_setdefault_add (k t : Z) (adj : adjacency) : adjacency :=
  adj_add k t (adj_setdefault k adj).

(** ** parse_input

    [csv.DictReader] hands over one dict per line, from column name to
    cell; the cell of a column the line is too short for is [None]. *)

Abbreviation row := (gmap string (option string)).

Record node : Type := Node {
  node_id : Z;
  node_name : option string;
  node_group : option string;
  node_unit : option string;
  node_contact : option string;
}.

(** [f'connectionID{i}' for i in range(1, 6)] *)
Definition connection_keys : list string :=
  ["connectionID1"; "connectionID2"; "connectionID3"; "connectionID4";
   "connectionID5"]%string.

Section parse_input.
(** The built-ins [int(s)] on a string, [None] standing for ValueError,
    and [s.strip()]. *)
Context (py_int : string → option Z) (py_strip : string → string).

(** [row[key]] *)
Definition row_getitem (r : row) (key : string) : result (option string) :=
  match r !! key with
  | Some c => Ok c
  | None => Raise KeyError
  end.

(** [int(c)]: TypeError on [None], ValueError on a string that is not a
    number. *)
Definition int_of_cell (c : option string) : result Z :=
  match c with
  | None => Raise TypeError
  | Some s =>
      match py_int s with
      | Some z => Ok z
      | None => Raise ValueError
      end
  end.

(** Lines 44-51 for one connection column. *)
Definition add_connection (r : row) (node_id : Z) (key : string)
    (adj : adjacency) : result adjacency :=
  match r !! key with
  | Some (Some s) =>
      if decide (s ≠ ""%string ∧ py_strip s ≠ ""%string) then
        match py_int s with
        | Some target =>
            if decide (target ≠ node_id)
            then adj_getitem_add node_id target adj
            else Ok adj
        | None => Ok adj
        end
      else Ok adj
  | _ => Ok adj
  end.

Fixpoint add_connections (r : row) (node_id : Z) (keys : list string)
    (adj : adjacency) : result adjacency :=
  match keys with
  | [] => Ok adj
  | key :: keys =>
      adj ← add_connection r node_id key adj;
      add_connections r node_id keys adj
  end.

(** Lines 33-51: the body of the loop over the rows. *)
Definition parse_row (r : row) (acc : list node * adjacency)
    : result (list node * adjacency) :=
  c ← row_getitem r "id"%string;
  node_id ← int_of_cell c;
  name ← row_getitem r "nodeName"%string;
  group ← row_getitem r "group"%string;
  unit ← row_getitem r "unit"%string;
  contact ← row_getitem r "contact"%string;
  let nodes := acc.1 ++ [Node node_id name group unit contact] in
  let adj := adj_setdefault node_id acc.2 in
  adj ← add_connections r node_id connection_keys adj;
  Ok (nodes, adj).

Fixpoint parse_rows (rows : list row) (acc : list node * adjacency)
    : result (list node * adjacency) :=
  match rows with
  | [] => Ok acc
  | r :: rows => acc ← parse_row r acc; parse_rows rows acc
  end.

(** Lines 53-55.  The keys are those of the snapshot [list(adj.items())];
    the set under [u] is the live one, read when its turn comes. *)
Definition symmetrize_key (adj : adjacency) (u : Z) : adjacency :=
  foldl (λ adj v, adj_setdefault_add v u adj) adj (adj_get adj u).

Definition symmetrize (adj : adjacency) : adjacency :=
  foldl symmetrize_key adj (adj_keys adj).

Definition parse_input (rows : list row) : result (list node * adjacency) :=
  acc ← parse_rows rows ([], []);
  Ok (acc.1, symmetrize acc.2).

(** What a row says: its identifier, and the identifier a connection
    column refers to, when they can be read. *)
Definition row_id (r : row) : option Z :=
  match r !! "id"%string with
  | Some (Some s) => py_int s
  | _ => None
  end.

Definition connection_target (r : row) (key : string) : option Z :=
  match r !! key with
  | Some (Some s) =>
      if decide (s ≠ ""%string ∧ py_strip s ≠ ""%string) then py_int s else None
  | _ => None
  end.

Definition row_targets (r : row) : list Z :=
  omap (connection_target r) connection_keys.

(** The descriptive columns are there (the header names them). *)
Definition described (r : row) : Prop :=
  is_Some (r !! "nodeName"%string) ∧ is_Some (r !! "group"%string) ∧
  is_Some (r !! "unit"%string) ∧ is_Some (r !! "contact"%string).

(** A row the loop body gets through: it can be identified and described. *)
Definition well_formed (r : row) : Prop := is_Some (row_id r) ∧ described r.
End parse_input.

(** The columns [parse_input] reads. *)
Definition read_columns : list string :=
  ["id"; "nodeName"; "group"; "unit"; "contact"]%string ++ connection_keys.

Section parse_input_rows.
Context (py_int : string → option Z).

(** The exception on which the body of the loop stops at a row, if any:
    lines 33-39 in the order in which they read the row. *)
Definition row_error (r : row) : option exn :=
  match r !! "id"%string with
  | None => Some KeyError
  | Some None => Some TypeError
  | Some (Some s) =>
      match py_int s with
      | None => Some ValueError
      | Some _ =>
          if decide (described r) then None else Some KeyError
      end
  end.

(** The entry of lines 34-40 for a row. *)
Definition node_of_row (r : row) : option node :=
  node_id ← row_id py_int r;
  name ← r !! "nodeName"%string;
  group ← r !! "group"%string;
  unit ← r !! "unit"%string;
  contact ← r !! "contact"%string;
  Some (Node node_id name group unit contact).
End parse_input_rows.

(** The identifiers of a list in the order of their first occurrence. *)
Definition first_seen (ks : list Z) : list Z :=
  foldl (λ acc k, if decide (k ∈ acc) then acc else acc ++ [k]) [] ks.

(** An ASCII reading of the two built-ins, for the examples: decimal digits
    with an optional sign, and blanks stripped at both ends. *)
Definition decimal_int (s : string) : option Z :=
  Z.of_int <$> NilZero.int_of_string s.

Fixpoint lstrip (s : string) : string :=
  match s with
  | String c s' => if Ascii.is_space c then lstrip s' else s
  | EmptyString => EmptyString
  end.

Definition ascii_strip (s : string) : string :=
  String.rev (lstrip (String.rev (lstrip s))).

Definition sample_row (id name : string) (connections : list (string * option string))
    : row :=
  list_to_map ([("id", Some id); ("nodeName", Some name);
                ("group", Some "Operations"); ("unit", Some "North");
                ("contact", Some "ops@example.org")]%string ++ connections).

(** Four lines: node 1 names 2 and carries an empty, a blank and a
    non-numeric cell; node 2 names nobody; node 3 names itself and a node 7
    that has no line of its own; node 1 comes a second time and names 3. *)
Definition sample_rows : list row :=
  [ sample_row "1" "gateway"
      [("connectionID1", Some "2"); ("connectionID2", Some "");
       ("connectionID3", Some "  "); ("connectionID4", Some "n/a");
       ("connectionID5", None)]%string;
    sample_row "2" "switch" [];
    sample_row "3" "router"
      [("connectionID1", Some "3"); ("connectionID2", Some "7")]%string;
    sample_row "1" "gateway-b" [("connectionID1", Some "3")]%string ].

(** Three lines, the second with an identifier that is not a number. *)
Definition unreadable_rows : list row :=
  [ sample_row "1" "gateway" [("connectionID1", Some "2")]%string;
    sample_row "two" "switch" [("connectionID1", Some "1")]%string;
    sample_row "3" "router" [] ].

(** Two lines of a file whose header has no [nodeName] column; both
    identifiers are numbers. *)
Definition undescribed_rows : list row :=
  [ list_to_map [("id", Some "1"); ("group", Some "Operations");
                 ("unit", Some "North"); ("contact", Some "ops@example.org");
                 ("connectionID1", Some "2")]%string;
    list_to_map [("id", Some "2"); ("group", Some "Operations");
                 ("unit", Some "South"); ("contact", Some "ops@example.org");
                 ("connectionID1", Some "1")]%string ].

(** ** build_html

    The function writes an HTML page around two lists, [vis_nodes] and
    [vis_edges]; they are what is modelled. *)

Record vis_node : Type := VisNode {
  vis_id : Z;
  vis_label : option string;
  vis_title : string;
  vis_color : string;
  vis_border_width : Z;
}.

Definition group_colors : list (string * string) :=
  [("Engineering", "#3498db"); ("Research", "#e74c3c");
   ("Operations", "#2ecc71"); ("Support", "#9b59b6")]%string.

Definition default_color : string := "#95a5a6".

(** What an f-string prints for a cell. *)
Definition py_format (c : option string) : string := default "None"%string c.

(** [group_colors.get(group, default_color)] *)
Definition group_color (group : option string) : string :=
  match group with
  | Some g =>
      match list_find (λ p, p.1 = g) group_colors with
      | Some (_, p) => p.2
      | None => default_color
      end
  | None => default_color
  end.

(** Lines 120-140, for one node. *)
Definition vis_node_of (connectors : gset Z) (n : node) : vis_node :=
  let title :=
    ("Unit: " ++ py_format (node_unit n) ++ String (Ascii.ascii_of_nat 10) "" ++
     "Contact: " ++ py_format (node_contact n))%string in
  if decide (node_id n ∈ connectors) then
    VisNode (node_id n) (Some ("CRITICAL: " ++ py_format (node_name n))%string)
            title "#f1c40f" 3
  else
    VisNode (node_id n) (node_name n) title (group_color (node_group n)) 1.

(** *** The edge list (lines 142-150) *)

(** [frozenset((u, v))] *)
Definition edge_key_of (u v : Z) : gset Z := {[u; v]}.

Definition emit_edge (u v : Z) (acc : gset (gset Z) * list (Z * Z))
    : gset (gset Z) * list (Z * Z) :=
  let key := edge_key_of u v in
  if decide (key ∈ acc.1) then acc
  else ({[key]} ∪ acc.1, acc.2 ++ [(u, v)]).

Definition emit_edges (acc : gset (gset Z) * list (Z * Z)) (item : Z * list Z)
    : gset (gset Z) * list (Z * Z) :=
  foldl (λ acc v, emit_edge item.1 v acc) acc item.2.

(** The list [vis_edges] of [{'from': u, 'to': v}] records. *)
Definition vis_edges (adj : adjacency) : list (Z * Z) :=
  (foldl emit_edges (∅, []) adj).2.

Definition build_html (nodes : list node) (adj : adjacency)
    (connectors : gset Z) : list vis_node * list (Z * Z) :=
  (vis_node_of connectors <$> nodes, vis_edges adj).

(** The key under which a record was entered in [added]. *)
Definition pair_of (e : Z * Z) : gset Z := edge_key_of e.1 e.2.

(** The unordered pairs [{u, v}] with [v] in [adj[u]]. *)
Definition edge_pairs (adj : adjacency) : gset (gset Z) :=
  list_to_set (u ← adj_keys adj; edge_key_of u <$> adj_get adj u).

(** Invariant of the loop: [added] holds the keys of the records emitted so
    far, and no two records have the same key. *)
Definition emitted (acc : gset (gset Z) * list (Z * Z)) : Prop :=
  NoDup (pair_of <$> acc.2) ∧ ∀ p, p ∈ acc.1 ↔ p ∈ pair_of <$> acc.2.

(** ** find_articulation_points *)

Record dfs_state : Type := DfsState {
  time : Z;
  visited : gset Z;
  disc : gmap Z Z;
  low : gmap Z Z;
  parent : gmap Z Z;
  articulation : gset Z;
}.

Definition init_state : dfs_state :=
  {| time := 0; visited := ∅; disc := ∅; low := ∅; parent := ∅;
     articulation := ∅ |}.

(** Lines 75-78: [visited.add(u); disc[u] = time; low[u] = time; time += 1]. *)
Definition enter (u : Z) (st : dfs_state) : dfs_state :=
  {| time := time st + 1;
     visited := {[u]} ∪ visited st;
     disc := <[u := time st]> (disc st);
     low := <[u := time st]> (low st);
     parent := parent st;
     articulation := articulation st |}.

Definition set_parent (v u : Z) (st : dfs_state) : dfs_state :=
  {| time := time st; visited := visited st; disc := disc st; low := low st;
     parent := <[v := u]> (parent st);
     articulation := articulation st |}.

Definition set_low (u x : Z) (st : dfs_state) : dfs_state :=
  {| time := time st; visited := visited st; disc := disc st;
     low := <[u := x]> (low st);
     parent := parent st;
     articulation := articulation st |}.

Definition add_articulation (u : Z) (st : dfs_state) : dfs_state :=
  {| time := time st; visited := visited st; disc := disc st; low := low st;
     parent := parent st;
     articulation := {[u]} ∪ articulation st |}.

(** Lines 85-91, after the recursive call on the child [v] has returned. *)
Definition after_child (u v children : Z) (st : dfs_state) : result dfs_state :=
  lu ← getitem (low st) u;
  lv ← getitem (low st) v;
  let st := set_low u (Z.min lu lv) st in
  let st :=
    if decide (parent st !! u = None ∧ children > 1)
    then add_articulation u st else st in
  match parent st !! u with
  | Some _ =>
      lv ← getitem (low st) v;
      du ← getitem (disc st) u;
      Ok (if decide (lv >= du) then add_articulation u st else st)
  | None => Ok st
  end.

(** Lines 93-94: a visited neighbour that is not the recorded parent. *)
Definition back_edge (u v : Z) (st : dfs_state) : result dfs_state :=
  lu ← getitem (low st) u;
  dv ← getitem (disc st) v;
  Ok (set_low u (Z.min lu dv) st).

(** One turn of the loop of line 80; [call] is the recursive call [dfs(v)]. *)
Definition visit_neighbor (call : Z → dfs_state → result dfs_state)
    (u v children : Z) (st : dfs_state) : result (Z * dfs_state) :=
  if decide (v ∈ visited st) then
    if decide (parent st !! u ≠ Some v) then
      st ← back_edge u v st; Ok (children, st)
    else Ok (children, st)
  else
    let st := set_parent v u st in
    let children := children + 1 in
    st ← call v st;
    st ← after_child u v children st;
    Ok (children, st).

Fixpoint dfs_loop (call : Z → dfs_state → result dfs_state)
    (u : Z) (vs : list Z) (children : Z) (st : dfs_state) : result dfs_state :=
  match vs with
  | [] => Ok st
  | v :: vs =>
      cs ← visit_neighbor call u v children st;
      dfs_loop call u vs cs.1 cs.2
  end.

(** [dfs(u)].  [depth] is the number of nested activations of [dfs] the
    interpreter still allows: a call that would need one more raises
    RecursionError, as CPython does at its recursion limit. *)
Fixpoint dfs (adj : adjacency) (depth : nat) (u : Z) (st : dfs_state)
    : result dfs_state :=
  match depth with
  | O => Raise RecursionError
  | S depth => dfs_loop (dfs adj depth) u (adj_get adj u) 0 (enter u st)
  end.

(** Lines 96-98. *)
Fixpoint dfs_roots (adj : adjacency) (depth : nat) (us : list Z)
    (st : dfs_state) : result dfs_state :=
  match us with
  | [] => Ok st
  | u :: us =>
      if decide (u ∈ visited st) then dfs_roots adj depth us st
      else st ← dfs adj depth u st; dfs_roots adj depth us st
  end.

Definition find_articulation_points_within (depth : nat) (adj : adjacency)
    : result (gset Z) :=
  st ← dfs_roots adj depth (adj_keys adj) init_state;
  Ok (articulation st).

(** Every identifier the map mentions, as a key or as a neighbour. *)
Definition mentioned (adj : adjacency) : list Z :=
  adj_keys adj ++ mjoin adj.*2.

(** The finder with room for as many nested activations as there are
    identifiers in the map; no run ever needs more (see [dfs_total]). *)
Definition find_articulation_points (adj : adjacency) : result (gset Z) :=
  find_articulation_points_within (length (mentioned adj)) adj.

(** ** main *)

Section main.
Context (py_int : string → option Z) (py_strip : string → string).

(** [main()] on the rows of [input.txt]; [limit] is the room the
    interpreter leaves for nested calls of [dfs].  The page is written around
    the two lists that [build_html] computes. *)
Definition main (limit : nat) (rows : list row)
    : result (list vis_node * list (Z * Z)) :=
  acc ← parse_input py_int py_strip rows;
  connectors ← find_articulation_points_within limit acc.2;
  Ok (build_html acc.1 acc.2 connectors).
End main.

(** ** The graph of an adjacency map *)

(** [b] is listed among the neighbours of [a]. *)
Definition edge (adj : adjacency) (a b : Z) : Prop := b ∈ adj_get adj a.

Definition connected (adj : adjacency) : relation Z := rtc (edge adj).

(** The invariant of the data model, checked on the identifiers of the map:
    [v ∈ adj[u]] implies [u ∈ adj[v]], and [u ∉ adj[u]]. *)
Definition symmetric (adj : adjacency) : Prop :=
  Forall (λ u, Forall (λ v, u ∈ adj_get adj v) (adj_get adj u)) (adj_keys adj).

Definition loop_free (adj : adjacency) : Prop :=
  Forall (λ u, u ∉ adj_get adj u) (adj_keys adj).

(** Removing the node [u] and its incident edges. *)
Definition remove_node (u : Z) (adj : adjacency) : adjacency :=
  (λ p, (p.1, filter (λ x, x ≠ u) p.2)) <$> filter (λ p, p.1 ≠ u) adj.

(** Two neighbours of [u] lose their connection when [u] is removed. *)
Definition separates (adj : adjacency) (u : Z) : Prop :=
  ∃ a b, edge adj u a ∧ edge adj u b ∧ ¬ connected (remove_node u adj) a b.

(** *** Counting connected components

    [reach adj a] saturates [{a}] under the neighbour relation; one round per
    identifier of the map is enough.  Going through the keys, a key stands
    for its component when no later key is reachable from it. *)
Definition reach_step (adj : adjacency) (s : gset Z) : gset Z :=
  s ∪ ⋃ ((λ x, list_to_set (adj_get adj x)) <$> elements s).

Definition reach (adj : adjacency) (a : Z) : gset Z :=
  Nat.iter (length (mentioned adj)) (reach_step adj) {[a]}.

Fixpoint class_reps (adj : adjacency) (ks : list Z) : list Z :=
  match ks with
  | [] => []
  | k :: ks =>
      if decide (Exists (λ k', k' ∈ reach adj k) ks)
      then class_reps adj ks
      else k :: class_reps adj ks
  end.

Definition component_count (adj : adjacency) : nat :=
  length (class_reps adj (adj_keys adj)).

(** Equal as Python values: the same keys, and equal sets under them. *)
Definition same_map (adj adj' : adjacency) : Prop :=
  list_to_set (adj_keys adj) = (list_to_set (adj_keys adj') : gset Z) ∧
  Forall (λ u, list_to_set (adj_get adj u) =
               (list_to_set (adj_get adj' u) : gset Z)) (adj_keys adj).

(** *** Sample graphs *)

(** The path [1 - 2 - ... - n]. *)
Definition path_neighbours (n : nat) (i : Z) : list Z :=
  (if decide (1 < i) then [i - 1] else []) ++
  (if decide (i < Z.of_nat n) then [i + 1] else []).

Definition path_graph (n : nat) : adjacency :=
  (λ i, (i, path_neighbours n i)) <$> seqZ 1 (Z.of_nat n).

Definition path5 : adjacency :=
  [(1, [2]); (2, [1; 3]); (3, [2; 4]); (4, [3; 5]); (5, [4])].

(** The same path with the entries and the sets in another order. *)
Definition path5_shuffled : adjacency :=
  [(4, [5; 3]); (2, [3; 1]); (5, [4]); (1, [2]); (3, [4; 2])].

(** Two triangles [1 2 3] and [4 5 6] joined by the edge [3 - 4], and an
    isolated node [7]. *)
Definition two_triangles : adjacency :=
  [(1, [2; 3]); (2, [1; 3]); (3, [1; 2; 4]);
   (4, [3; 5; 6]); (5, [4; 6]); (6, [4; 5]); (7, [])].

(** ** Invariants of the traversal *)

Section invariants.
Context (adj : adjacency).

Record good (st : dfs_state) : Prop := {
  good_disc : ∀ x, x ∈ visited st → ∃ d, disc st !! x = Some d ∧ d < time st;
  good_low : ∀ x, x ∈ visited st → is_Some (low st !! x);
  good_art : ∀ x, x ∈ articulation st → x ∈ visited st;
  good_univ : ∀ x, x ∈ visited st → x ∈ mentioned adj;
}.

(** Every visited node outside the stack [S] of active calls has all its
    neighbours visited. *)
Definition closed (S : list Z) (st : dfs_state) : Prop :=
  ∀ x y, x ∈ visited st → x ∉ S → edge adj x y → y ∈ visited st.

(** The stack stays connected whichever node outside it is removed. *)
Definition stack_connected (S : list Z) : Prop :=
  ∀ z a b, z ∉ S → a ∈ S → b ∈ S → connected (remove_node z adj) a b.

(** [x -> w] is the edge from [u] to its parent, the top of [S]. *)
Definition tree_edge (S : list Z) (u x w : Z) : Prop :=
  x = u ∧ head S = Some w.

(** State [st] in which [dfs(u)] is called from the node on top of [S]. *)
Record pre (S : list Z) (u : Z) (st : dfs_state) : Prop := {
  pre_good : good st;
  pre_fresh : u ∉ visited st;
  pre_univ : u ∈ mentioned adj;
  pre_stack : ∀ w, w ∈ S → w ∈ visited st;
  pre_parent : parent st !! u = head S;
  pre_edge : ∀ p, head S = Some p → edge adj p u;
  pre_conn : stack_connected S;
  pre_closed : closed S st;
}.

(** State [st] inside [dfs(u)], called in state [st0], after the neighbours
    [seen] have been handled and [children] of them were unvisited. *)
Record inloop (S : list Z) (u : Z) (st0 : dfs_state) (seen : list Z)
    (children : Z) (st : dfs_state) : Prop := {
  il_good : good st;
  il_mono : ∀ x, x ∈ visited st0 → x ∈ visited st;
  il_u : u ∈ visited st;
  il_closed : closed (u :: S) st;
  il_seen : ∀ y, y ∈ seen → y ∈ visited st;
  il_conn : ∀ z x, z ∈ visited st0 ∨ z ∉ visited st →
      x ∈ visited st → x ∉ visited st0 →
      connected (remove_node z adj) u x;
  il_disc_new : ∀ x, x ∈ visited st → x ∉ visited st0 →
      ∃ d, disc st !! x = Some d ∧ time st0 ≤ d;
  il_disc_u : disc st !! u = Some (time st0);
  il_disc_old : ∀ x, x ∈ visited st0 → disc st !! x = disc st0 !! x;
  il_low_old : ∀ x, x ∈ visited st0 ∨ x ∉ visited st →
      low st !! x = low st0 !! x;
  il_parent_old : ∀ x, x ∈ visited st0 ∨ x ∉ visited st ∨ x = u →
      parent st !! x = parent st0 !! x;
  il_parent_dom : ∀ x, is_Some (parent st !! x) →
      is_Some (parent st0 !! x) ∨ x ∈ visited st;
  il_art_old : ∀ x, x ∈ visited st0 ∨ x ∉ visited st →
      (x ∈ articulation st ↔ x ∈ articulation st0);
  il_time : time st0 < time st;
  il_low : ∃ l, low st !! u = Some l ∧ l ≤ time st0 ∧
      (l = time st0 ∨
       (∃ x w, x ∈ visited st ∧ (x ∉ visited st0) ∧ w ∈ S ∧ edge adj x w ∧
               ¬ tree_edge S u x w ∧ disc st0 !! w = Some l)) ∧
      (∀ x w, x ∈ visited st → x ∉ visited st0 → w ∈ S → edge adj x w →
              ¬ tree_edge S u x w → (x = u → w ∈ seen) →
              ∃ d, disc st0 !! w = Some d ∧ l ≤ d);
  il_art_sub : ∀ x, x ∈ visited st → x ∉ visited st0 → x ≠ u →
      (x ∈ articulation st ↔ separates adj x);
  il_art_sound : u ∈ articulation st → separates adj u;
  il_art_hub : u ∉ articulation st →
      ∃ r, ∀ a, a ≠ u → ((a ∈ visited st ∧ a ∉ visited st0) ∨ a ∈ S) →
                connected (remove_node u adj) r a;
  il_children : 0 ≤ children;
  il_children0 : children = 0 → ∀ x, x ∈ visited st → x ∉ visited st0 → x = u;
  il_pocket : head S = None → 1 ≤ children →
      ∃ C : gset Z, (∀ x, x ∈ C → x ∈ visited st) ∧ (u ∉ C) ∧
        (∃ a, a ∈ C ∧ edge adj u a) ∧
        (∀ x y, x ∈ C → edge adj x y → y ≠ u → y ∈ C);
}.

(** State [st] in which [dfs(u)], called in [st0], returns. *)
Definition post (S : list Z) (u : Z) (st0 st : dfs_state) : Prop :=
  ∃ children, inloop S u st0 (adj_get adj u) children st.

(** States between two top-level calls of [dfs] (lines 96-98). *)
Record settled (st : dfs_state) : Prop := {
  st_good : good st;
  st_closed : closed [] st;
  st_parent : ∀ x, is_Some (parent st !! x) → x ∈ visited st;
  st_art : ∀ x, x ∈ visited st → (x ∈ articulation st ↔ separates adj x);
}.
End invariants.

Arguments good_disc {adj st} _.
Arguments good_low {adj st} _.
Arguments good_art {adj st} _.
Arguments good_univ {adj st} _.
Arguments pre_good {adj S u st} _.
Arguments pre_fresh {adj S u st} _.
Arguments pre_univ {adj S u st} _.
Arguments pre_stack {adj S u st} _.
Arguments pre_parent {adj S u st} _.
Arguments pre_edge {adj S u st} _.
Arguments pre_conn {adj S u st} _.
Arguments pre_closed {adj S u st} _.
Arguments il_good {adj S u st0 seen children st} _.
Arguments il_mono {adj S u st0 seen children st} _.
Arguments il_u {adj S u st0 seen children st} _.
Arguments il_closed {adj S u st0 seen children st} _.
Arguments il_seen {adj S u st0 seen children st} _.
Arguments il_conn {adj S u st0 seen children st} _.
Arguments il_disc_new {adj S u st0 seen children st} _.
Arguments il_disc_u {adj S u st0 seen children st} _.
Arguments il_disc_old {adj S u st0 seen children st} _.
Arguments il_low_old {adj S u st0 seen children st} _.
Arguments il_parent_old {adj S u st0 seen children st} _.
Arguments il_parent_dom {adj S u st0 seen children st} _.
Arguments il_art_old {adj S u st0 seen children st} _.
Arguments il_time {adj S u st0 seen children st} _.
Arguments il_low {adj S u st0 seen children st} _.
Arguments il_art_sub {adj S u st0 seen children st} _.
Arguments il_art_sound {adj S u st0 seen children st} _.
Arguments il_art_hub {adj S u st0 seen children st} _.
Arguments il_children {adj S u st0 seen children st} _.
Arguments il_children0 {adj S u st0 seen children st} _.
Arguments il_pocket {adj S u st0 seen children st} _.
Arguments st_good {adj st} _.
Arguments st_closed {adj st} _.
Arguments st_parent {adj st} _.
Arguments st_art {adj st} _.

(** What the traversal keeps on every map: [time] counts the visited nodes,
    [disc] numbers them one after the other, [low] stays at or below [disc]
    and among the discovery numbers, a recorded parent lists its child and
    was discovered before it, and only nodes with a neighbour are marked. *)
Record numbered (adj : adjacency) (st : dfs_state) : Prop := {
  num_time : time st = Z.of_nat (size (visited st));
  num_disc_dom : ∀ x, is_Some (disc st !! x) ↔ x ∈ visited st;
  num_low_dom : ∀ x, is_Some (low st !! x) ↔ x ∈ visited st;
  num_disc : ∀ x d, disc st !! x = Some d → 0 ≤ d < time st;
  num_inj : ∀ x y d, disc st !! x = Some d → disc st !! y = Some d → x = y;
  num_low : ∀ x l d, low st !! x = Some l → disc st !! x = Some d → l ≤ d;
  num_low_disc : ∀ x l, low st !! x = Some l → ∃ y, disc st !! y = Some l;
  num_parent : ∀ v u, parent st !! v = Some u →
    v ∈ visited st ∧ edge adj u v ∧
    ∃ du dv, disc st !! u = Some du ∧ disc st !! v = Some dv ∧ du < dv;
  num_art : ∀ x, x ∈ articulation st → x ∈ visited st ∧ ∃ y, edge adj x y;
}.

Arguments num_time {adj st} _.
Arguments num_disc_dom {adj st} _.
Arguments num_low_dom {adj st} _.
Arguments num_disc {adj st} _.
Arguments num_inj {adj st} _.
Arguments num_low {adj st} _.
Arguments num_low_disc {adj st} _.
Arguments num_parent {adj st} _.
Arguments num_art {adj st} _.

(** * Proofs *)

(** ** The result monad *)

Lemma bind_Ok {A B} (r : result A) (k : A → result B) (b : B) :
  r ≫= k = Ok b ↔ ∃ a, r = Ok a ∧ k a = Ok b.
Proof.
  destruct r as [a|e]; simpl.
  - split; [intros H; by exists a | intros (a' & [= <-] & H); done].
  - split; [done | intros (a' & [=] & _)].
Qed.

Lemma getitem_Some {V} (m : gmap Z V) k v : m !! k = Some v → getitem m k = Ok v.
Proof. unfold getitem. by intros ->. Qed.

(** ** Edges *)

Lemma adj_lookup_Some adj u ns : adj_lookup adj u = Some ns → (u, ns) ∈ adj.
Proof.
  induction adj as [|[k ms] adj IH]; simpl; [done|].
  case_decide as Hk.
  - intros [= <-]. subst k. apply list_elem_of_here.
  - intros H. apply list_elem_of_further. auto.
Qed.

Lemma adj_lookup_None adj u : adj_lookup adj u = None ↔ u ∉ adj_keys adj.
Proof.
  unfold adj_keys. induction adj as [|[k ms] adj IH]; simpl.
  - split; [intros _; apply not_elem_of_nil | done].
  - rewrite not_elem_of_cons. case_decide as Hk.
    + split; [done | intros [? _]; done].
    + rewrite IH. split; [intros ?; split; [congruence | done] | intros [_ ?]; done].
Qed.

Lemma edge_key adj a b : edge adj a b → a ∈ adj_keys adj.
Proof.
  unfold edge, adj_get. intros H.
  destruct (adj_lookup adj a) as [ns|] eqn:E.
  - apply adj_lookup_Some in E. unfold adj_keys.
    apply list_elem_of_fmap. by exists (a, ns).
  - simpl in H. by apply elem_of_nil in H.
Qed.

Lemma edge_mentioned_r adj a b : edge adj a b → b ∈ mentioned adj.
Proof.
  unfold edge, adj_get, mentioned. intros H.
  destruct (adj_lookup adj a) as [ns|] eqn:E; simpl in H.
  - apply adj_lookup_Some in E. apply elem_of_app. right.
    apply list_elem_of_join. exists ns. split; [done|].
    apply list_elem_of_fmap. by exists (a, ns).
  - by apply elem_of_nil in H.
Qed.

Lemma adj_lookup_remove_node z adj a :
  adj_lookup (remove_node z adj) a =
  if decide (a = z) then None else filter (λ x, x ≠ z) <$> adj_lookup adj a.
Proof.
  unfold remove_node. induction adj as [|[k ns] adj IH].
  - simpl. by case_decide.
  - rewrite filter_cons. cbn [fst]. destruct (decide (k ≠ z)) as [Hk|Hk].
    + rewrite fmap_cons. cbn [adj_lookup fst snd]. rewrite IH.
      repeat case_decide; subst; done.
    + apply dec_stable in Hk. subst k. rewrite IH. cbn [adj_lookup].
      repeat case_decide; subst; done.
Qed.

Lemma edge_remove_node z adj a b :
  edge (remove_node z adj) a b ↔ edge adj a b ∧ a ≠ z ∧ b ≠ z.
Proof.
  unfold edge, adj_get. rewrite adj_lookup_remove_node.
  case_decide as Ha.
  - simpl. split; [by intros ?%elem_of_nil | naive_solver].
  - destruct (adj_lookup adj a) as [ns|]; simpl.
    + rewrite list_elem_of_filter. naive_solver.
    + split; [by intros ?%elem_of_nil | by intros [?%elem_of_nil _]].
Qed.

Lemma symmetric_edge adj : symmetric adj ↔ ∀ a b, edge adj a b → edge adj b a.
Proof.
  unfold symmetric. rewrite Forall_forall. split.
  - intros H a b Hab. specialize (H a (edge_key _ _ _ Hab)).
    rewrite Forall_forall in H. by apply H.
  - intros H a _. apply Forall_forall. intros b Hb. by apply H.
Qed.

Lemma loop_free_edge adj : loop_free adj ↔ ∀ a, ¬ edge adj a a.
Proof.
  unfold loop_free. rewrite Forall_forall. split.
  - intros H a Ha. by apply (H a (edge_key _ _ _ Ha)).
  - intros H a _. apply H.
Qed.

Lemma symmetric_remove_node z adj : symmetric adj → symmetric (remove_node z adj).
Proof.
  rewrite !symmetric_edge. intros H a b. rewrite !edge_remove_node. naive_solver.
Qed.

Lemma connected_sym adj a b : symmetric adj → connected adj a b → connected adj b a.
Proof.
  rewrite symmetric_edge. intros Hs H. induction H as [|a b c Hab _ IH].
  - apply rtc_refl.
  - eapply rtc_r; [exact IH|]. by apply Hs.
Qed.

Lemma connected_closed adj (C : gset Z) a b :
  (∀ x y, x ∈ C → edge adj x y → y ∈ C) →
  connected adj a b → a ∈ C → b ∈ C.
Proof. intros HC H. induction H; eauto. Qed.

(** ** Updates of an adjacency map *)

Lemma adj_lookup_app adj1 adj2 k :
  adj_lookup (adj1 ++ adj2) k =
  match adj_lookup adj1 k with
  | Some ns => Some ns
  | None => adj_lookup adj2 k
  end.
Proof.
  induction adj1 as [|[k' ns] adj1 IH]; simpl; [done|].
  by case_decide.
Qed.

Lemma adj_lookup_is_Some adj k : is_Some (adj_lookup adj k) ↔ k ∈ adj_keys adj.
Proof.
  destruct (adj_lookup adj k) eqn:E.
  - split; [intros _|by eexists]. apply dec_stable. intros Hk.
    apply adj_lookup_None in Hk. congruence.
  - split; [by intros ?%is_Some_None|]. intros Hk.
    by apply adj_lookup_None in E.
Qed.

Lemma adj_get_setdefault k adj k' :
  adj_get (adj_setdefault k adj) k' = adj_get adj k'.
Proof.
  unfold adj_get, adj_setdefault. destruct (adj_lookup adj k) eqn:E; [done|].
  rewrite adj_lookup_app. destruct (adj_lookup adj k') eqn:E'; [done|].
  simpl. by case_decide.
Qed.

Lemma adj_keys_setdefault k adj k' :
  k' ∈ adj_keys (adj_setdefault k adj) ↔ k' = k ∨ k' ∈ adj_keys adj.
Proof.
  unfold adj_setdefault. destruct (adj_lookup adj k) eqn:E.
  - split; [auto|]. intros [->|?]; [|done].
    apply adj_lookup_is_Some. by eexists.
  - unfold adj_keys. rewrite fmap_app, elem_of_app. simpl.
    rewrite list_elem_of_singleton. naive_solver.
Qed.

Lemma adj_keys_setdefault_NoDup k adj :
  NoDup (adj_keys adj) → NoDup (adj_keys (adj_setdefault k adj)).
Proof.
  unfold adj_setdefault. destruct (adj_lookup adj k) eqn:E; [done|].
  intros Hnd. unfold adj_keys. rewrite fmap_app. simpl.
  apply NoDup_app. split; [done|]. split; [|apply NoDup_singleton].
  intros x Hx ->%list_elem_of_singleton. by apply adj_lookup_None in E.
Qed.

Lemma elem_of_set_add t ns x : x ∈ set_add t ns ↔ x = t ∨ x ∈ ns.
Proof.
  unfold set_add. case_decide.
  - naive_solver.
  - rewrite elem_of_app, list_elem_of_singleton. naive_solver.
Qed.

Lemma adj_lookup_add k t adj k' :
  adj_lookup (adj_add k t adj) k' =
  if decide (k' = k) then set_add t <$> adj_lookup adj k
  else adj_lookup adj k'.
Proof.
  induction adj as [|[k0 ns] adj IH]; simpl.
  - by case_decide.
  - destruct (decide (k0 = k)) as [->|Hk0]; simpl.
    + destruct (decide (k = k')) as [->|]; [by rewrite decide_True|].
      by rewrite decide_False by done.
    + rewrite IH. destruct (decide (k0 = k')) as [->|]; [|done].
      by rewrite decide_False by done.
Qed.

Lemma adj_keys_add k t adj : adj_keys (adj_add k t adj) = adj_keys adj.
Proof.
  unfold adj_keys. induction adj as [|[k0 ns] adj IH]; [done|].
  cbn [adj_add]. case_decide; rewrite !fmap_cons; [done|]. by rewrite IH.
Qed.

Lemma edge_setdefault k adj a b : edge (adj_setdefault k adj) a b ↔ edge adj a b.
Proof. unfold edge. by rewrite adj_get_setdefault. Qed.

Lemma edge_add k t adj a b :
  edge (adj_add k t adj) a b ↔
  edge adj a b ∨ (a = k ∧ b = t ∧ k ∈ adj_keys adj).
Proof.
  unfold edge, adj_get. rewrite adj_lookup_add. case_decide as Ha.
  - subst a. destruct (adj_lookup adj k) as [ns|] eqn:E; simpl.
    + rewrite elem_of_set_add. split; [|naive_solver].
      intros [->|?]; [|by left]. right. repeat split.
      apply adj_lookup_is_Some. by eexists.
    + split; [by intros ?%elem_of_nil|]. intros [?%elem_of_nil|(_ & _ & Hk)]; [done|].
      apply adj_lookup_None in E. done.
  - naive_solver.
Qed.

Lemma edge_setdefault_add k t adj a b :
  edge (adj_setdefault_add k t adj) a b ↔ edge adj a b ∨ (a = k ∧ b = t).
Proof.
  unfold adj_setdefault_add. rewrite edge_add, edge_setdefault.
  rewrite adj_keys_setdefault. naive_solver.
Qed.

Lemma adj_keys_setdefault_add k t adj k' :
  k' ∈ adj_keys (adj_setdefault_add k t adj) ↔ k' = k ∨ k' ∈ adj_keys adj.
Proof.
  unfold adj_setdefault_add. by rewrite adj_keys_add, adj_keys_setdefault.
Qed.

Lemma adj_keys_setdefault_add_NoDup k t adj :
  NoDup (adj_keys adj) → NoDup (adj_keys (adj_setdefault_add k t adj)).
Proof.
  unfold adj_setdefault_add. rewrite adj_keys_add.
  apply adj_keys_setdefault_NoDup.
Qed.

(** ** The symmetrization pass *)

Lemma edge_symmetrize_inner u vs : ∀ adj a b,
  edge (foldl (λ adj v, adj_setdefault_add v u adj) adj vs) a b ↔
  edge adj a b ∨ (b = u ∧ a ∈ vs).
Proof.
  induction vs as [|v vs IH]; intros adj a b; simpl.
  - split; [auto|]. intros [?|[_ ?%elem_of_nil]]; done.
  - rewrite IH, edge_setdefault_add, elem_of_cons. naive_solver.
Qed.

Lemma edge_symmetrize_key adj u a b :
  edge (symmetrize_key adj u) a b ↔ edge adj a b ∨ (b = u ∧ edge adj u a).
Proof. unfold symmetrize_key. by rewrite edge_symmetrize_inner. Qed.

Lemma edge_symmetrize_keys us : ∀ adj a b,
  edge (foldl symmetrize_key adj us) a b ↔
  edge adj a b ∨ (b ∈ us ∧ edge adj b a).
Proof.
  induction us as [|u us IH]; intros adj a b; simpl.
  - split; [auto|]. intros [?|[?%elem_of_nil _]]; done.
  - rewrite IH, !edge_symmetrize_key, elem_of_cons. naive_solver.
Qed.

(** After the pass [b] is listed under [a] when either listed the other
    before it. *)
Lemma edge_symmetrize adj a b :
  edge (symmetrize adj) a b ↔ edge adj a b ∨ edge adj b a.
Proof.
  unfold symmetrize. rewrite edge_symmetrize_keys. split.
  - naive_solver.
  - intros [?|H]; [by left|]. right. split; [|done]. by eapply edge_key.
Qed.

Lemma adj_keys_symmetrize_inner u vs : ∀ adj k,
  k ∈ adj_keys (foldl (λ adj v, adj_setdefault_add v u adj) adj vs) ↔
  k ∈ adj_keys adj ∨ k ∈ vs.
Proof.
  induction vs as [|v vs IH]; intros adj k; simpl.
  - split; [auto|]. intros [?|?%elem_of_nil]; done.
  - rewrite IH, adj_keys_setdefault_add, elem_of_cons. naive_solver.
Qed.

Lemma adj_keys_symmetrize_keys us : ∀ adj k,
  k ∈ adj_keys (foldl symmetrize_key adj us) ↔
  k ∈ adj_keys adj ∨ ∃ u, u ∈ us ∧ edge adj u k.
Proof.
  induction us as [|u us IH]; intros adj k; simpl.
  - split; [auto|]. intros [?|(u & ?%elem_of_nil & _)]; done.
  - rewrite IH. unfold symmetrize_key at 1.
    rewrite adj_keys_symmetrize_inner. split.
    + intros [[?|?]|(w & Hw & Hwk)]; [by left|right|].
      * exists u. split; [apply list_elem_of_here|done].
      * apply edge_symmetrize_key in Hwk as [?|[-> ?]].
        -- right. exists w. split; [by apply list_elem_of_further|done].
        -- left. by eapply edge_key.
    + intros [?|(w & [->|Hw]%elem_of_cons & Hwk)]; [by do 2 left|by left; right|].
      right. exists w. split; [done|]. apply edge_symmetrize_key. by left.
Qed.

Lemma adj_keys_symmetrize adj k :
  k ∈ adj_keys (symmetrize adj) ↔ k ∈ adj_keys adj ∨ ∃ u, edge adj u k.
Proof.
  unfold symmetrize. rewrite adj_keys_symmetrize_keys. split.
  - naive_solver.
  - intros [?|(u & Hu)]; [by left|]. right. exists u. split; [|done].
    by eapply edge_key.
Qed.

Lemma adj_keys_symmetrize_NoDup adj :
  NoDup (adj_keys adj) → NoDup (adj_keys (symmetrize adj)).
Proof.
  unfold symmetrize. generalize (adj_keys adj) at 2 as us. intros us.
  revert adj. induction us as [|u us IH]; intros adj Hnd; simpl; [done|].
  apply IH. unfold symmetrize_key. generalize (adj_get adj u) as vs. intros vs.
  revert adj Hnd. induction vs as [|v vs IHv]; intros adj Hnd; simpl; [done|].
  by apply IHv, adj_keys_setdefault_add_NoDup.
Qed.

Lemma symmetrize_symmetric adj : symmetric (symmetrize adj).
Proof. apply symmetric_edge. intros a b. rewrite !edge_symmetrize. tauto. Qed.

Lemma symmetrize_loop_free adj :
  (∀ a, ¬ edge adj a a) → loop_free (symmetrize adj).
Proof.
  intros H. apply loop_free_edge. intros a. rewrite edge_symmetrize.
  intros [?|?]; by apply (H a).
Qed.

(** ** The rows *)

Section parse_input_facts.
Context (py_int : string → option Z) (py_strip : string → string).

#[local] Abbreviation row_id := (row_id py_int).
#[local] Abbreviation connection_target := (connection_target py_int py_strip).
#[local] Abbreviation row_targets := (row_targets py_int py_strip).
#[local] Abbreviation add_connection := (add_connection py_int py_strip).
#[local] Abbreviation add_connections := (add_connections py_int py_strip).
#[local] Abbreviation parse_row := (parse_row py_int py_strip).
#[local] Abbreviation parse_rows := (parse_rows py_int py_strip).
#[local] Abbreviation parse_input := (parse_input py_int py_strip).
#[local] Abbreviation well_formed := (well_formed py_int).

Lemma elem_of_row_targets r t :
  t ∈ row_targets r ↔
  ∃ key, key ∈ connection_keys ∧ connection_target r key = Some t.
Proof. unfold row_targets. apply list_elem_of_omap. Qed.

Lemma add_connection_eq r u key adj :
  u ∈ adj_keys adj →
  add_connection r u key adj =
  Ok (match connection_target r key with
      | Some t => if decide (t ≠ u) then adj_add u t adj else adj
      | None => adj
      end).
Proof.
  intros Hu. unfold add_connection, connection_target.
  destruct (r !! key) as [[s|]|]; [|done|done].
  case_decide; [|done]. destruct (py_int s) as [t|]; [|done].
  case_decide; [|done]. unfold adj_getitem_add.
  apply adj_lookup_is_Some in Hu as [ns ->]. done.
Qed.

Lemma add_connections_spec r u keys : ∀ adj,
  u ∈ adj_keys adj →
  ∃ adj', add_connections r u keys adj = Ok adj' ∧
    adj_keys adj' = adj_keys adj ∧
    ∀ a b, edge adj' a b ↔
           edge adj a b ∨
           (a = u ∧ b ≠ u ∧
            ∃ key, key ∈ keys ∧ connection_target r key = Some b).
Proof.
  induction keys as [|key keys IH]; intros adj Hu; simpl.
  - exists adj. repeat (split; [done|]). intros a b. split; [auto|].
    intros [?|(_ & _ & key & ?%elem_of_nil & _)]; done.
  - rewrite (add_connection_eq _ _ _ _ Hu). simpl.
    set (adj1 := match connection_target r key with
                 | Some t => if decide (t ≠ u) then adj_add u t adj else adj
                 | None => adj
                 end).
    assert (adj_keys adj1 = adj_keys adj) as Hk1.
    { unfold adj1. destruct (connection_target r key); [|done].
      case_decide; [|done]. apply adj_keys_add. }
    assert (∀ a b, edge adj1 a b ↔
              edge adj a b ∨ (a = u ∧ b ≠ u ∧ connection_target r key = Some b))
      as He1.
    { intros a b. unfold adj1.
      destruct (connection_target r key) as [t|]; [|naive_solver].
      case_decide as Ht; [|naive_solver].
      rewrite edge_add. naive_solver. }
    destruct (IH adj1) as (adj' & Hrun & Hk & He); [by rewrite Hk1|].
    exists adj'. split; [done|]. split; [by rewrite Hk|].
    intros a b. rewrite He, He1. split.
    + intros [[?|(? & ? & ?)]|(? & ? & key' & ? & ?)]; [by left|right..].
      * repeat (split; [done|]). exists key. split; [apply list_elem_of_here|done].
      * repeat (split; [done|]). exists key'.
        split; [by apply list_elem_of_further|done].
    + intros [?|(? & ? & key' & [->|?]%elem_of_cons & ?)];
        [by do 2 left|left; by right|right].
      repeat (split; [done|]). by exists key'.
Qed.

Lemma row_getitem_Ok r key c : row_getitem r key = Ok c → r !! key = Some c.
Proof. unfold row_getitem. destruct (r !! key); [|done]. by intros [= ->]. Qed.

Lemma parse_row_inv r acc acc' :
  parse_row r acc = Ok acc' →
  described r ∧ ∃ n, row_id r = Some (node_id n) ∧ acc'.1 = acc.1 ++ [n].
Proof.
  unfold parse_row. intros H.
  apply bind_Ok in H as (c & Hc & H).
  apply bind_Ok in H as (u & Hu & H).
  apply bind_Ok in H as (name & Hname%row_getitem_Ok & H).
  apply bind_Ok in H as (group & Hgroup%row_getitem_Ok & H).
  apply bind_Ok in H as (unit & Hunit%row_getitem_Ok & H).
  apply bind_Ok in H as (contact & Hcontact%row_getitem_Ok & H).
  apply bind_Ok in H as (adj' & _ & [= <-]).
  split; [by repeat split; eexists|].
  exists (Node u name group unit contact). split; [|done]. simpl.
  unfold row_id. unfold row_getitem in Hc.
  destruct (r !! "id"%string) as [c'|]; [|done]. injection Hc as ->.
  unfold int_of_cell in Hu. destruct c as [s|]; [|done].
  destruct (py_int s); [|done]. by injection Hu as ->.
Qed.

Local Opaque connection_keys.

Lemma parse_row_spec r acc u :
  row_id r = Some u → described r →
  ∃ n adj', parse_row r acc = Ok (acc.1 ++ [n], adj') ∧ node_id n = u ∧
    (∀ k, k ∈ adj_keys adj' ↔ k = u ∨ k ∈ adj_keys acc.2) ∧
    (NoDup (adj_keys acc.2) → NoDup (adj_keys adj')) ∧
    ∀ a b, edge adj' a b ↔
           edge acc.2 a b ∨ (a = u ∧ b ≠ u ∧ b ∈ row_targets r).
Proof.
  intros Hid ([name Hname] & [group Hgroup] & [unit Hunit] & [contact Hcontact]).
  unfold row_id in Hid.
  unfold parse_row, row_getitem.
  destruct (r !! "id"%string) as [[s|]|]; [|done|done]. simpl.
  rewrite Hid, Hname, Hgroup, Hunit, Hcontact. simpl.
  destruct (add_connections_spec r u connection_keys (adj_setdefault u acc.2))
    as (adj' & -> & Hk & He).
  { apply adj_keys_setdefault. by left. }
  simpl. eexists _, adj'. split; [done|]. split; [done|].
  split; [|split].
  - intros k. rewrite Hk. apply adj_keys_setdefault.
  - intros Hnd. rewrite Hk. by apply adj_keys_setdefault_NoDup.
  - intros a b. rewrite He, edge_setdefault.
    by setoid_rewrite elem_of_row_targets.
Qed.

Local Transparent connection_keys.

Lemma parse_rows_inv rows : ∀ acc acc',
  parse_rows rows acc = Ok acc' → Forall well_formed rows.
Proof.
  induction rows as [|r rows IH]; intros acc acc'; simpl; [by constructor|].
  intros (acc1 & H1 & Hrest)%bind_Ok.
  apply parse_row_inv in H1 as (Hd & n & Hn & H1).
  constructor; [|by eapply IH]. split; [by eexists|done].
Qed.

Lemma parse_rows_spec rows : ∀ acc,
  Forall well_formed rows →
  ∃ ns adj', parse_rows rows acc = Ok (acc.1 ++ ns, adj') ∧
    Forall2 (λ r n, row_id r = Some (node_id n)) rows ns ∧
    (∀ k, k ∈ adj_keys adj' ↔
          k ∈ adj_keys acc.2 ∨ ∃ r, r ∈ rows ∧ row_id r = Some k) ∧
    (NoDup (adj_keys acc.2) → NoDup (adj_keys adj')) ∧
    ∀ a b, edge adj' a b ↔
           edge acc.2 a b ∨
           ∃ r, r ∈ rows ∧ row_id r = Some a ∧ b ≠ a ∧ b ∈ row_targets r.
Proof.
  induction rows as [|r rows IH]; intros acc Hwf; simpl.
  - exists [], acc.2. rewrite app_nil_r. split; [by destruct acc|].
    split; [constructor|]. split; [|split; [done|]].
    + intros k. split; [auto|]. intros [?|(r & ?%elem_of_nil & _)]; done.
    + intros a b. split; [auto|]. intros [?|(r & ?%elem_of_nil & _)]; done.
  - apply Forall_cons in Hwf as [[[u Hid] Hd] Hwf].
    destruct (parse_row_spec r acc u Hid Hd) as (n & adj1 & -> & Hn & Hk1 & Hnd1 & He1).
    simpl.
    destruct (IH (acc.1 ++ [n], adj1) Hwf) as (ns & adj' & -> & Hall & Hk & Hnd & He).
    simpl in *. exists (n :: ns), adj'. rewrite <- app_assoc.
    split; [done|]. split; [constructor; [by rewrite Hn|done]|].
    split; [|split; [auto|]].
    + intros k. rewrite Hk, Hk1. split.
      * intros [[->|?]|(r' & ? & ?)]; [right|by left|right].
        -- exists r. split; [apply list_elem_of_here|done].
        -- exists r'. split; [by apply list_elem_of_further|done].
      * intros [?|(r' & [->|?]%elem_of_cons & Hr')]; [by left; right| |].
        -- left. left. congruence.
        -- right. by exists r'.
    + intros a b. rewrite He, He1. split.
      * intros [[?|(-> & ? & ?)]|(r' & ? & ?)]; [by left|right..].
        -- exists r. split; [apply list_elem_of_here|done].
        -- exists r'. split; [by apply list_elem_of_further|done].
      * intros [?|(r' & [->|?]%elem_of_cons & Hr' & ? & ?)]; [by do 2 left| |].
        -- left. right. assert (a = u) as -> by congruence. done.
        -- right. by exists r'.
Qed.

(** What [parse_input] returns on rows that can all be identified. *)
Lemma parse_input_spec rows :
  Forall well_formed rows →
  ∃ nodes adj, parse_input rows = Ok (nodes, adj) ∧
    Forall2 (λ r n, row_id r = Some (node_id n)) rows nodes ∧
    NoDup (adj_keys adj) ∧
    (∀ k, k ∈ adj_keys adj ↔
          ∃ r, r ∈ rows ∧ (row_id r = Some k ∨ k ∈ row_targets r)) ∧
    ∀ a b, edge adj a b ↔
           a ≠ b ∧ ∃ r, r ∈ rows ∧
             ((row_id r = Some a ∧ b ∈ row_targets r) ∨
              (row_id r = Some b ∧ a ∈ row_targets r)).
Proof.
  intros Hwf. unfold parse_input.
  destruct (parse_rows_spec rows ([], []) Hwf)
    as (ns & adj1 & -> & Hall & Hk & Hnd & He).
  simpl in *. exists ns, (symmetrize adj1). split; [done|].
  split; [done|].
  assert (∀ a b, edge adj1 a b ↔
            ∃ r, r ∈ rows ∧ row_id r = Some a ∧ b ≠ a ∧ b ∈ row_targets r)
    as He'.
  { intros a b. rewrite He. split; [|auto].
    intros [H|?]; [|done]. by apply edge_key, elem_of_nil in H. }
  assert (∀ k, k ∈ adj_keys adj1 ↔ ∃ r, r ∈ rows ∧ row_id r = Some k) as Hk'.
  { intros k. rewrite Hk. split; [|auto].
    intros [?%elem_of_nil|?]; done. }
  split; [apply adj_keys_symmetrize_NoDup, Hnd, NoDup_nil_2|]. split.
  - intros k. rewrite adj_keys_symmetrize, Hk'. split.
    + intros [(r & ? & ?)|(u & (r & ? & ? & ? & ?)%He')]; exists r; auto.
    + intros (r & Hr & [?|Ht]); [left; by exists r|].
      rewrite Forall_forall in Hwf. destruct (Hwf r Hr) as [[u Hu] _].
      destruct (decide (k = u)) as [->|Hne]; [left; by exists r|].
      right. exists u. apply He'. by exists r.
  - intros a b. rewrite edge_symmetrize, !He'. split.
    + intros [(r & ? & ? & ? & ?)|(r & ? & ? & ? & ?)];
        (split; [done|]); exists r; auto.
    + intros (Hne & r & Hr & [[? ?]|[? ?]]); [left|right]; exists r; auto.
Qed.

(** A connection cell that cannot be read counts as a missing one. *)
Lemma add_connection_delete r key u key' adj :
  connection_target r key = None →
  add_connection (delete key r) u key' adj = add_connection r u key' adj.
Proof.
  unfold add_connection, connection_target. intros Hbad.
  destruct (decide (key' = key)) as [->|Hne].
  - rewrite lookup_delete_eq. destruct (r !! key) as [[s|]|]; [|done|done].
    case_decide; [|done]. by rewrite Hbad.
  - by rewrite lookup_delete_ne.
Qed.

Lemma add_connections_delete r key u keys : ∀ adj,
  connection_target r key = None →
  add_connections (delete key r) u keys adj = add_connections r u keys adj.
Proof.
  induction keys as [|key' keys IH]; intros adj Hbad; simpl; [done|].
  rewrite add_connection_delete by done.
  destruct (add_connection r u key' adj); simpl; [by apply IH|done].
Qed.

Lemma lookup_delete_connection (r : row) key col :
  key ∈ connection_keys →
  col ∈ ["id"; "nodeName"; "group"; "unit"; "contact"]%string →
  delete key r !! col = r !! col.
Proof.
  intros Hk Hc. apply lookup_delete_ne. intros ->.
  revert Hk Hc. unfold connection_keys.
  rewrite !elem_of_cons, !elem_of_nil. intros Hk Hc.
  repeat (destruct Hk as [->|Hk]; [by repeat (destruct Hc as [?|Hc])|]).
  done.
Qed.

Local Opaque connection_keys.

Lemma parse_row_delete r key acc :
  key ∈ connection_keys → connection_target r key = None →
  parse_row (delete key r) acc = parse_row r acc.
Proof.
  intros Hkey Hbad. unfold parse_row, row_getitem.
  rewrite !(lookup_delete_connection r key)
    by (done || (rewrite !elem_of_cons; tauto)).
  destruct (r !! "id"%string) as [c|]; simpl; [|done].
  destruct (int_of_cell py_int c); simpl; [|done].
  repeat (match goal with
          | |- context [r !! ?k] => destruct (r !! k); simpl; [|done]
          end).
  by rewrite add_connections_delete.
Qed.

Local Transparent connection_keys.

Lemma parse_rows_insert rows : ∀ i r r' acc,
  rows !! i = Some r → (∀ acc, parse_row r' acc = parse_row r acc) →
  parse_rows (<[i := r']> rows) acc = parse_rows rows acc.
Proof.
  induction rows as [|r0 rows IH]; intros i r r' acc Hi Heq; [done|].
  destruct i as [|i]; simpl in *.
  - injection Hi as ->. by rewrite Heq.
  - destruct (parse_row r0 acc); simpl; [by eapply IH|done].
Qed.

(** C2: on rows that can all be read, [parse_input] returns an adjacency
    map that is symmetric ([v ∈ adj[u]] exactly when [u ∈ adj[v]], also
    for a connection the input gave from one side only) and has no
    self-loop. *)
Theorem parse_input_symmetric rows :
  Forall well_formed rows →
  ∃ nodes adj, parse_input rows = Ok (nodes, adj) ∧
    symmetric adj ∧ loop_free adj ∧
    (∀ u v, v ∈ adj_get adj u ↔ u ∈ adj_get adj v) ∧
    (∀ u, u ∉ adj_get adj u).
Proof.
  intros Hwf.
  destruct (parse_input_spec rows Hwf) as (nodes & adj & Hrun & _ & _ & _ & He).
  exists nodes, adj. split; [done|].
  assert (∀ u v, edge adj u v → edge adj v u) as Hsym.
  { intros u v. rewrite !He. intros (? & r & ? & [?|?]).
    all: split; [done|]; exists r; auto. }
  assert (∀ u, ¬ edge adj u u) as Hloop.
  { intros u. rewrite He. by intros [? _]. }
  split; [by apply symmetric_edge|]. split; [by apply loop_free_edge|].
  split; [|done]. intros u v. split; apply Hsym.
Qed.

Lemma parse_rows_raises_unreadable rows : ∀ acc,
  Exists (λ r, row_id r = None) rows → raises (parse_rows rows acc).
Proof.
  induction rows as [|r rows IH]; intros acc Hex; simpl.
  - by apply Exists_nil in Hex.
  - destruct (parse_row r acc) as [acc1|e] eqn:Hrow; simpl; [|by exists e].
    apply IH. apply Exists_cons in Hex as [Hex|Hex]; [|done].
    apply parse_row_inv in Hrow as (_ & n & Hn & _). congruence.
Qed.

(** C3, as the code has it: [parse_input] raises exactly when the loop body
    cannot get through some row, that is when the identifier of the row
    cannot be read as an integer or one of the columns [nodeName], [group],
    [unit], [contact] is missing from it (line 33 and lines 36-39).  An
    identifier that cannot be read always makes it raise, and is the only
    cause when the four columns are there.  When it returns, every row has
    its entry in the node list, in order, so no row was skipped. *)
Theorem parse_input_raises_iff rows :
  (raises (parse_input rows) ↔
   Exists (λ r, row_id r = None ∨ ¬ described r) rows) ∧
  (Exists (λ r, row_id r = None) rows → raises (parse_input rows)) ∧
  (Forall described rows → raises (parse_input rows) →
     Exists (λ r, row_id r = None) rows) ∧
  (∀ nodes adj, parse_input rows = Ok (nodes, adj) →
     Forall2 (λ r n, row_id r = Some (node_id n)) rows nodes).
Proof.
  assert (raises (parse_input rows) ↔
          Exists (λ r, row_id r = None ∨ ¬ described r) rows) as Hiff.
  { split.
    - intros [e He].
      destruct (decide (Exists (λ r, row_id r = None ∨ ¬ described r) rows))
        as [|Hn]; [done|].
      exfalso. apply not_Exists_Forall in Hn; [|intros r; apply _].
      assert (Forall well_formed rows) as Hwf.
      { rewrite Forall_forall in *. intros r Hr. specialize (Hn r Hr).
        simpl in Hn. split.
        - destruct (row_id r); [by eexists|]. exfalso. apply Hn. by left.
        - destruct (decide (described r)); [done|]. exfalso. apply Hn.
          by right. }
      destruct (parse_input_spec rows Hwf) as (nodes & adj & Hrun & _).
      congruence.
    - intros Hex. destruct (parse_input rows) as [acc|e] eqn:Hrun;
        [|by exists e].
      exfalso. unfold parse_input in Hrun.
      apply bind_Ok in Hrun as (acc' & Hacc & _).
      apply parse_rows_inv in Hacc. rewrite Forall_forall in Hacc.
      apply Exists_exists in Hex as (r & Hr & Hbad).
      destruct (Hacc r Hr) as [[u Hu] Hd].
      destruct Hbad as [Hnone|Hnd]; [congruence|done]. }
  split; [done|]. split; [|split].
  - intros Hex. apply Hiff. eapply Exists_impl; [exact Hex|].
    intros r Hr. by left.
  - intros Hd Hr%Hiff. apply Exists_exists in Hr as (r & Hr & Hbad).
    apply Exists_exists. exists r. split; [done|].
    destruct Hbad as [?|Hnd]; [done|]. exfalso. apply Hnd.
    rewrite Forall_forall in Hd. by apply Hd.
  - intros nodes adj Hrun.
    assert (Forall well_formed rows) as Hwf.
    { unfold parse_input in Hrun. apply bind_Ok in Hrun as (acc & Hacc & _).
      by eapply parse_rows_inv. }
    destruct (parse_input_spec rows Hwf) as (nodes' & adj' & Hrun' & Hall & _).
    rewrite Hrun in Hrun'. by injection Hrun' as -> ->.
Qed.

(** C4: whatever the connection cells of the rows hold, [parse_input]
    does not raise as long as the identifiers can be read; every row has
    its entry in the node list; every connection cell that can be read
    (and does not name its own row) is in the adjacency map; and a cell
    that cannot be read (empty, blank, missing or not a number) has the
    effect of an absent column, nothing more. *)
Theorem parse_input_tolerant rows :
  Forall well_formed rows →
  (∃ nodes adj, parse_input rows = Ok (nodes, adj) ∧
     Forall2 (λ r n, row_id r = Some (node_id n)) rows nodes ∧
     ∀ r u key t, r ∈ rows → row_id r = Some u → key ∈ connection_keys →
       connection_target r key = Some t → t ≠ u → t ∈ adj_get adj u) ∧
  (∀ i r key, rows !! i = Some r → key ∈ connection_keys →
     connection_target r key = None →
     parse_input (<[i := delete key r]> rows) = parse_input rows).
Proof.
  intros Hwf. split.
  - destruct (parse_input_spec rows Hwf)
      as (nodes & adj & Hrun & Hall & _ & _ & He).
    exists nodes, adj. repeat (split; [done|]).
    intros r u key t Hr Hu Hkey Ht Hne. apply He. split; [done|].
    exists r. split; [done|]. left. split; [done|].
    apply elem_of_row_targets. by exists key.
  - intros i r key Hi Hkey Hbad. unfold parse_input.
    rewrite (parse_rows_insert rows i r); [done|done|].
    intros acc. by apply parse_row_delete.
Qed.

(** C5: the keys of the returned map are the identifiers the rows refer
    to, as their own or in a connection cell; an identifier that a row
    names in a connection cell has an entry, and the entry holds the
    naming row's identifier. *)
Theorem parse_input_keys rows :
  Forall well_formed rows →
  ∃ nodes adj, parse_input rows = Ok (nodes, adj) ∧
    (∀ k, k ∈ adj_keys adj ↔
          ∃ r, r ∈ rows ∧ (row_id r = Some k ∨ k ∈ row_targets r)) ∧
    (∀ r u t, r ∈ rows → row_id r = Some u → t ∈ row_targets r → t ≠ u →
       t ∈ adj_keys adj ∧ u ∈ adj_get adj t).
Proof.
  intros Hwf.
  destruct (parse_input_spec rows Hwf)
    as (nodes & adj & Hrun & _ & _ & Hk & He).
  exists nodes, adj. repeat (split; [done|]).
  intros r u t Hr Hu Ht Hne.
  assert (edge adj t u) as Htu.
  { apply He. split; [done|]. exists r. auto. }
  split; [by eapply edge_key|done].
Qed.

(** C10: two rows with the same identifier do not make [parse_input] fail
    and are both kept in the node list, at their positions; the adjacency
    map has one entry for the identifier, which holds the connections of
    both rows. *)
Theorem parse_input_duplicate_ids rows i j r1 r2 u :
  Forall well_formed rows →
  i ≠ j → rows !! i = Some r1 → rows !! j = Some r2 →
  row_id r1 = Some u → row_id r2 = Some u →
  ∃ nodes adj, parse_input rows = Ok (nodes, adj) ∧
    length nodes = length rows ∧
    (∃ n1 n2, nodes !! i = Some n1 ∧ nodes !! j = Some n2 ∧
              node_id n1 = u ∧ node_id n2 = u) ∧
    NoDup (adj_keys adj) ∧ u ∈ adj_keys adj ∧
    (∀ t, t ∈ row_targets r1 ++ row_targets r2 → t ≠ u → t ∈ adj_get adj u).
Proof.
  intros Hwf Hij Hi Hj Hu1 Hu2.
  destruct (parse_input_spec rows Hwf)
    as (nodes & adj & Hrun & Hall & Hnd & Hk & He).
  exists nodes, adj. split; [done|].
  split; [symmetry; by eapply Forall2_length|].
  split; [|split; [done|split]].
  - destruct (Forall2_lookup_l _ _ _ _ _ Hall Hi) as (n1 & Hn1 & Hid1).
    destruct (Forall2_lookup_l _ _ _ _ _ Hall Hj) as (n2 & Hn2 & Hid2).
    exists n1, n2. repeat (split; [done|]). split; congruence.
  - apply Hk. exists r1. split; [by eapply list_elem_of_lookup_2|by left].
  - intros t [Ht|Ht]%elem_of_app Hne; apply He; (split; [done|]).
    + exists r1. split; [by eapply list_elem_of_lookup_2|auto].
    + exists r2. split; [by eapply list_elem_of_lookup_2|auto].
Qed.
End parse_input_facts.

(** C3 does not hold of [parse_input] as the claim words it: a file whose
    header has no [nodeName] column makes line 36 raise KeyError on the
    first row, although the identifier of every row is a number. *)
Lemma parse_input_raises_with_readable_ids :
  parse_input decimal_int ascii_strip undescribed_rows = Raise KeyError ∧
  Forall (λ r, is_Some (row_id decimal_int r)) undescribed_rows ∧
  ¬ (∀ rows, raises (parse_input decimal_int ascii_strip rows) ↔
             Exists (λ r, row_id decimal_int r = None) rows).
Proof.
  assert (parse_input decimal_int ascii_strip undescribed_rows = Raise KeyError)
    as Hrun by (by vm_compute).
  assert (Forall (λ r, is_Some (row_id decimal_int r)) undescribed_rows) as Hids.
  { apply (bool_decide_unpack _). by vm_compute. }
  split; [done|]. split; [done|]. intros Hclaim.
  assert (Exists (λ r, row_id decimal_int r = None) undescribed_rows) as Hex.
  { apply Hclaim. exists KeyError. exact Hrun. }
  apply Exists_exists in Hex as (r & Hr & Hnone).
  rewrite Forall_forall in Hids. destruct (Hids r Hr) as [u Hu]. congruence.
Qed.

Lemma size_list_to_set_le (l : list Z) :
  (size (list_to_set l : gset Z) ≤ length l)%nat.
Proof.
  induction l as [|x l IH].
  - rewrite list_to_set_nil, size_empty. done.
  - rewrite list_to_set_cons, size_union_alt, size_singleton. simpl.
    assert (size (list_to_set l ∖ {[x]} : gset Z) ≤ size (list_to_set l : gset Z))%nat.
    { apply subseteq_size. set_solver. }
    lia.
Qed.

(** ** Reachability and the number of components *)

Lemma elem_of_reach_step adj (s : gset Z) y :
  y ∈ reach_step adj s ↔ y ∈ s ∨ ∃ x, x ∈ s ∧ edge adj x y.
Proof.
  unfold reach_step. rewrite elem_of_union, elem_of_union_list.
  split; intros [?|H]; auto; right.
  - destruct H as (X & (x & -> & Hx)%list_elem_of_fmap & Hy).
    exists x. split; [by apply elem_of_elements|]. by apply elem_of_list_to_set in Hy.
  - destruct H as (x & Hx & Hxy). exists (list_to_set (adj_get adj x)).
    split; [|by apply elem_of_list_to_set].
    apply list_elem_of_fmap. exists x. split; [done|]. by apply elem_of_elements.
Qed.

Lemma reach_iter_sound adj a n x :
  x ∈ Nat.iter n (reach_step adj) {[a]} → connected adj a x.
Proof.
  revert x. induction n as [|n IH]; intros x; simpl.
  - intros ->%elem_of_singleton. apply rtc_refl.
  - intros [Hx|(y & Hy & Hyx)]%elem_of_reach_step; [auto|].
    eapply rtc_r; [apply IH, Hy|done].
Qed.

Lemma reach_iter_universe adj a n x :
  x ∈ Nat.iter n (reach_step adj) {[a]} →
  x ∈ ({[a]} ∪ list_to_set (mentioned adj) : gset Z).
Proof.
  intros Hx%reach_iter_sound%rtc_inv_r.
  destruct Hx as [->|(y & _ & Hyx)]; [set_solver|].
  apply elem_of_union. right. apply elem_of_list_to_set.
  by eapply edge_mentioned_r.
Qed.

Lemma reach_iter_mono adj a n :
  Nat.iter n (reach_step adj) {[a]} ⊆ Nat.iter (S n) (reach_step adj) {[a]}.
Proof. simpl. intros x Hx. apply elem_of_reach_step. by left. Qed.

(** The rounds either stop growing or gain a node each. *)
Lemma reach_iter_grows adj a n :
  (∃ i, (i < n)%nat ∧ Nat.iter (S i) (reach_step adj) {[a]} =
                       Nat.iter i (reach_step adj) {[a]}) ∨
  (n < size (Nat.iter n (reach_step adj) {[a]}))%nat.
Proof.
  induction n as [|n [(i & Hi & Heq)|Hsize]].
  - right. change (Nat.iter 0 (reach_step adj) {[a]}) with ({[a]} : gset Z).
    rewrite size_singleton. lia.
  - left. exists i. split; [lia|done].
  - destruct (decide (Nat.iter (S n) (reach_step adj) {[a]} =
                      Nat.iter n (reach_step adj) {[a]})) as [Heq|Hne].
    + left. exists n. split; [lia|done].
    + right.
      assert (Nat.iter n (reach_step adj) {[a]} ⊂
              Nat.iter (S n) (reach_step adj) {[a]}) as Hsub.
      { split; [apply reach_iter_mono|]. intros Hrev. apply Hne.
        apply set_eq. intros x. split; [apply Hrev|apply reach_iter_mono]. }
      apply subset_size in Hsub. lia.
Qed.

Lemma reach_iter_stable adj a i n :
  Nat.iter (S i) (reach_step adj) {[a]} = Nat.iter i (reach_step adj) {[a]} →
  (i ≤ n)%nat →
  Nat.iter n (reach_step adj) {[a]} = Nat.iter i (reach_step adj) {[a]}.
Proof.
  intros Heq Hle. induction Hle as [|n Hle IH]; [done|].
  change (Nat.iter (S n) (reach_step adj) {[a]})
    with (reach_step adj (Nat.iter n (reach_step adj) {[a]})).
  rewrite IH. exact Heq.
Qed.

Lemma reach_closed adj a x y :
  x ∈ reach adj a → edge adj x y → y ∈ reach adj a.
Proof.
  unfold reach. set (n := length (mentioned adj)). intros Hx Hxy.
  assert (Nat.iter (S n) (reach_step adj) {[a]} =
          Nat.iter n (reach_step adj) {[a]}) as Hfix.
  { destruct (reach_iter_grows adj a (S n)) as [(i & Hi & Heq)|Hsize].
    - rewrite (reach_iter_stable adj a i (S n)), (reach_iter_stable adj a i n);
        [done|done|lia|done|lia].
    - exfalso.
      assert (size (Nat.iter (S n) (reach_step adj) {[a]}) ≤
              size ({[a]} ∪ list_to_set (mentioned adj) : gset Z))%nat as Hle.
      { apply subseteq_size. intros z. apply reach_iter_universe. }
      rewrite size_union_alt, size_singleton in Hle.
      assert (size (list_to_set (mentioned adj) ∖ {[a]} : gset Z) ≤ n)%nat.
      { etransitivity; [apply subseteq_size|apply size_list_to_set_le].
        set_solver. }
      lia. }
  rewrite <- Hfix.
  change (Nat.iter (S n) (reach_step adj) {[a]})
    with (reach_step adj (Nat.iter n (reach_step adj) {[a]})).
  apply elem_of_reach_step. right. by exists x.
Qed.

Lemma reach_spec adj a x : x ∈ reach adj a ↔ connected adj a x.
Proof.
  split; [apply reach_iter_sound|].
  revert x. apply rtc_ind_r.
  - unfold reach. induction (length (mentioned adj)) as [|n IH].
    + by apply elem_of_singleton.
    + apply elem_of_reach_step. by left.
  - intros y z _ Hyz IH. by eapply reach_closed.
Qed.

Lemma connected_dec adj a b : Decision (connected adj a b).
Proof.
  refine (cast_if (decide (b ∈ reach adj a))); by rewrite <- reach_spec.
Qed.

Lemma class_reps_sub adj ks r : r ∈ class_reps adj ks → r ∈ ks.
Proof.
  induction ks as [|k ks IH]; simpl; [done|].
  case_decide.
  - intros ?. apply list_elem_of_further. auto.
  - intros [->|?]%elem_of_cons; [apply list_elem_of_here|].
    apply list_elem_of_further. auto.
Qed.

Lemma later_reachable adj k ks :
  Exists (λ k', k' ∈ reach adj k) ks ↔ ∃ k', k' ∈ ks ∧ connected adj k k'.
Proof. rewrite Exists_exists. by setoid_rewrite reach_spec. Qed.

Lemma class_reps_cover adj ks k :
  k ∈ ks → ∃ r, r ∈ class_reps adj ks ∧ connected adj k r.
Proof.
  revert k. induction ks as [|k0 ks IH]; intros k; simpl;
    [by intros ?%elem_of_nil|].
  intros Hk. destruct (decide (Exists _ ks)) as [He|He].
  - apply elem_of_cons in Hk as [->|Hk]; [|auto].
    apply later_reachable in He as (k' & Hk' & Hc).
    destruct (IH k' Hk') as (r & Hr & Hc'). exists r. split; [done|].
    by eapply rtc_trans.
  - apply elem_of_cons in Hk as [->|Hk].
    + exists k0. split; [apply list_elem_of_here|apply rtc_refl].
    + destruct (IH k Hk) as (r & Hr & Hc). exists r.
      split; [by apply list_elem_of_further|done].
Qed.

Lemma class_reps_NoDup adj ks : NoDup (class_reps adj ks).
Proof.
  induction ks as [|k ks IH]; simpl; [apply NoDup_nil_2|].
  destruct (decide (Exists _ ks)) as [He|He]; [done|].
  apply NoDup_cons_2; [|done]. intros Hk%class_reps_sub.
  apply He, later_reachable. exists k. split; [done|apply rtc_refl].
Qed.

Lemma class_reps_apart adj ks r1 r2 :
  symmetric adj → r1 ∈ class_reps adj ks → r2 ∈ class_reps adj ks →
  connected adj r1 r2 → r1 = r2.
Proof.
  intros Hs. induction ks as [|k ks IH]; simpl; [by intros ?%elem_of_nil|].
  destruct (decide (Exists _ ks)) as [He|He]; [done|].
  intros [->|H1]%elem_of_cons [->|H2]%elem_of_cons Hc; auto; exfalso;
    apply He, later_reachable.
  - exists r2. split; [by apply class_reps_sub in H2|done].
  - exists r1. split; [by apply class_reps_sub in H1|by apply connected_sym].
Qed.

(** Counting through a relation from [l] to [l'] that is total on [l] and
    sends different elements to different places. *)
Lemma pigeonhole (F : Z → Z → Prop) (l l' : list Z) :
  NoDup l →
  (∀ x, x ∈ l → ∃ y, y ∈ l' ∧ F x y) →
  (∀ x1 x2 y, x1 ∈ l → x2 ∈ l → F x1 y → F x2 y → x1 = x2) →
  (length l ≤ length l')%nat.
Proof.
  revert l'. induction l as [|x l IH]; intros l' Hnd Htot Hinj; simpl; [lia|].
  apply NoDup_cons in Hnd as [Hx Hnd].
  destruct (Htot x) as (y & Hy & Fxy); [apply list_elem_of_here|].
  apply list_elem_of_split in Hy as (l1 & l2 & ->).
  assert (length l ≤ length (l1 ++ l2))%nat as Hle.
  { apply IH; [done| |].
    - intros x0 Hx0.
      destruct (Htot x0) as (y0 & Hy0 & F0); [by apply list_elem_of_further|].
      exists y0. split; [|done].
      apply elem_of_app in Hy0 as [?|[->|?]%elem_of_cons];
        [apply elem_of_app; by left| |apply elem_of_app; by right].
      exfalso. apply Hx.
      rewrite (Hinj x x0 y); [done|apply list_elem_of_here
                              |by apply list_elem_of_further|done|done].
    - intros x1 x2 y0 H1 H2. apply Hinj; by apply list_elem_of_further. }
  rewrite length_app in *. simpl. lia.
Qed.

Lemma pigeonhole_strict (F : Z → Z → Prop) (l l' : list Z) x ya yb :
  NoDup l →
  (∀ x, x ∈ l → ∃ y, y ∈ l' ∧ F x y) →
  (∀ x1 x2 y, x1 ∈ l → x2 ∈ l → F x1 y → F x2 y → x1 = x2) →
  x ∈ l → ya ∈ l' → yb ∈ l' → ya ≠ yb → F x ya → F x yb →
  (length l < length l')%nat.
Proof.
  intros Hnd Htot Hinj Hx Hya Hyb Hne Fa Fb.
  apply list_elem_of_split in Hyb as (l1 & l2 & ->).
  assert (∀ y, y ∈ l1 ++ yb :: l2 → y ≠ yb → y ∈ l1 ++ l2) as Hdrop.
  { intros y [?|[->|?]%elem_of_cons]%elem_of_app Hy; [|done|];
      apply elem_of_app; auto. }
  assert (length l ≤ length (l1 ++ l2))%nat as Hle.
  { apply (pigeonhole F); [done| |done].
    intros x0 Hx0. destruct (decide (x0 = x)) as [->|Hx0x].
    - exists ya. split; [by apply Hdrop|done].
    - destruct (Htot x0 Hx0) as (y0 & Hy0 & F0). exists y0.
      split; [|done]. apply Hdrop; [done|]. intros ->.
      apply Hx0x. by apply (Hinj x0 x yb). }
  rewrite length_app in *. simpl. lia.
Qed.

Lemma adj_keys_remove_node u adj k :
  k ∈ adj_keys (remove_node u adj) ↔ k ∈ adj_keys adj ∧ k ≠ u.
Proof.
  unfold adj_keys, remove_node. rewrite <- list_fmap_compose.
  rewrite !list_elem_of_fmap. split.
  - intros (p & -> & [Hp Hin]%list_elem_of_filter). simpl. split; [|done].
    by exists p.
  - intros [(p & -> & Hin) Hne]. exists p. split; [done|].
    by apply list_elem_of_filter.
Qed.

Lemma connected_remove_node u adj a b :
  connected (remove_node u adj) a b → connected adj a b.
Proof.
  intros H. induction H as [|x y z Hxy _ IH]; [apply rtc_refl|].
  apply edge_remove_node in Hxy as [Hxy _]. by eapply rtc_l.
Qed.

(** When [u] does not separate its neighbours, a walk through [u] can be
    replaced by one that avoids it. *)
Lemma connected_avoid adj u x y :
  symmetric adj → loop_free adj → ¬ separates adj u →
  x ≠ u → y ≠ u → connected adj x y → connected (remove_node u adj) x y.
Proof.
  intros Hs Hl Hn Hx Hy Hc.
  assert (∀ a b, edge adj u a → edge adj u b →
                 connected (remove_node u adj) a b) as Hnb.
  { intros a b Ha Hb.
    destruct (connected_dec (remove_node u adj) a b) as [|Hab]; [done|].
    exfalso. apply Hn. by exists a, b. }
  cut (if decide (y = u)
       then ∃ a, edge adj a u ∧ connected (remove_node u adj) x a
       else connected (remove_node u adj) x y).
  { by rewrite decide_False. }
  clear Hy. revert y Hc. apply rtc_ind_r.
  - rewrite decide_False by done. apply rtc_refl.
  - intros y z _ Hyz IH. destruct (decide (y = u)) as [->|Hyu].
    + destruct IH as (a & Hau & Hxa).
      assert (z ≠ u). { intros ->. by apply (proj1 (loop_free_edge adj) Hl u). }
      rewrite decide_False by done.
      eapply rtc_trans; [exact Hxa|]. apply Hnb; [|done].
      by apply (proj1 (symmetric_edge adj) Hs).
    + destruct (decide (z = u)) as [->|Hzu].
      * by exists y.
      * eapply rtc_r; [exact IH|]. by apply edge_remove_node.
Qed.

Lemma separates_Exists adj u :
  separates adj u ↔
  Exists (λ a, Exists (λ b, ¬ connected (remove_node u adj) a b)
                      (adj_get adj u)) (adj_get adj u).
Proof.
  unfold separates, edge. rewrite Exists_exists. split.
  - intros (a & b & Ha & Hb & Hab). exists a. split; [done|].
    apply Exists_exists. by exists b.
  - intros (a & Ha & (b & Hb & Hab)%Exists_exists). by exists a, b.
Qed.

Lemma separates_dec adj u : Decision (separates adj u).
Proof.
  assert (∀ a b, Decision (¬ connected (remove_node u adj) a b)) as Hdec.
  { intros a b. destruct (connected_dec (remove_node u adj) a b); [right|left]; auto. }
  refine (cast_if (decide (Exists (λ a, Exists (λ b,
            ¬ connected (remove_node u adj) a b) (adj_get adj u))
            (adj_get adj u)))); by rewrite separates_Exists.
Qed.

(** Removing [u] raises the number of components exactly when [u] separates
    two of its neighbours. *)
Lemma separates_component_count adj u :
  symmetric adj → loop_free adj →
  separates adj u ↔
  (component_count adj < component_count (remove_node u adj))%nat.
Proof.
  intros Hs Hl.
  pose proof (symmetric_remove_node u adj Hs) as Hs'.
  pose proof (proj1 (symmetric_edge adj) Hs) as Hsym.
  unfold component_count. split.
  - intros (a & b & Ha & Hb & Hab).
    assert (∀ c, edge adj u c → c ∈ adj_keys (remove_node u adj)) as Hkey.
    { intros c Hc. apply adj_keys_remove_node. split.
      - eapply edge_key, Hsym, Hc.
      - intros ->. by apply (proj1 (loop_free_edge adj) Hl u). }
    destruct (class_reps_cover adj (adj_keys adj) u) as (r & Hr & Hur);
      [by eapply edge_key|].
    destruct (class_reps_cover (remove_node u adj) _ a (Hkey a Ha))
      as (ra & Hra & Hara).
    destruct (class_reps_cover (remove_node u adj) _ b (Hkey b Hb))
      as (rb & Hrb & Hbrb).
    apply (pigeonhole_strict (connected adj) _ _ r ra rb);
      [apply class_reps_NoDup| | |done|done|done| | |].
    + intros x Hx. destruct (decide (x = u)) as [->|Hxu].
      * exists ra. split; [done|]. eapply rtc_l; [exact Ha|].
        by apply connected_remove_node in Hara.
      * destruct (class_reps_cover (remove_node u adj)
                    (adj_keys (remove_node u adj)) x) as (r' & Hr' & Hc).
        { apply adj_keys_remove_node. split; [|done].
          by apply class_reps_sub in Hx. }
        exists r'. split; [done|]. by apply connected_remove_node in Hc.
    + intros x1 x2 y H1 H2 F1 F2. apply (class_reps_apart adj _ _ _ Hs H1 H2).
      eapply rtc_trans; [exact F1|]. by apply connected_sym.
    + intros <-. apply Hab. eapply rtc_trans; [exact Hara|].
      by apply connected_sym.
    + eapply rtc_trans; [apply connected_sym, Hur; done|].
      eapply rtc_l; [exact Ha|]. by apply connected_remove_node in Hara.
    + eapply rtc_trans; [apply connected_sym, Hur; done|].
      eapply rtc_l; [exact Hb|]. by apply connected_remove_node in Hbrb.
  - intros Hlt. destruct (separates_dec adj u) as [|Hn]; [done|].
    exfalso.
    assert (length (class_reps (remove_node u adj) (adj_keys (remove_node u adj)))
            ≤ length (class_reps adj (adj_keys adj)))%nat; [|lia].
    apply (pigeonhole (connected adj)); [apply class_reps_NoDup| |].
    + intros y Hy. apply class_reps_sub, adj_keys_remove_node in Hy as [Hy _].
      by apply class_reps_cover.
    + intros y1 y2 r H1 H2 F1 F2.
      apply (class_reps_apart (remove_node u adj) _ _ _ Hs' H1 H2).
      apply connected_avoid; [done|done|done| | |].
      * by apply class_reps_sub, adj_keys_remove_node in H1 as [_ ?].
      * by apply class_reps_sub, adj_keys_remove_node in H2 as [_ ?].
      * eapply rtc_trans; [exact F1|]. by apply connected_sym.
Qed.

(** ** Updates of the traversal state *)

Section state_updates.
Context (adj : adjacency).

Lemma good_enter u st : good adj st → u ∉ visited st → u ∈ mentioned adj →
  good adj (enter u st).
Proof.
  intros [Hd Hl Ha Hu] Hfresh Hin. split; simpl.
  - intros x [->%elem_of_singleton|Hx]%elem_of_union.
    + exists (time st). rewrite lookup_insert_eq. split; [done|lia].
    + destruct (Hd x Hx) as (d & Hdx & Hlt). exists d.
      rewrite lookup_insert_ne; [|set_solver]. split; [done|lia].
  - intros x [->%elem_of_singleton|Hx]%elem_of_union.
    + rewrite lookup_insert_eq. by eexists.
    + rewrite lookup_insert_ne; [|set_solver]. auto.
  - intros x Hx. apply elem_of_union. right. auto.
  - intros x [->%elem_of_singleton|Hx]%elem_of_union; auto.
Qed.

Lemma good_set_low u l st : good adj st → good adj (set_low u l st).
Proof.
  intros [Hd Hl Ha Hu]. split; simpl; try done.
  intros x Hx. destruct (decide (x = u)) as [->|Hne].
  - rewrite lookup_insert_eq. by eexists.
  - rewrite lookup_insert_ne; [|done]. auto.
Qed.

Lemma good_set_parent v u st : good adj st → good adj (set_parent v u st).
Proof. intros [Hd Hl Ha Hu]. by split. Qed.

Lemma after_child_eq u v c st l lv du :
  u ≠ v → low st !! u = Some l → low st !! v = Some lv →
  disc st !! u = Some du →
  after_child u v c st =
  Ok (if decide ((parent st !! u = None ∧ c > 1) ∨
                 (is_Some (parent st !! u) ∧ lv >= du))
      then add_articulation u (set_low u (Z.min l lv) st)
      else set_low u (Z.min l lv) st).
Proof.
  intros Hne Hl Hlv Hdu. unfold after_child.
  rewrite (getitem_Some _ _ _ Hl), (getitem_Some _ _ _ Hlv). simpl.
  destruct (parent st !! u) as [p|] eqn:Hp.
  - rewrite decide_False by (intros [? _]; done). simpl. rewrite Hp.
    rewrite (getitem_Some _ v lv) by (by rewrite lookup_insert_ne).
    rewrite (getitem_Some _ _ _ Hdu). simpl.
    destruct (decide (lv >= du)) as [Hge|Hlt].
    + rewrite decide_True; [done|]. right. split; [by eexists|done].
    + rewrite decide_False; [done|]. intros [[? _]|[_ ?]]; done.
  - destruct (decide (None = None ∧ c > 1)) as [Hc|Hc]; simpl; rewrite Hp.
    + rewrite decide_True; [done|]. by left.
    + rewrite decide_False; [done|]. intros [?|[[? ?] _]]; done.
Qed.
End state_updates.

(** ** The traversal on a symmetric map without self-loops *)

Section dfs_correct.
Context (adj : adjacency).
Hypothesis Hsym : ∀ a b, edge adj a b → edge adj b a.
Hypothesis Hloop : ∀ a, ¬ edge adj a a.

Lemma conn_edge z a b :
  edge adj a b → a ≠ z → b ≠ z → connected (remove_node z adj) a b.
Proof. intros. apply rtc_once, edge_remove_node. done. Qed.

Lemma conn_sym z a b :
  connected (remove_node z adj) a b → connected (remove_node z adj) b a.
Proof.
  apply connected_sym, symmetric_remove_node, symmetric_edge, Hsym.
Qed.

Lemma conn_trans z a b c :
  connected (remove_node z adj) a b → connected (remove_node z adj) b c →
  connected (remove_node z adj) a c.
Proof. apply rtc_trans. Qed.

Lemma conn_pocket z (C : gset Z) a b :
  (∀ x y, x ∈ C → edge adj x y → y ≠ z → y ∈ C) →
  connected (remove_node z adj) a b → a ∈ C → b ∈ C.
Proof.
  intros HC. apply connected_closed. intros x y Hx (Hxy & _ & Hy)%edge_remove_node.
  eauto.
Qed.

Lemma inloop_enter S u st0 : pre adj S u st0 → inloop adj S u st0 [] 0 (enter u st0).
Proof.
  intros [Hg Hfresh Hin Hst Hpar Hedge Hconn Hcl].
  split; simpl.
  - by apply good_enter.
  - set_solver.
  - set_solver.
  - intros x y [->%elem_of_singleton|Hx]%elem_of_union Hn Hxy.
    + exfalso. apply Hn. apply list_elem_of_here.
    + apply elem_of_union. right. eapply Hcl; [done| |done].
      intros HS. apply Hn. by apply list_elem_of_further.
  - intros y Hy. by apply elem_of_nil in Hy.
  - intros z x _ [->%elem_of_singleton|Hx]%elem_of_union Hnx; [|done].
    apply rtc_refl.
  - intros x [->%elem_of_singleton|Hx]%elem_of_union Hnx; [|done].
    exists (time st0). rewrite lookup_insert_eq. split; [done|lia].
  - apply lookup_insert_eq.
  - intros x Hx. apply lookup_insert_ne. set_solver.
  - intros x [Hx|Hx]; apply lookup_insert_ne; set_solver.
  - done.
  - intros x Hx. by left.
  - done.
  - lia.
  - exists (time st0). rewrite lookup_insert_eq. split; [done|].
    split; [lia|]. split; [by left|].
    intros x w [->%elem_of_singleton|Hx]%elem_of_union Hnx HwS Hxw Hte Hseen; [|done].
    specialize (Hseen eq_refl). by apply elem_of_nil in Hseen.
  - intros x [->%elem_of_singleton|Hx]%elem_of_union Hnx Hne; done.
  - intros Hu. exfalso. apply Hfresh. by apply (good_art Hg).
  - intros _. destruct S as [|p S'].
    + exists u. intros a Ha [[[->%elem_of_singleton|Hx]%elem_of_union Hnx]|HaS]; try done.
      by apply elem_of_nil in HaS.
    + exists p. intros a Ha [[[->%elem_of_singleton|Hx]%elem_of_union Hnx]|HaS]; try done.
      apply Hconn; [|apply list_elem_of_here|done].
      intros HuS. apply Hfresh. auto.
  - done.
  - intros _ x [->%elem_of_singleton|Hx]%elem_of_union Hnx; done.
  - lia.
Qed.

(** A node visited before the call and adjacent to a node visited during
    the call is on the stack. *)
Lemma old_neighbour S u st0 x y :
  pre adj S u st0 → x ∉ visited st0 → edge adj x y → y ∈ visited st0 → y ∈ S.
Proof.
  intros Hpre Hx Hxy Hy. destruct (decide (y ∈ S)) as [|Hn]; [done|].
  exfalso. apply Hx. eapply (pre_closed Hpre); [exact Hy|done|].
  by apply Hsym.
Qed.

Lemma inloop_closed S u st0 c st :
  inloop adj S u st0 (adj_get adj u) c st → closed adj S st.
Proof.
  intros Hil x y Hx HxS Hxy. destruct (decide (x = u)) as [->|Hne].
  - by apply (il_seen Hil).
  - apply (il_closed Hil x y); [done| |done].
    intros [->|?]%elem_of_cons; done.
Qed.

Lemma inloop_art S u st0 c st x :
  pre adj S u st0 → inloop adj S u st0 (adj_get adj u) c st →
  x ∈ visited st → x ∉ visited st0 →
  x ∈ articulation st ↔ separates adj x.
Proof.
  intros Hpre Hil Hx Hnx. destruct (decide (x = u)) as [->|Hne].
  2: by apply (il_art_sub Hil).
  split; [apply (il_art_sound Hil)|].
  intros (a & b & Ha & Hb & Hab).
  destruct (decide (u ∈ articulation st)) as [|Hn]; [done|]. exfalso.
  destruct (il_art_hub Hil Hn) as [r Hr].
  assert (∀ a, edge adj u a → connected (remove_node u adj) r a) as Hall.
  { intros a' Ha'. apply Hr.
    - intros ->. by apply (Hloop u).
    - destruct (decide (a' ∈ visited st0)) as [Hold|Hnew].
      + right. by eapply old_neighbour.
      + left. split; [|done]. by apply (il_seen Hil). }
  apply Hab. eapply conn_trans; [apply conn_sym|]; eauto.
Qed.

(** Line 92, the visited neighbour is the recorded parent: nothing changes. *)
Lemma inloop_skip S u st0 seen c st v :
  pre adj S u st0 → inloop adj S u st0 seen c st →
  v ∈ visited st → parent st !! u = Some v →
  inloop adj S u st0 (seen ++ [v]) c st.
Proof.
  intros Hpre Hil Hv Hpar. destruct Hil. split; try done.
  - intros y [Hy| ->%list_elem_of_singleton]%elem_of_app; auto.
  - destruct il_low0 as (l & Hl & Hle & Hach & Hbound).
    exists l. do 3 (split; [done|]). intros x w Hx Hnx Hw Hxw Hte Hseen.
    apply (Hbound x w); try done. intros ->.
    pose proof (Hseen eq_refl) as [Hy| ->%list_elem_of_singleton]%elem_of_app; [done|].
    exfalso. apply Hte. split; [done|].
    rewrite <- (pre_parent Hpre), <- Hpar. symmetry.
    apply il_parent_old0. auto.
Qed.

(** Lines 93-94. *)
Lemma inloop_back_edge S u st0 seen c st v :
  pre adj S u st0 → inloop adj S u st0 seen c st →
  edge adj u v → v ∈ visited st → parent st !! u ≠ Some v →
  ∃ st', back_edge u v st = Ok st' ∧ inloop adj S u st0 (seen ++ [v]) c st'.
Proof.
  intros Hpre Hil Huv Hv Hpar.
  destruct Hil.
  destruct il_low0 as (l & Hl & Hle & Hach & Hbound).
  destruct (good_disc il_good0 v Hv) as (dv & Hdv & Hdvt).
  unfold back_edge. rewrite (getitem_Some _ _ _ Hl), (getitem_Some _ _ _ Hdv).
  simpl. eexists. split; [done|].
  assert (parent st0 !! u ≠ Some v) as Hpar0.
  { rewrite <- (il_parent_old0 u); auto. }
  assert (u ∉ visited st0) as Hu0 by apply (pre_fresh Hpre).
  split; simpl; try done.
  - by apply good_set_low.
  - intros y [Hy| ->%list_elem_of_singleton]%elem_of_app; auto.
  - intros x Hx. rewrite lookup_insert_ne; [auto|].
    intros <-. destruct Hx; done.
  - exists (Z.min l dv). rewrite lookup_insert_eq. split; [done|].
    split; [lia|]. split.
    + destruct (decide (l ≤ dv)) as [Hlt|Hlt];
        [by rewrite Z.min_l by lia|rewrite Z.min_r by lia].
      destruct (decide (v ∈ visited st0)) as [Hold|Hnew].
      * right. exists u, v. split; [done|]. split; [done|].
        split; [by eapply old_neighbour|]. split; [done|].
        split.
        -- intros [_ Hh]. apply Hpar0. by rewrite (pre_parent Hpre).
        -- by rewrite <- (il_disc_old0 v Hold).
      * destruct (il_disc_new0 v Hv Hnew) as (d & Hd & Hge).
        rewrite Hdv in Hd. injection Hd as <-. left. lia.
    + intros x w Hx Hnx Hw Hxw Hte Hseen.
      destruct (decide (x = u ∧ w = v)) as [[-> ->]|Hne].
      * exists dv. split; [|lia].
        rewrite <- il_disc_old0; [done|]. by apply (pre_stack Hpre).
      * destruct (Hbound x w) as (d & Hd & Hld); try done.
        { intros ->. pose proof (Hseen eq_refl) as [?| ->%list_elem_of_singleton]%elem_of_app;
            [done|]. exfalso. by apply Hne. }
        exists d. split; [done|lia].
Qed.

(** Lines 81-84: the state in which the recursive call is made. *)
Lemma pre_child S u st0 seen c st v :
  pre adj S u st0 → inloop adj S u st0 seen c st →
  edge adj u v → v ∉ visited st →
  pre adj (u :: S) v (set_parent v u st).
Proof.
  intros Hpre Hil Huv Hv.
  assert (u ∉ S) as HuS.
  { intros HuS. apply (pre_fresh Hpre). by apply (pre_stack Hpre). }
  split; simpl.
  - apply good_set_parent, (il_good Hil).
  - done.
  - by eapply edge_mentioned_r.
  - intros w [->|Hw]%elem_of_cons; [apply (il_u Hil)|].
    apply (il_mono Hil), (pre_stack Hpre), Hw.
  - apply lookup_insert_eq.
  - by intros p [= <-].
  - intros z a b Hz Ha Hb.
    apply not_elem_of_cons in Hz as [Hzu HzS].
    destruct S as [|p S'].
    + apply elem_of_cons in Ha as [->|Ha]; [|by apply elem_of_nil in Ha].
      apply elem_of_cons in Hb as [->|Hb]; [|by apply elem_of_nil in Hb].
      apply rtc_refl.
    + assert (∀ a, a ∈ u :: p :: S' → connected (remove_node z adj) a p) as Hp.
      { intros a' [->|Ha']%elem_of_cons.
        - apply conn_edge; [|done|].
          + apply Hsym, (pre_edge Hpre). done.
          + intros ->. apply HzS, list_elem_of_here.
        - apply (pre_conn Hpre); [done|done|apply list_elem_of_here]. }
      eapply conn_trans; [apply Hp, Ha|apply conn_sym, Hp, Hb].
  - apply (il_closed Hil).
Qed.

(** Neighbours of the nodes visited by a finished call were visited by it
    or are on the stack. *)
Lemma post_neighbours S u st0 c st x y :
  pre adj S u st0 → inloop adj S u st0 (adj_get adj u) c st →
  x ∈ visited st → x ∉ visited st0 → edge adj x y →
  (y ∈ visited st ∧ y ∉ visited st0) ∨ y ∈ S.
Proof.
  intros Hpre Hil Hx Hnx Hxy.
  destruct (decide (y ∈ visited st0)) as [Hold|Hnew].
  - right. by eapply old_neighbour.
  - left. split; [|done]. apply (inloop_closed _ _ _ _ _ Hil x y); [done| |done].
    intros HxS. apply Hnx. by apply (pre_stack Hpre).
Qed.

(** Lines 85-91. *)
Lemma inloop_child S u st0 seen c st v st2 :
  pre adj S u st0 → inloop adj S u st0 seen c st →
  edge adj u v → v ∉ visited st →
  post adj (u :: S) v (set_parent v u st) st2 →
  ∃ st3, after_child u v (c + 1) st2 = Ok st3 ∧
         inloop adj S u st0 (seen ++ [v]) (c + 1) st3.
Proof.
  intros Hpre Hil Huv Hv [cv Hvl].
  pose proof (pre_child _ _ _ _ _ _ _ Hpre Hil Huv Hv) as Hprev.
  assert (Hu : u ∈ visited st) by apply (il_u Hil).
  assert (Hu0 : u ∉ visited st0) by apply (pre_fresh Hpre).
  assert (Hne : u ≠ v) by (intros ->; done).
  assert (HuS : u ∉ S).
  { intros HuS. apply Hu0. by apply (pre_stack Hpre). }
  assert (HS : ∀ w, w ∈ S → w ∈ visited st0) by apply (pre_stack Hpre).
  assert (Hmono2 : ∀ x, x ∈ visited st → x ∈ visited st2) by apply (il_mono Hvl).
  assert (Hv2 : v ∈ visited st2) by apply (il_u Hvl).
  assert (Ht1 : time st0 < time st) by apply (il_time Hil).
  assert (Ht2 : time st < time st2) by apply (il_time Hvl).
  destruct (il_low Hil) as (l & Hl & Hle & Hach & Hbound).
  destruct (il_low Hvl) as (lv & Hlv & Hlev & Hachv & Hboundv).
  simpl in Hlev.
  assert (Hl2 : low st2 !! u = Some l).
  { rewrite (il_low_old Hvl u); [done|by left]. }
  assert (Hd2 : disc st2 !! u = Some (time st0)).
  { rewrite (il_disc_old Hvl u Hu). apply (il_disc_u Hil). }
  assert (Hp2 : parent st2 !! u = head S).
  { rewrite (il_parent_old Hvl u) by (by left). simpl.
    rewrite lookup_insert_ne by done.
    rewrite (il_parent_old Hil u) by auto. apply (pre_parent Hpre). }
  assert (HdS : ∀ w, w ∈ S → ∃ d, disc st !! w = Some d ∧ d < time st0).
  { intros w Hw. rewrite (il_disc_old Hil w (HS w Hw)).
    apply (good_disc (pre_good Hpre)), HS, Hw. }
  (* the nodes visited by the call on [v] *)
  assert (Hnb : ∀ x y, x ∈ visited st2 → x ∉ visited st → edge adj x y →
                (y ∈ visited st2 ∧ y ∉ visited st) ∨ y = u ∨ y ∈ S).
  { intros x y Hx Hnx Hxy.
    destruct (post_neighbours _ _ _ _ _ x y Hprev Hvl Hx Hnx Hxy)
      as [?|[->|?]%elem_of_cons]; auto. }
  assert (Hhigh : lv >= time st0 → ∀ x w, x ∈ visited st2 → x ∉ visited st →
                  w ∈ S → ¬ edge adj x w).
  { intros Hge x w Hx Hnx Hw Hxw.
    destruct (Hboundv x w) as (d & Hd & Hld);
      [done|done|by apply list_elem_of_further|done
      |intros [_ [= ->]]; done|by intros ->|].
    destruct (HdS w Hw) as (d' & Hd' & Hlt). simpl in Hd.
    rewrite Hd' in Hd. injection Hd as <-. lia. }
  assert (Hlow : lv < time st0 → ∃ x w, x ∈ visited st2 ∧ (x ∉ visited st) ∧
                 w ∈ S ∧ edge adj x w ∧ disc st0 !! w = Some lv).
  { intros Hlt. destruct Hachv as [->|(x & w & Hx & Hnx & Hw & Hxw & _ & Hd)].
    - simpl in Hlt. lia.
    - simpl in Hd. apply elem_of_cons in Hw as [->|Hw].
      + rewrite (il_disc_u Hil) in Hd. injection Hd as <-. lia.
      + exists x, w. repeat (split; [done|]).
        by rewrite <- (il_disc_old Hil w (HS w Hw)). }
  assert (Hconnv : ∀ z x, z ∈ visited st ∨ z ∉ visited st2 →
                   x ∈ visited st2 → x ∉ visited st →
                   connected (remove_node z adj) v x) by apply (il_conn Hvl).
  (* the state after lines 85-91 *)
  rewrite (after_child_eq u v (c + 1) st2 l lv (time st0) Hne Hl2 Hlv Hd2).
  rewrite Hp2. eexists; split; [done|].
  set (added := (head S = None ∧ c + 1 > 1) ∨
                (is_Some (head S) ∧ lv >= time st0)).
  set (st3 := if decide added then _ else _).
  assert (Hvis3 : visited st3 = visited st2) by (unfold st3; by case_decide).
  assert (Hdisc3 : disc st3 = disc st2) by (unfold st3; by case_decide).
  assert (Hpar3 : parent st3 = parent st2) by (unfold st3; by case_decide).
  assert (Htime3 : time st3 = time st2) by (unfold st3; by case_decide).
  assert (Hlow3 : low st3 = <[u := Z.min l lv]> (low st2))
    by (unfold st3; by case_decide).
  assert (Hart3 : ∀ x, x ∈ articulation st3 ↔
                       (x = u ∧ added) ∨ x ∈ articulation st2).
  { intros x. unfold st3. case_decide; simpl; set_solver. }
  assert (Hart2 : ∀ x, x ∈ visited st ∨ x ∉ visited st2 →
                  (x ∈ articulation st2 ↔ x ∈ articulation st))
    by apply (il_art_old Hvl).
  clearbody st3. clear Hl2.
  split; rewrite ?Hvis3, ?Hdisc3, ?Hpar3, ?Htime3, ?Hlow3.
  - (* good *)
    destruct (il_good Hvl) as [Hd Hlw Ha Hun]. split;
      rewrite ?Hvis3, ?Hdisc3, ?Hpar3, ?Htime3, ?Hlow3; try done.
    + intros x Hx. destruct (decide (x = u)) as [->|Hxu].
      * rewrite lookup_insert_eq. by eexists.
      * rewrite lookup_insert_ne by done. auto.
    + intros x [[-> _]|Hx]%Hart3; auto.
  - intros x Hx. apply Hmono2, (il_mono Hil), Hx.
  - auto.
  - unfold closed. rewrite Hvis3. apply (inloop_closed _ _ _ _ _ Hvl).
  - intros y [Hy| ->%list_elem_of_singleton]%elem_of_app; [|done].
    apply Hmono2, (il_seen Hil), Hy.
  - (* connected to [u] *)
    intros z x Hz Hx Hnx. destruct (decide (x ∈ visited st)) as [Hxs|Hxs].
    + apply (il_conn Hil); [|done|done]. destruct Hz; auto.
    + assert (z ≠ u) as Hzu. { intros ->. destruct Hz; auto. }
      assert (z ≠ v) as Hzv.
      { intros ->. destruct Hz as [Hz|Hz]; [|done]. apply Hv. by apply (il_mono Hil). }
      eapply conn_trans; [by apply conn_edge|].
      apply Hconnv; [|done|done]. destruct Hz as [Hz|Hz]; [|auto].
      left. by apply (il_mono Hil).
  - intros x Hx Hnx. destruct (decide (x ∈ visited st)) as [Hxs|Hxs].
    + rewrite (il_disc_old Hvl x Hxs). apply (il_disc_new Hil); done.
    + destruct (il_disc_new Hvl x Hx Hxs) as (d & Hd & Hge). exists d.
      split; [done|]. simpl in Hge. lia.
  - done.
  - intros x Hx. rewrite (il_disc_old Hvl x); [|by apply (il_mono Hil)].
    by apply (il_disc_old Hil).
  - intros x Hx.
    assert (x ≠ u) as Hxu. { intros ->. destruct Hx; auto. }
    rewrite lookup_insert_ne by done.
    rewrite (il_low_old Hvl x).
    + apply (il_low_old Hil). destruct Hx; auto.
    + destruct Hx as [Hx|Hx]; [|auto]. left. by apply (il_mono Hil).
  - intros x Hx.
    assert (x ≠ v) as Hxv.
    { intros ->. destruct Hx as [Hx|[Hx|Hx]]; try done.
      apply Hv. by apply (il_mono Hil). }
    rewrite (il_parent_old Hvl x).
    + simpl. rewrite lookup_insert_ne by done. apply (il_parent_old Hil).
      destruct Hx as [Hx|[Hx|Hx]]; auto.
      right. left. auto.
    + destruct Hx as [Hx|[Hx|Hx]].
      * left. by apply (il_mono Hil).
      * by (right; left).
      * left. by subst x.
  - intros x Hx. destruct (il_parent_dom Hvl x Hx) as [Hx1|Hx1]; [|by right].
    simpl in Hx1. destruct (decide (x = v)) as [->|Hxv]; [by right|].
    rewrite lookup_insert_ne in Hx1 by done.
    destruct (il_parent_dom Hil x Hx1); auto.
  - intros x Hx.
    assert (x ≠ u) as Hxu. { intros ->. destruct Hx; auto. }
    rewrite Hart3, Hart2.
    + rewrite <- (il_art_old Hil x); [|destruct Hx; auto]. naive_solver.
    + destruct Hx as [Hx|Hx]; [|auto]. left. by apply (il_mono Hil).
  - lia.
  - (* low[u] *)
    exists (Z.min l lv). rewrite lookup_insert_eq. split; [done|].
    split; [lia|]. split.
    + destruct (decide (l ≤ lv)) as [Hlt|Hlt];
        [rewrite Z.min_l by lia|rewrite Z.min_r by lia].
      * destruct Hach as [?|(x & w & Hx & Hnx & Hw & Hxw & Hte & Hd)]; [by left|].
        right. exists x, w. repeat (split; [auto|]). done.
      * destruct Hlow as (x & w & Hx & Hnx & Hw & Hxw & Hd); [lia|].
        right. exists x, w. split; [done|].
        split; [intros ?; apply Hnx; by apply (il_mono Hil)|].
        repeat (split; [done|]). split; [|done].
        intros [-> _]. done.
    + intros x w Hx Hnx Hw Hxw Hte Hseen.
      destruct (decide (x ∈ visited st)) as [Hxs|Hxs].
      * destruct (Hbound x w) as (d & Hd & Hld); try done.
        { intros ->. pose proof (Hseen eq_refl)
            as [?| ->%list_elem_of_singleton]%elem_of_app; [done|].
          exfalso. apply Hv. apply (il_mono Hil), HS, Hw. }
        exists d. split; [done|lia].
      * destruct (Hboundv x w) as (d & Hd & Hld);
          [done|done|by apply list_elem_of_further|done
          |intros [_ [= ->]]; done|by intros ->|].
        simpl in Hd. rewrite (il_disc_old Hil w (HS w Hw)) in Hd.
        exists d. split; [done|lia].
  - (* articulation points among the other nodes *)
    intros x Hx Hnx Hxu. rewrite Hart3.
    destruct (decide (x ∈ visited st)) as [Hxs|Hxs].
    + rewrite Hart2 by auto. rewrite <- (il_art_sub Hil x Hxs Hnx Hxu).
      naive_solver.
    + rewrite <- (inloop_art _ _ _ _ _ x Hprev Hvl Hx Hxs). naive_solver.
  - (* soundness for [u] *)
    intros [[_ Hadd]|Hold]%Hart3.
    2: { apply (il_art_sound Hil). apply Hart2; auto. }
    destruct Hadd as [[Hroot Hc]|[[p Hp] Hge]].
    + destruct (il_pocket Hil Hroot) as (C & HCv & HuC & (a & Ha & Hua) & HC);
        [lia|].
      exists a, v. repeat (split; [done|]). intros Hav.
      apply Hv, HCv. eapply conn_pocket; [exact HC|exact Hav|done].
    + assert (p ∈ S) as HpS.
      { destruct S as [|p' S']; [done|]. injection Hp as ->.
        apply list_elem_of_here. }
      exists v, p. split; [done|]. split; [apply Hsym, (pre_edge Hpre), Hp|].
      intros Hvp.
      set (C := visited st2 ∖ visited st).
      assert (p ∈ C) as HpC.
      { eapply (conn_pocket u C v p); [|exact Hvp|set_solver].
        intros x y [Hx Hnx]%elem_of_difference Hxy Hyu.
        destruct (Hnb x y Hx Hnx Hxy) as [[? ?]|[->|HyS]]; [set_solver|done|].
        exfalso. by apply (Hhigh Hge x y). }
      apply elem_of_difference in HpC as [_ HpC]. apply HpC.
      apply (il_mono Hil), HS, HpS.
  - (* a hub for the neighbours of [u] *)
    intros Hnot.
    assert (¬ added) as Hnadd. { intros Hadd. apply Hnot, Hart3. by left. }
    assert (u ∉ articulation st) as Hnot1.
    { intros Hin. apply Hnot, Hart3. right. apply Hart2; auto. }
    destruct (il_art_hub Hil Hnot1) as [r Hr].
    assert (∀ x, x ∈ visited st2 → x ∉ visited st →
                 connected (remove_node u adj) v x) as Hvx.
    { intros x Hx Hnx. apply Hconnv; auto. }
    destruct (head S) as [p|] eqn:HhS.
    + assert (lv < time st0) as Hlt.
      { destruct (decide (lv < time st0)); [done|]. exfalso. apply Hnadd.
        right. split; [by eexists|lia]. }
      destruct (Hlow Hlt) as (x & w & Hx & Hnx & Hw & Hxw & _).
      assert (connected (remove_node u adj) r v) as Hrv.
      { eapply conn_trans; [apply (Hr w)|].
        - intros ->. done.
        - by right.
        - apply conn_sym. eapply conn_trans; [by apply Hvx|].
          apply conn_edge; [done| |].
          + intros ->. done.
          + intros ->. done. }
      exists r. intros a Hau [[Ha Hna]|HaS].
      * destruct (decide (a ∈ visited st)) as [Has|Has].
        -- apply Hr; auto.
        -- eapply conn_trans; [exact Hrv|]. by apply Hvx.
      * apply Hr; auto.
    + assert (c = 0) as Hc0.
      { pose proof (il_children Hil).
        destruct (decide (c = 0)); [done|]. exfalso. apply Hnadd.
        left. split; [done|lia]. }
      exists v. intros a Hau [[Ha Hna]|HaS].
      * destruct (decide (a ∈ visited st)) as [Has|Has].
        -- exfalso. apply Hau. by apply (il_children0 Hil Hc0).
        -- by apply Hvx.
      * destruct S; [by apply elem_of_nil in HaS|done].
  - pose proof (il_children Hil). lia.
  - pose proof (il_children Hil). lia.
  - (* a closed pocket below the root *)
    intros Hroot _. destruct (decide (1 ≤ c)) as [Hc|Hc].
    + destruct (il_pocket Hil Hroot Hc) as (C & HCv & HuC & Ha & HC).
      exists C. split; [auto|]. done.
    + exists (visited st2 ∖ visited st). split; [set_solver|].
      split; [set_solver|]. split; [exists v; set_solver|].
      intros x y [Hx Hnx]%elem_of_difference Hxy Hyu.
      destruct (Hnb x y Hx Hnx Hxy) as [[? ?]|[->|HyS]]; [set_solver|done|].
      destruct S; [by apply elem_of_nil in HyS|done].
Qed.

(** One turn of the loop of line 80. *)
Lemma visit_neighbor_spec call S u st0 seen c st v :
  pre adj S u st0 →
  (∀ w st1, pre adj (u :: S) w st1 →
            (∀ x, x ∈ visited st0 → x ∈ visited st1) →
            ∃ st2, call w st1 = Ok st2 ∧ post adj (u :: S) w st1 st2) →
  inloop adj S u st0 seen c st → edge adj u v →
  ∃ c' st', visit_neighbor call u v c st = Ok (c', st') ∧
            inloop adj S u st0 (seen ++ [v]) c' st'.
Proof.
  intros Hpre Hcall Hil Huv. unfold visit_neighbor.
  destruct (decide (v ∈ visited st)) as [Hv|Hv].
  - destruct (decide (parent st !! u ≠ Some v)) as [Hp|Hp].
    + destruct (inloop_back_edge _ _ _ _ _ _ _ Hpre Hil Huv Hv Hp)
        as (st' & -> & Hil').
      by exists c, st'.
    + apply dec_stable in Hp. exists c, st. split; [done|].
      by apply inloop_skip.
  - pose proof (pre_child _ _ _ _ _ _ _ Hpre Hil Huv Hv) as Hprev.
    destruct (Hcall v _ Hprev) as (st2 & -> & Hpost).
    { intros x Hx. simpl. by apply (il_mono Hil). }
    destruct (inloop_child _ _ _ _ _ _ _ _ Hpre Hil Huv Hv Hpost)
      as (st3 & Hst3 & Hil3).
    exists (c + 1), st3. simpl. rewrite Hst3. done.
Qed.

Lemma dfs_loop_spec call S u st0 :
  pre adj S u st0 →
  (∀ w st1, pre adj (u :: S) w st1 →
            (∀ x, x ∈ visited st0 → x ∈ visited st1) →
            ∃ st2, call w st1 = Ok st2 ∧ post adj (u :: S) w st1 st2) →
  ∀ vs seen c st,
    inloop adj S u st0 seen c st → (∀ v, v ∈ vs → edge adj u v) →
    ∃ c' st', dfs_loop call u vs c st = Ok st' ∧
              inloop adj S u st0 (seen ++ vs) c' st'.
Proof.
  intros Hpre Hcall vs. induction vs as [|v vs IH]; intros seen c st Hil Hvs.
  - exists c, st. by rewrite app_nil_r.
  - destruct (visit_neighbor_spec call S u st0 seen c st v Hpre Hcall Hil)
      as (c1 & st1 & Hstep & Hil1).
    { apply Hvs, list_elem_of_here. }
    destruct (IH (seen ++ [v]) c1 st1 Hil1) as (c2 & st2 & Hrest & Hil2).
    { intros w Hw. by apply Hvs, list_elem_of_further. }
    exists c2, st2. simpl. rewrite Hstep. simpl. split; [done|].
    by rewrite <- app_assoc in Hil2.
Qed.

(** A call of [dfs] returns when the recursion limit leaves room for the
    unvisited identifiers. *)
Lemma dfs_spec depth : ∀ S u st,
  pre adj S u st →
  (size (list_to_set (mentioned adj) ∖ visited st : gset Z) ≤ depth)%nat →
  ∃ st', dfs adj depth u st = Ok st' ∧ post adj S u st st'.
Proof.
  induction depth as [|depth IH]; intros S u st Hpre Hroom.
  - exfalso.
    assert (u ∈ (list_to_set (mentioned adj) ∖ visited st : gset Z)) as Hin.
    { apply elem_of_difference. split; [|apply (pre_fresh Hpre)].
      apply elem_of_list_to_set, (pre_univ Hpre). }
    assert (size (list_to_set (mentioned adj) ∖ visited st : gset Z) ≠ 0%nat).
    { apply size_non_empty_iff. intros Hempty. rewrite Hempty in Hin.
      by apply not_elem_of_empty in Hin. }
    lia.
  - simpl.
    destruct (dfs_loop_spec (dfs adj depth) S u st Hpre) with
      (vs := adj_get adj u) (seen := @nil Z) (c := 0) (st := enter u st)
      as (c' & st' & Hrun & Hil).
    + intros w st1 Hpre1 Hmono. apply IH; [done|].
      assert (list_to_set (mentioned adj) ∖ visited st1 ⊆
              (list_to_set (mentioned adj) ∖ visited st : gset Z) ∖ {[u]}) as Hsub.
      { intros x [Hx Hnx]%elem_of_difference.
        apply elem_of_difference. split.
        - apply elem_of_difference. split; [done|]. intros ?. by apply Hnx, Hmono.
        - intros ->%elem_of_singleton. apply Hnx, (pre_stack Hpre1).
          apply list_elem_of_here. }
      apply subseteq_size in Hsub.
      rewrite (size_difference (_ ∖ visited st) {[u]}) in Hsub.
      * rewrite size_singleton in Hsub. lia.
      * apply singleton_subseteq_l, elem_of_difference.
        split; [|apply (pre_fresh Hpre)].
        apply elem_of_list_to_set, (pre_univ Hpre).
    + by apply inloop_enter.
    + done.
    + exists st'. split; [done|]. by exists c'.
Qed.

Lemma settled_init : settled adj init_state.
Proof.
  split; [split|..]; simpl; try done; intros x; rewrite ?lookup_empty;
    try (by intros ?%is_Some_None); set_solver.
Qed.

Lemma settled_pre u st :
  settled adj st → u ∉ visited st → u ∈ mentioned adj → pre adj [] u st.
Proof.
  intros Hs Hu Hin. split; simpl; try done.
  - apply (st_good Hs).
  - intros w Hw. by apply elem_of_nil in Hw.
  - destruct (parent st !! u) eqn:E; [|done]. exfalso. apply Hu.
    apply (st_parent Hs). by eexists.
  - intros z a b _ Ha. by apply elem_of_nil in Ha.
  - apply (st_closed Hs).
Qed.

Lemma post_settled u st st' :
  settled adj st → pre adj [] u st → post adj [] u st st' → settled adj st'.
Proof.
  intros Hs Hpre [c Hil]. split.
  - apply (il_good Hil).
  - by eapply inloop_closed.
  - intros x Hx. destruct (il_parent_dom Hil x Hx) as [Hx0|]; [|done].
    by apply (il_mono Hil), (st_parent Hs).
  - intros x Hx. destruct (decide (x ∈ visited st)) as [Hx0|Hx0].
    + rewrite (il_art_old Hil x) by auto. by apply (st_art Hs).
    + by eapply inloop_art.
Qed.

Lemma dfs_roots_spec depth : ∀ us st,
  settled adj st → (∀ u, u ∈ us → u ∈ mentioned adj) →
  (size (list_to_set (mentioned adj) : gset Z) ≤ depth)%nat →
  ∃ st', dfs_roots adj depth us st = Ok st' ∧ settled adj st' ∧
         (∀ x, x ∈ visited st → x ∈ visited st') ∧
         (∀ u, u ∈ us → u ∈ visited st').
Proof.
  intros us. induction us as [|u us IH]; intros st Hs Hus Hroom.
  - exists st. repeat (split; [done|]). intros u Hu. by apply elem_of_nil in Hu.
  - simpl. destruct (decide (u ∈ visited st)) as [Hu|Hu].
    + destruct (IH st Hs) as (st' & Hrun & Hs' & Hmono & Hvis); [|done|].
      { intros w Hw. by apply Hus, list_elem_of_further. }
      exists st'. repeat (split; [done|]).
      intros w [->|Hw]%elem_of_cons; auto.
    + assert (pre adj [] u st) as Hpre.
      { apply settled_pre; [done|done|]. apply Hus, list_elem_of_here. }
      destruct (dfs_spec depth [] u st Hpre) as (st1 & -> & Hpost).
      { etransitivity; [|exact Hroom]. apply subseteq_size. set_solver. }
      simpl.
      destruct (IH st1) as (st' & Hrun & Hs' & Hmono & Hvis); [| |done|].
      { by eapply post_settled. }
      { intros w Hw. by apply Hus, list_elem_of_further. }
      destruct Hpost as [c Hil].
      exists st'. repeat (split; [done|]). split.
      * intros x Hx. by apply Hmono, (il_mono Hil).
      * intros w [->|Hw]%elem_of_cons; [|auto]. apply Hmono, (il_u Hil).
Qed.

Lemma not_key_not_separates u : u ∉ adj_keys adj → ¬ separates adj u.
Proof. intros Hu (a & _ & Ha & _). apply Hu. by eapply edge_key. Qed.

(** The finder returns, and what it returns are the separating nodes. *)
Lemma find_articulation_points_within_spec depth :
  (length (mentioned adj) ≤ depth)%nat →
  ∃ A, find_articulation_points_within depth adj = Ok A ∧
       ∀ u, u ∈ A ↔ separates adj u.
Proof.
  intros Hdepth. unfold find_articulation_points_within.
  destruct (dfs_roots_spec depth (adj_keys adj) init_state settled_init)
    as (st & -> & Hs & _ & Hvis).
  - intros u Hu. apply elem_of_app. by left.
  - pose proof (size_list_to_set_le (mentioned adj)). lia.
  - exists (articulation st). split; [done|]. intros u.
    destruct (decide (u ∈ visited st)) as [Hu|Hu].
    + by apply (st_art Hs).
    + split.
      * intros Hin. exfalso. by apply Hu, (good_art (st_good Hs)).
      * intros Hsep. exfalso. eapply not_key_not_separates; [|exact Hsep].
        intros Hk. by apply Hu, Hvis.
Qed.

End dfs_correct.

(** ** The finder *)

Lemma find_articulation_points_within_separates adj depth :
  symmetric adj → loop_free adj → (length (mentioned adj) ≤ depth)%nat →
  ∃ A, find_articulation_points_within depth adj = Ok A ∧
       ∀ u, u ∈ A ↔ separates adj u.
Proof.
  intros Hs Hl. apply find_articulation_points_within_spec.
  - by apply symmetric_edge.
  - by apply loop_free_edge.
Qed.

(** C1: on a symmetric map without self-loops the finder returns a set, and
    a node is in that set exactly when removing it (with its incident edges)
    strictly increases the number of connected components. *)
Theorem find_articulation_points_correct adj :
  symmetric adj → loop_free adj →
  ∃ A, find_articulation_points adj = Ok A ∧
       ∀ u, u ∈ A ↔
            (component_count adj < component_count (remove_node u adj))%nat.
Proof.
  intros Hs Hl.
  destruct (find_articulation_points_within_separates adj
              (length (mentioned adj)) Hs Hl) as (A & HA & Hsep); [done|].
  exists A. split; [done|]. intros u.
  rewrite Hsep. by apply separates_component_count.
Qed.

(** ** The edge list of the renderer *)

Lemma adj_lookup_elem_of adj u ns :
  NoDup (adj_keys adj) → (u, ns) ∈ adj → adj_lookup adj u = Some ns.
Proof.
  unfold adj_keys. induction adj as [|[k ms] adj IH]; simpl.
  - by intros _ ?%elem_of_nil.
  - intros [Hk Hnd]%NoDup_cons [[= -> ->]|Hin]%elem_of_cons.
    + by rewrite decide_True.
    + rewrite decide_False; [auto|]. intros ->. apply Hk.
      apply list_elem_of_fmap. by exists (u, ns).
Qed.

Lemma elem_of_edge_pairs adj p :
  p ∈ edge_pairs adj ↔ ∃ u v, edge adj u v ∧ p = edge_key_of u v.
Proof.
  unfold edge_pairs. rewrite elem_of_list_to_set, list_elem_of_bind. split.
  - intros (u & (v & -> & Hv)%list_elem_of_fmap & Hu). by exists u, v.
  - intros (u & v & Huv & ->). exists u. split; [|by eapply edge_key].
    apply list_elem_of_fmap. by exists v.
Qed.

Lemma emit_edge_spec u v acc :
  emitted acc →
  emitted (emit_edge u v acc) ∧
  (∀ p, p ∈ (emit_edge u v acc).1 ↔ p ∈ acc.1 ∨ p = edge_key_of u v) ∧
  (∀ e, e ∈ (emit_edge u v acc).2 → e ∈ acc.2 ∨ e = (u, v)).
Proof.
  intros [Hnd Hset]. unfold emit_edge. case_decide as Hin; cbn [fst snd].
  - split; [done|]. split; [|auto]. intros p. split; [auto|].
    intros [?| ->]; done.
  - split; [split|split]; cbn [fst snd].
    + rewrite fmap_app. apply NoDup_app. split; [done|].
      split; [|apply NoDup_singleton].
      intros p Hp ->%list_elem_of_singleton. by apply Hin, Hset.
    + intros p. rewrite fmap_app, elem_of_app, elem_of_union, elem_of_singleton.
      rewrite list_fmap_singleton, list_elem_of_singleton, Hset.
      unfold pair_of. cbn [fst snd]. tauto.
    + intros p. rewrite elem_of_union, elem_of_singleton. tauto.
    + intros e [?| ->%list_elem_of_singleton]%elem_of_app; auto.
Qed.

Lemma emit_edges_spec u ns : ∀ acc,
  emitted acc →
  emitted (emit_edges acc (u, ns)) ∧
  (∀ p, p ∈ (emit_edges acc (u, ns)).1 ↔
        p ∈ acc.1 ∨ ∃ v, v ∈ ns ∧ p = edge_key_of u v) ∧
  (∀ e, e ∈ (emit_edges acc (u, ns)).2 → e ∈ acc.2 ∨ (e.1 = u ∧ e.2 ∈ ns)).
Proof.
  unfold emit_edges. simpl. induction ns as [|v ns IH]; intros acc Hacc; simpl.
  - split; [done|]. split; [|auto]. intros p. split; [auto|].
    intros [?|(v & ?%elem_of_nil & _)]; done.
  - destruct (emit_edge_spec u v acc Hacc) as (H1 & Hs1 & He1).
    destruct (IH _ H1) as (H2 & Hs2 & He2). split; [done|]. split.
    + intros p. rewrite Hs2, Hs1. split.
      * intros [[?| ->]|(w & ? & ->)]; [by left|right..].
        -- exists v. split; [apply list_elem_of_here|done].
        -- exists w. split; [by apply list_elem_of_further|done].
      * intros [?|(w & [->|?]%elem_of_cons & ->)]; [by do 2 left|by left; right|].
        right. by exists w.
    + intros e [[?| ->]%He1|[? ?]]%He2; [by left|right..].
      * split; [done|apply list_elem_of_here].
      * split; [done|by apply list_elem_of_further].
Qed.

Lemma emit_all_spec adj : ∀ acc,
  emitted acc →
  emitted (foldl emit_edges acc adj) ∧
  (∀ p, p ∈ (foldl emit_edges acc adj).1 ↔
        p ∈ acc.1 ∨ ∃ u ns v, (u, ns) ∈ adj ∧ v ∈ ns ∧ p = edge_key_of u v) ∧
  (∀ e, e ∈ (foldl emit_edges acc adj).2 →
        e ∈ acc.2 ∨ ∃ ns, (e.1, ns) ∈ adj ∧ e.2 ∈ ns).
Proof.
  induction adj as [|[u ns] adj IH]; intros acc Hacc; simpl.
  - split; [done|]. split; [|auto]. intros p. split; [auto|].
    intros [?|(u & ns & v & ?%elem_of_nil & _)]; done.
  - destruct (emit_edges_spec u ns acc Hacc) as (H1 & Hs1 & He1).
    destruct (IH _ H1) as (H2 & Hs2 & He2). split; [done|]. split.
    + intros p. rewrite Hs2, Hs1. split.
      * intros [[?|(v & ? & ->)]|(u' & ns' & v & ? & ? & ->)]; [by left|right..].
        -- exists u, ns, v. split; [apply list_elem_of_here|done].
        -- exists u', ns', v. split; [by apply list_elem_of_further|done].
      * intros [?|(u' & ns' & v & [[= -> ->]|?]%elem_of_cons & ? & ->)];
          [by do 2 left|left; right; by exists v|].
        right. by exists u', ns', v.
    + intros e [[?|[<- ?]]%He1|(ns' & ? & ?)]%He2; [by left|right..].
      * exists ns. split; [apply list_elem_of_here|done].
      * exists ns'. split; [by apply list_elem_of_further|done].
Qed.

Lemma filter_once {A B} `{EqDecision B} (f : A → B) (l : list A) (p : B) :
  NoDup (f <$> l) → p ∈ f <$> l →
  length (filter (λ e, f e = p) l) = 1%nat.
Proof.
  induction l as [|e l IH]; [by intros _ ?%elem_of_nil|].
  rewrite fmap_cons. intros [He Hnd]%NoDup_cons Hp. rewrite filter_cons.
  case_decide as Hfe.
  - subst p. simpl. f_equal. apply length_zero_iff_nil.
    destruct (filter (λ e', f e' = f e) l) as [|e' l'] eqn:E; [done|].
    exfalso. assert (e' ∈ filter (λ e', f e' = f e) l) as Hin.
    { rewrite E. apply list_elem_of_here. }
    apply list_elem_of_filter in Hin as [Heq Hin].
    apply He, list_elem_of_fmap. by exists e'.
  - apply elem_of_cons in Hp as [->|Hp]; [done|]. by apply IH.
Qed.

(** C8: for an adjacency map (a dict: no key twice) the edge list of
    [build_html] has one record for each unordered pair [{u, v}] with
    [v ∈ adj[u]], whichever entry it was met in first: each such pair is the
    key of exactly one record, every record comes from an entry, and the
    number of records is the number of distinct pairs. *)
Theorem vis_edges_once nodes adj connectors :
  NoDup (adj_keys adj) →
  let edges := (build_html nodes adj connectors).2 in
  length edges = size (edge_pairs adj) ∧
  (∀ u v, v ∈ adj_get adj u →
     length (filter (λ e, pair_of e = edge_key_of u v) edges) = 1%nat) ∧
  (∀ e, e ∈ edges → e.2 ∈ adj_get adj e.1).
Proof.
  intros Hnd. simpl. unfold vis_edges.
  destruct (emit_all_spec adj (∅, [])) as ([Hnd' Hset] & Hs & He).
  { split; [apply NoDup_nil_2|]. intros p. simpl. split.
    - by intros ?%not_elem_of_empty.
    - by intros ?%elem_of_nil. }
  set (final := foldl emit_edges (∅, []) adj) in *.
  assert (∀ p, p ∈ final.1 ↔ p ∈ edge_pairs adj) as Hpairs.
  { intros p. rewrite Hs, elem_of_edge_pairs. simpl. split.
    - intros [?%not_elem_of_empty|(u & ns & v & Hin & Hv & ->)]; [done|].
      exists u, v. split; [|done]. unfold edge, adj_get.
      by rewrite (adj_lookup_elem_of adj u ns Hnd Hin).
    - intros (u & v & Huv & ->). right. unfold edge, adj_get in Huv.
      destruct (adj_lookup adj u) as [ns|] eqn:E; [|by apply elem_of_nil in Huv].
      exists u, ns, v. split; [by apply adj_lookup_Some|done]. }
  split; [|split].
  - rewrite <- (length_fmap pair_of), <- (size_list_to_set (C:=gset (gset Z))) by done.
    f_equal. apply set_eq. intros p.
    by rewrite elem_of_list_to_set, <- Hset, Hpairs.
  - intros u v Huv. apply filter_once; [done|]. apply Hset, Hpairs.
    apply elem_of_edge_pairs. by exists u, v.
  - intros e [?%elem_of_nil|(ns & Hin & Hv)]%He; [done|].
    unfold adj_get. by rewrite (adj_lookup_elem_of adj e.1 ns Hnd Hin).
Qed.

(** ** The finder returns on every map *)

Section dfs_total.
Context (adj : adjacency).

Lemma good_add_articulation u st :
  good adj st → u ∈ visited st → good adj (add_articulation u st).
Proof.
  intros [Hd Hl Ha Hu] Hin. split; simpl; try done.
  intros x [->%elem_of_singleton|Hx]%elem_of_union; auto.
Qed.

Lemma back_edge_total u v st :
  good adj st → u ∈ visited st → v ∈ visited st →
  ∃ st', back_edge u v st = Ok st' ∧ good adj st' ∧ visited st' = visited st.
Proof.
  intros Hg Hu Hv. unfold back_edge.
  destruct (good_low Hg u Hu) as [l Hl].
  destruct (good_disc Hg v Hv) as (d & Hd & _).
  rewrite (getitem_Some _ _ _ Hl), (getitem_Some _ _ _ Hd). simpl.
  eexists. split; [done|]. split; [by apply good_set_low|done].
Qed.

Lemma after_child_total u v c st :
  good adj st → u ∈ visited st → v ∈ visited st → u ≠ v →
  ∃ st', after_child u v c st = Ok st' ∧ good adj st' ∧
         visited st' = visited st.
Proof.
  intros Hg Hu Hv Hne.
  destruct (good_low Hg u Hu) as [l Hl].
  destruct (good_low Hg v Hv) as [lv Hlv].
  destruct (good_disc Hg u Hu) as (d & Hd & _).
  rewrite (after_child_eq u v c st l lv d Hne Hl Hlv Hd).
  eexists. split; [done|]. case_decide; simpl.
  - split; [|done]. apply good_add_articulation; [|done]. by apply good_set_low.
  - split; [|done]. by apply good_set_low.
Qed.

(** What a call of [dfs] is asked for and what it leaves behind. *)
Lemma visit_neighbor_total call u v c st :
  (∀ w st1, good adj st1 → w ∉ visited st1 → w ∈ mentioned adj →
            (∀ x, x ∈ visited st → x ∈ visited st1) →
            ∃ st2, call w st1 = Ok st2 ∧ good adj st2 ∧ w ∈ visited st2 ∧
                   ∀ x, x ∈ visited st1 → x ∈ visited st2) →
  good adj st → u ∈ visited st → edge adj u v →
  ∃ c' st', visit_neighbor call u v c st = Ok (c', st') ∧ good adj st' ∧
            ∀ x, x ∈ visited st → x ∈ visited st'.
Proof.
  intros Hcall Hg Hu Huv. unfold visit_neighbor.
  destruct (decide (v ∈ visited st)) as [Hv|Hv].
  - case_decide.
    + destruct (back_edge_total u v st Hg Hu Hv) as (st' & -> & Hg' & Hvis).
      exists c, st'. split; [done|]. split; [done|]. by rewrite Hvis.
    + by exists c, st.
  - destruct (Hcall v (set_parent v u st)) as (st2 & -> & Hg2 & Hv2 & Hmono);
      [by apply good_set_parent|done|by eapply edge_mentioned_r|done|].
    simpl.
    destruct (after_child_total u v (c + 1) st2) as (st3 & -> & Hg3 & Hvis);
      [done|by apply Hmono|done|by intros ->|].
    exists (c + 1), st3. split; [done|]. split; [done|].
    rewrite Hvis. exact Hmono.
Qed.

Lemma dfs_loop_total call u st0 :
  (∀ w st1, good adj st1 → w ∉ visited st1 → w ∈ mentioned adj →
            (∀ x, x ∈ visited st0 → x ∈ visited st1) →
            ∃ st2, call w st1 = Ok st2 ∧ good adj st2 ∧ w ∈ visited st2 ∧
                   ∀ x, x ∈ visited st1 → x ∈ visited st2) →
  ∀ vs c st,
    good adj st → u ∈ visited st → (∀ x, x ∈ visited st0 → x ∈ visited st) →
    (∀ v, v ∈ vs → edge adj u v) →
    ∃ st', dfs_loop call u vs c st = Ok st' ∧ good adj st' ∧
           ∀ x, x ∈ visited st → x ∈ visited st'.
Proof.
  intros Hcall vs. induction vs as [|v vs IH]; intros c st Hg Hu Hmono Hvs.
  - by exists st.
  - destruct (visit_neighbor_total call u v c st) as (c1 & st1 & H1 & Hg1 & Hm1);
      [|done|done|apply Hvs, list_elem_of_here|].
    { intros w st1 ? ? ? Hm. apply Hcall; auto. }
    destruct (IH c1 st1) as (st' & Hrun & Hg' & Hm'); [done|auto|auto| |].
    { intros w Hw. by apply Hvs, list_elem_of_further. }
    exists st'. simpl. rewrite H1. simpl. split; [done|]. split; [done|]. auto.
Qed.

Lemma dfs_total depth : ∀ u st,
  good adj st → u ∉ visited st → u ∈ mentioned adj →
  (size (list_to_set (mentioned adj) ∖ visited st : gset Z) ≤ depth)%nat →
  ∃ st', dfs adj depth u st = Ok st' ∧ good adj st' ∧ u ∈ visited st' ∧
         ∀ x, x ∈ visited st → x ∈ visited st'.
Proof.
  induction depth as [|depth IH]; intros u st Hg Hu Hin Hroom.
  - exfalso.
    assert (size (list_to_set (mentioned adj) ∖ visited st : gset Z) ≠ 0%nat).
    { apply size_non_empty_iff. intros Hempty.
      assert (u ∈ (list_to_set (mentioned adj) ∖ visited st : gset Z)) as Hu'.
      { apply elem_of_difference. split; [by apply elem_of_list_to_set|done]. }
      rewrite Hempty in Hu'. by apply not_elem_of_empty in Hu'. }
    lia.
  - simpl.
    destruct (dfs_loop_total (dfs adj depth) u (enter u st)) with
      (vs := adj_get adj u) (c := 0) (st := enter u st)
      as (st' & Hrun & Hg' & Hmono).
    + intros w st1 Hg1 Hw Hwin Hm. apply IH; [done|done|done|].
      assert (list_to_set (mentioned adj) ∖ visited st1 ⊆
              (list_to_set (mentioned adj) ∖ visited st : gset Z) ∖ {[u]}) as Hsub.
      { intros x [Hx Hnx]%elem_of_difference.
        apply elem_of_difference. split.
        - apply elem_of_difference. split; [done|]. intros ?.
          apply Hnx, Hm. simpl. set_solver.
        - intros ->%elem_of_singleton. apply Hnx, Hm. simpl. set_solver. }
      apply subseteq_size in Hsub.
      rewrite (size_difference (_ ∖ visited st) {[u]}) in Hsub.
      * rewrite size_singleton in Hsub. lia.
      * apply singleton_subseteq_l, elem_of_difference.
        split; [by apply elem_of_list_to_set|done].
    + by apply good_enter.
    + simpl. set_solver.
    + done.
    + done.
    + exists st'. split; [done|]. split; [done|].
      split; [|intros x Hx]; apply Hmono; simpl; set_solver.
Qed.

Lemma dfs_roots_total depth : ∀ us st,
  good adj st → (∀ u, u ∈ us → u ∈ mentioned adj) →
  (size (list_to_set (mentioned adj) : gset Z) ≤ depth)%nat →
  ∃ st', dfs_roots adj depth us st = Ok st'.
Proof.
  intros us. induction us as [|u us IH]; intros st Hg Hus Hroom; simpl.
  - by exists st.
  - case_decide.
    + apply IH; [done| |done]. intros w Hw. by apply Hus, list_elem_of_further.
    + destruct (dfs_total depth u st) as (st1 & -> & Hg1 & _);
        [done|done|apply Hus, list_elem_of_here| |].
      { etransitivity; [|exact Hroom]. apply subseteq_size. set_solver. }
      simpl. apply IH; [done| |done].
      intros w Hw. by apply Hus, list_elem_of_further.
Qed.

Lemma find_articulation_points_within_total depth :
  (length (mentioned adj) ≤ depth)%nat →
  ∃ A, find_articulation_points_within depth adj = Ok A.
Proof.
  intros Hdepth. unfold find_articulation_points_within.
  destruct (dfs_roots_total depth (adj_keys adj) init_state) as [st ->].
  - apply (st_good (settled_init adj)).
  - intros u Hu. apply elem_of_app. by left.
  - pose proof (size_list_to_set_le (mentioned adj)). lia.
  - by eexists.
Qed.
End dfs_total.

(** ** Equal maps *)

Lemma same_map_edge adj adj' a b :
  same_map adj adj' → edge adj a b ↔ edge adj' a b.
Proof.
  intros [Hk Hall]. unfold edge.
  destruct (decide (a ∈ adj_keys adj)) as [Ha|Ha].
  - rewrite Forall_forall in Hall. specialize (Hall a Ha).
    rewrite <- !(elem_of_list_to_set (C:=gset Z)). by rewrite Hall.
  - assert (a ∉ adj_keys adj') as Ha'.
    { rewrite <- (elem_of_list_to_set (C:=gset Z)), <- Hk, elem_of_list_to_set.
      done. }
    unfold adj_get. apply adj_lookup_None in Ha, Ha'. by rewrite Ha, Ha'.
Qed.

Lemma same_edges_connected adj adj' a b :
  (∀ a b, edge adj a b → edge adj' a b) →
  connected adj a b → connected adj' a b.
Proof.
  intros He H. induction H as [|x y z Hxy _ IH]; [apply rtc_refl|].
  eapply rtc_l; [by apply He|done].
Qed.

Lemma same_edges_separates adj adj' u :
  (∀ a b, edge adj a b ↔ edge adj' a b) →
  separates adj u → separates adj' u.
Proof.
  intros He (a & b & Ha & Hb & Hab). exists a, b.
  split; [by apply He|]. split; [by apply He|]. intros Hc. apply Hab.
  eapply same_edges_connected; [|exact Hc].
  intros x y. rewrite !edge_remove_node, He. tauto.
Qed.

(** On a symmetric map without self-loops the result does not depend on the
    order in which the keys and the sets are iterated. *)
Lemma find_articulation_points_same_map adj adj' :
  symmetric adj → loop_free adj → same_map adj adj' →
  ∃ A, find_articulation_points adj = Ok A ∧
       find_articulation_points adj' = Ok A.
Proof.
  intros Hs Hl Hsame.
  assert (∀ a b, edge adj a b ↔ edge adj' a b) as He.
  { intros a b. by apply same_map_edge. }
  assert (symmetric adj') as Hs'.
  { apply symmetric_edge. intros a b. rewrite <- !He.
    by apply symmetric_edge. }
  assert (loop_free adj') as Hl'.
  { apply loop_free_edge. intros a. rewrite <- He. by apply loop_free_edge. }
  destruct (find_articulation_points_within_separates adj
              (length (mentioned adj)) Hs Hl) as (A & HA & Hsep); [done|].
  destruct (find_articulation_points_within_separates adj'
              (length (mentioned adj')) Hs' Hl') as (A' & HA' & Hsep'); [done|].
  exists A. split; [done|]. unfold find_articulation_points. rewrite HA'.
  f_equal. apply set_eq. intros u. rewrite Hsep, Hsep'.
  split; apply same_edges_separates; [done|]. intros a b. by rewrite He.
Qed.

(** C7: every invocation returns a set, fixed by the map it is given; and
    on a symmetric map without self-loops two invocations return the same
    set even when they iterate the keys and the neighbour sets in different
    orders. *)
Theorem find_articulation_points_idempotent :
  (∀ adj, ∃ A, find_articulation_points adj = Ok A) ∧
  (∀ adj adj', symmetric adj → loop_free adj → same_map adj adj' →
     find_articulation_points adj' = find_articulation_points adj).
Proof.
  split.
  - intros adj. by apply find_articulation_points_within_total.
  - intros adj adj' Hs Hl Hsame.
    destruct (find_articulation_points_same_map adj adj' Hs Hl Hsame)
      as (A & -> & ->). done.
Qed.

(** C6: on the path graph 1-2-3-4-5, in whatever order the map lists its
    keys and neighbours, the finder returns exactly {2, 3, 4}. *)
Theorem path5_articulation_points adj :
  same_map path5 adj →
  find_articulation_points adj = Ok ({[2; 3; 4]} : gset Z).
Proof.
  intros Hsame.
  destruct (find_articulation_points_same_map path5 adj) as (A & HA & ->);
    [by apply (bool_decide_unpack _); vm_compute
    |by apply (bool_decide_unpack _); vm_compute|done|].
  rewrite <- HA. by vm_compute.
Qed.

(** ** The depth of the recursion *)

Lemma adj_lookup_fmap (f : Z → list Z) (l : list Z) i :
  adj_lookup ((λ i, (i, f i)) <$> l) i =
  if decide (i ∈ l) then Some (f i) else None.
Proof.
  induction l as [|k l IH].
  - case_decide as H; [by apply elem_of_nil in H|done].
  - rewrite fmap_cons. cbn [adj_lookup]. destruct (decide (k = i)) as [->|Hne].
    + rewrite decide_True; [done|]. apply list_elem_of_here.
    + rewrite IH. destruct (decide (i ∈ l)) as [Hin|Hin].
      * rewrite decide_True; [done|]. by apply list_elem_of_further.
      * rewrite decide_False; [done|]. intros [->|?]%elem_of_cons; done.
Qed.

Lemma adj_get_path_graph n i :
  1 ≤ i ≤ Z.of_nat n → adj_get (path_graph n) i = path_neighbours n i.
Proof.
  intros Hi. unfold adj_get, path_graph. rewrite adj_lookup_fmap.
  rewrite decide_True; [done|]. apply elem_of_seqZ. lia.
Qed.

Lemma edge_path_graph n a b :
  edge (path_graph n) a b ↔
  1 ≤ a ≤ Z.of_nat n ∧ 1 ≤ b ≤ Z.of_nat n ∧ (b = a - 1 ∨ b = a + 1).
Proof.
  unfold edge, adj_get, path_graph. rewrite adj_lookup_fmap.
  case_decide as Ha; simpl.
  - apply elem_of_seqZ in Ha. unfold path_neighbours.
    rewrite elem_of_app. repeat case_decide;
      rewrite ?list_elem_of_singleton, ?elem_of_nil; lia.
  - rewrite elem_of_seqZ in Ha. rewrite elem_of_nil. lia.
Qed.

Lemma path_graph_symmetric n : symmetric (path_graph n).
Proof. apply symmetric_edge. intros a b. rewrite !edge_path_graph. lia. Qed.

Lemma path_graph_loop_free n : loop_free (path_graph n).
Proof. apply loop_free_edge. intros a. rewrite edge_path_graph. lia. Qed.

(** Walking down the path from [k], each node calls [dfs] on the next: a
    limit of [depth] nested calls is exceeded when more than [depth] nodes
    lie ahead. *)
Lemma dfs_path_graph_deep n depth : ∀ k st,
  1 ≤ k → Z.of_nat depth + k ≤ Z.of_nat n →
  (∀ j, k < j → j ∉ visited st) →
  (1 < k → k - 1 ∈ visited st ∧ parent st !! k = Some (k - 1)) →
  dfs (path_graph n) depth k st = Raise RecursionError.
Proof.
  induction depth as [|depth IH]; intros k st Hk Hroom Hahead Hback; [done|].
  cbn [dfs]. rewrite adj_get_path_graph by lia. unfold path_neighbours.
  rewrite (decide_True (P := k < Z.of_nat n)) by lia.
  assert (visit_neighbor (dfs (path_graph n) depth) k (k + 1) 0 (enter k st)
          = Raise RecursionError) as Hnext.
  { unfold visit_neighbor. rewrite decide_False.
    - rewrite IH; [done|lia|lia| |].
      + intros j Hj. simpl. specialize (Hahead j). set_solver by lia.
      + intros _. simpl. replace (k + 1 - 1) with k by lia.
        split; [set_solver|apply lookup_insert_eq].
    - simpl. specialize (Hahead (k + 1)). set_solver by lia. }
  destruct (decide (1 < k)) as [Hk1|Hk1]; simpl.
  - destruct (Hback Hk1) as [Hprev Hpar].
    assert (visit_neighbor (dfs (path_graph n) depth) k (k - 1) 0 (enter k st)
            = Ok (0, enter k st)) as ->.
    { unfold visit_neighbor. rewrite decide_True by (simpl; set_solver).
      rewrite decide_False; [done|]. simpl. by intros []. }
    simpl. by rewrite Hnext.
  - by rewrite Hnext.
Qed.

Lemma adj_keys_path_graph n : adj_keys (path_graph n) = seqZ 1 (Z.of_nat n).
Proof.
  unfold adj_keys, path_graph. induction (seqZ 1 (Z.of_nat n)) as [|i l IH];
    [done|].
  rewrite !fmap_cons. by rewrite IH.
Qed.

Lemma path_graph_recursion n :
  find_articulation_points_within n (path_graph (S n)) = Raise RecursionError.
Proof.
  unfold find_articulation_points_within. rewrite adj_keys_path_graph.
  rewrite (seqZ_cons 1) by lia. cbn [dfs_roots].
  rewrite decide_False by (simpl; set_solver).
  rewrite (dfs_path_graph_deep (S n) n 1 init_state); [done|lia|lia| |lia].
  intros j _. simpl. set_solver.
Qed.

(** C9 does not hold of this finder: no bound on the nesting of [dfs]
    serves all graphs; the path with one node more than the bound exceeds
    it. *)
Lemma recursion_depth_unbounded :
  ¬ ∃ bound : nat, ∀ adj, symmetric adj → loop_free adj →
      find_articulation_points_within bound adj ≠ Raise RecursionError.
Proof.
  intros [bound Hbound].
  apply (Hbound (path_graph (S bound))).
  - apply path_graph_symmetric.
  - apply path_graph_loop_free.
  - apply path_graph_recursion.
Qed.

(** C9, as the code has it: [dfs] recurses natively, once per tree edge,
    and needs room for at most as many nested calls as the map mentions
    identifiers: with that much room the finder returns. *)
Theorem recursion_depth_bounded_by_size adj depth :
  (length (mentioned adj) ≤ depth)%nat →
  ∃ A, find_articulation_points_within depth adj = Ok A.
Proof. apply find_articulation_points_within_total. Qed.

(** ** More on the rows

    What [parse_input] does with each row, in the order of the file. *)

Section parse_input_rows_facts.
Context (py_int : string → option Z) (py_strip : string → string).

#[local] Abbreviation row_id := (row_id py_int).
#[local] Abbreviation connection_target := (connection_target py_int py_strip).
#[local] Abbreviation row_targets := (row_targets py_int py_strip).
#[local] Abbreviation add_connection := (add_connection py_int py_strip).
#[local] Abbreviation add_connections := (add_connections py_int py_strip).
#[local] Abbreviation parse_row := (parse_row py_int py_strip).
#[local] Abbreviation parse_rows := (parse_rows py_int py_strip).
#[local] Abbreviation parse_input := (parse_input py_int py_strip).
#[local] Abbreviation well_formed := (well_formed py_int).
#[local] Abbreviation row_error := (row_error py_int).
#[local] Abbreviation node_of_row := (node_of_row py_int).

Lemma row_error_None r : row_error r = None ↔ well_formed r.
Proof.
  unfold row_error, well_formed, row_id.
  destruct (r !! "id"%string) as [[s|]|].
  - destruct (py_int s) as [z|]; [case_decide as Hd|].
    + split; [|done]. intros _. split; [by eexists|done].
    + split; [done|]. by intros [_ ?].
    + split; [done|]. by intros [[? ?] _].
  - split; [done|]. by intros [[? ?] _].
  - split; [done|]. by intros [[? ?] _].
Qed.

(** The row on which the loop body stops decides the exception. *)
Lemma parse_row_error r acc e :
  row_error r = Some e → parse_row r acc = Raise e.
Proof.
  unfold row_error, parse_row, row_getitem.
  destruct (r !! "id"%string) as [[s|]|]; simpl; [|by intros [= <-]..].
  destruct (py_int s) as [z|]; simpl; [|by intros [= <-]].
  case_decide as Hd; [done|]. intros [= <-].
  destruct (r !! "nodeName"%string) as [name|] eqn:E1; simpl; [|done].
  destruct (r !! "group"%string) as [group|] eqn:E2; simpl; [|done].
  destruct (r !! "unit"%string) as [unit|] eqn:E3; simpl; [|done].
  destruct (r !! "contact"%string) as [contact|] eqn:E4; simpl; [|done].
  exfalso. apply Hd. unfold described. rewrite E1, E2, E3, E4. by repeat split.
Qed.

Lemma parse_rows_app rows1 : ∀ rows2 acc,
  parse_rows (rows1 ++ rows2) acc = parse_rows rows1 acc ≫= parse_rows rows2.
Proof.
  induction rows1 as [|r rows1 IH]; intros rows2 acc; simpl; [done|].
  destruct (parse_row r acc); simpl; [apply IH|done].
Qed.

(** X1: when the rows before a row can all be read and the body of the loop
    stops at that row, [parse_input] raises the exception of that row:
    KeyError for a missing column, TypeError for an identifier cell that is
    [None], ValueError for one that is not a number.  The rows after it are
    not looked at. *)
Theorem parse_input_first_error read r rest e :
  Forall well_formed read → row_error r = Some e →
  parse_input (read ++ r :: rest) = Raise e.
Proof.
  intros Hwf He. unfold parse_input. rewrite parse_rows_app.
  destruct (parse_rows_spec py_int py_strip read ([], []) Hwf) as (ns & adj & -> & _).
  simpl. by rewrite (parse_row_error _ _ _ He).
Qed.

Lemma parse_row_node r acc acc' :
  parse_row r acc = Ok acc' →
  ∃ n, node_of_row r = Some n ∧ acc'.1 = acc.1 ++ [n].
Proof.
  unfold parse_row, node_of_row, row_id, row_getitem.
  intros H.
  destruct (r !! "id"%string) as [[s|]|]; simpl in *; [|done..].
  destruct (py_int s) as [z|]; simpl in *; [|done].
  destruct (r !! "nodeName"%string) as [name|]; simpl in *; [|done].
  destruct (r !! "group"%string) as [group|]; simpl in *; [|done].
  destruct (r !! "unit"%string) as [unit|]; simpl in *; [|done].
  destruct (r !! "contact"%string) as [contact|]; simpl in *; [|done].
  apply bind_Ok in H as (adj' & _ & [= <-]). by eexists.
Qed.

Lemma parse_rows_nodes rows : ∀ acc acc',
  parse_rows rows acc = Ok acc' →
  ∃ ns, acc'.1 = acc.1 ++ ns ∧ Some <$> ns = node_of_row <$> rows.
Proof.
  induction rows as [|r rows IH]; intros acc acc'; simpl.
  - intros [= <-]. exists []. by rewrite app_nil_r.
  - intros (acc1 & H1 & Hrest)%bind_Ok.
    apply parse_row_node in H1 as (n & Hn & H1).
    apply IH in Hrest as (ns & Hns & Hall).
    exists (n :: ns). rewrite Hns, H1, <- app_assoc. split; [done|].
    rewrite !fmap_cons. by rewrite Hn, Hall.
Qed.

(** X2: the node list holds one entry per row, in the order of the rows,
    with the identifier as a number and the four descriptive cells as they
    were read. *)
Theorem parse_input_nodes rows :
  Forall well_formed rows →
  ∃ nodes adj, parse_input rows = Ok (nodes, adj) ∧
    Some <$> nodes = node_of_row <$> rows.
Proof.
  intros Hwf.
  destruct (parse_input_spec py_int py_strip rows Hwf) as (nodes & adj & Hrun & _).
  exists nodes, adj. split; [done|].
  unfold parse_input in Hrun.
  apply bind_Ok in Hrun as (acc & Hacc & [= <- _]).
  by apply parse_rows_nodes in Hacc as (ns & -> & Hns).
Qed.

(** X3: the map that [parse_input] returns has no key twice, and [b] is a
    neighbour of [a] exactly when they differ and some row of one of them
    names the other in a connection cell that can be read. *)
Theorem parse_input_adjacency rows :
  Forall well_formed rows →
  ∃ nodes adj, parse_input rows = Ok (nodes, adj) ∧
    NoDup (adj_keys adj) ∧
    ∀ a b, b ∈ adj_get adj a ↔
           a ≠ b ∧ ∃ r, r ∈ rows ∧
             ((row_id r = Some a ∧ b ∈ row_targets r) ∨
              (row_id r = Some b ∧ a ∈ row_targets r)).
Proof.
  intros Hwf.
  destruct (parse_input_spec py_int py_strip rows Hwf)
    as (nodes & adj & Hrun & _ & Hnd & _ & He).
  by exists nodes, adj.
Qed.

Lemma add_connection_insert_other (r : row) key c u key' adj :
  key ≠ key' →
  add_connection (<[key := c]> r) u key' adj = add_connection r u key' adj.
Proof.
  intros Hne. unfold add_connection.
  by rewrite lookup_insert_ne.
Qed.

Lemma add_connections_insert_other (r : row) key c u keys : ∀ adj,
  key ∉ keys →
  add_connections (<[key := c]> r) u keys adj = add_connections r u keys adj.
Proof.
  induction keys as [|key' keys IH]; intros adj Hkey; simpl; [done|].
  apply not_elem_of_cons in Hkey as [Hne Hkey].
  rewrite add_connection_insert_other by done.
  destruct (add_connection r u key' adj); simpl; [by apply IH|done].
Qed.

Local Opaque connection_keys.

Lemma parse_row_insert_other (r : row) key c acc :
  key ∉ read_columns →
  parse_row (<[key := c]> r) acc = parse_row r acc.
Proof.
  intros Hkey. unfold read_columns in Hkey.
  apply not_elem_of_app in Hkey as [Hcol Hconn].
  unfold parse_row, row_getitem.
  rewrite !not_elem_of_cons in Hcol. destruct Hcol as (? & ? & ? & ? & ? & _).
  rewrite !(lookup_insert_ne r key) by done.
  destruct (r !! "id"%string) as [c0|]; simpl; [|done].
  destruct (int_of_cell py_int c0); simpl; [|done].
  repeat (match goal with
          | |- context [r !! ?k] => destruct (r !! k); simpl; [|done]
          end).
  by rewrite add_connections_insert_other.
Qed.

Local Transparent connection_keys.

(** X4: a column that [parse_input] does not read (a sixth connection
    column, say) has no effect on what it returns or raises, whatever its
    cell holds. *)
Theorem parse_input_ignores_other_columns rows i r key c :
  rows !! i = Some r → key ∉ read_columns →
  parse_input (<[i := <[key := c]> r]> rows) = parse_input rows.
Proof.
  intros Hi Hkey. unfold parse_input.
  rewrite (parse_rows_insert py_int py_strip rows i r); [done|done|].
  intros acc. by apply parse_row_insert_other.
Qed.

Lemma adj_keys_setdefault_list k adj :
  adj_keys (adj_setdefault k adj) =
  adj_keys adj ++ (if decide (k ∈ adj_keys adj) then [] else [k]).
Proof.
  unfold adj_setdefault. destruct (adj_lookup adj k) eqn:E.
  - rewrite decide_True, app_nil_r; [done|].
    apply adj_lookup_is_Some. by eexists.
  - apply adj_lookup_None in E. rewrite decide_False by done.
    unfold adj_keys. by rewrite fmap_app.
Qed.

Local Opaque connection_keys.

Lemma parse_row_keys r acc acc' :
  parse_row r acc = Ok acc' →
  ∃ u, row_id r = Some u ∧
       adj_keys acc'.2 = adj_keys (adj_setdefault u acc.2).
Proof.
  unfold parse_row, row_id, row_getitem. intros H.
  destruct (r !! "id"%string) as [[s|]|]; simpl in *; [|done..].
  destruct (py_int s) as [u|]; simpl in *; [|done].
  repeat (match type of H with
          | context [r !! ?k] => destruct (r !! k); simpl in H; [|done]
          end).
  destruct (add_connections_spec py_int py_strip r u connection_keys
              (adj_setdefault u acc.2)) as (adj' & Hrun & Hk & _).
  { apply adj_keys_setdefault. by left. }
  rewrite Hrun in H. simpl in H. injection H as <-. by exists u.
Qed.

Local Transparent connection_keys.

Lemma parse_rows_keys rows : ∀ acc acc',
  parse_rows rows acc = Ok acc' →
  adj_keys acc'.2 =
  foldl (λ ks k, if decide (k ∈ ks) then ks else ks ++ [k])
        (adj_keys acc.2) (omap row_id rows).
Proof.
  induction rows as [|r rows IH]; intros acc acc'; simpl.
  - by intros [= <-].
  - intros (acc1 & H1 & Hrest)%bind_Ok.
    apply parse_row_keys in H1 as (u & Hu & Hk).
    rewrite Hu. simpl. rewrite (IH _ _ Hrest), Hk, adj_keys_setdefault_list.
    f_equal. case_decide; [by rewrite app_nil_r|done].
Qed.

Lemma adj_keys_symmetrize_prefix adj :
  ∃ extra, adj_keys (symmetrize adj) = adj_keys adj ++ extra.
Proof.
  unfold symmetrize. generalize (adj_keys adj) at 1 as us. intros us.
  revert adj. induction us as [|u us IH]; intros adj; simpl.
  - exists []. by rewrite app_nil_r.
  - assert (∃ extra, adj_keys (symmetrize_key adj u) = adj_keys adj ++ extra)
      as [extra1 H1].
    { unfold symmetrize_key. generalize (adj_get adj u) as vs. intros vs.
      revert adj. induction vs as [|v vs IHv]; intros adj; simpl.
      - exists []. by rewrite app_nil_r.
      - destruct (IHv (adj_setdefault_add v u adj)) as [extra Hx].
        rewrite Hx. unfold adj_setdefault_add.
        rewrite adj_keys_add, adj_keys_setdefault_list, <- app_assoc.
        by eexists. }
    destruct (IH (symmetrize_key adj u)) as [extra2 H2].
    rewrite H2, H1, <- app_assoc. by eexists.
Qed.

(** X5: the keys of the map come in the order in which the identifiers of
    the rows first occur; the identifiers that only connection cells name
    come after them. *)
Theorem parse_input_key_order rows :
  Forall well_formed rows →
  ∃ nodes adj extra, parse_input rows = Ok (nodes, adj) ∧
    adj_keys adj = first_seen (omap row_id rows) ++ extra ∧
    ∀ k r, k ∈ extra → r ∈ rows → row_id r ≠ Some k.
Proof.
  intros Hwf.
  destruct (parse_input_spec py_int py_strip rows Hwf)
    as (nodes & adj & Hrun & _ & Hnd & _).
  unfold parse_input in *.
  destruct (parse_rows_spec py_int py_strip rows ([], []) Hwf)
    as (ns & adj1 & Hrows & _ & Hk & _).
  rewrite Hrows in Hrun. simpl in Hrun. injection Hrun as <- <-.
  destruct (adj_keys_symmetrize_prefix adj1) as [extra Hx].
  exists ns, (symmetrize adj1), extra. rewrite Hrows. simpl.
  split; [done|].
  pose proof (parse_rows_keys rows _ _ Hrows) as Hkeys. simpl in Hkeys.
  split; [by rewrite Hx, Hkeys|].
  intros k r Hkx Hr Hid. rewrite Hx in Hnd.
  apply NoDup_app in Hnd as (_ & Hdisj & _). apply (Hdisj k); [|done].
  apply Hk. right. by exists r.
Qed.
End parse_input_rows_facts.

Lemma adj_add_id k t adj ns :
  adj_lookup adj k = Some ns → t ∈ ns → adj_add k t adj = adj.
Proof.
  induction adj as [|[k' ms] adj IH]; simpl; [done|].
  case_decide as Hk.
  - intros [= ->] Ht. unfold set_add. by rewrite decide_True.
  - intros Hl Ht. by rewrite IH.
Qed.

Lemma adj_setdefault_add_id v u adj :
  edge adj v u → adj_setdefault_add v u adj = adj.
Proof.
  unfold edge, adj_get, adj_setdefault_add, adj_setdefault. intros Hvu.
  destruct (adj_lookup adj v) as [ns|] eqn:E; [|by apply elem_of_nil in Hvu].
  by eapply adj_add_id.
Qed.

Lemma symmetrize_symmetric_id adj : symmetric adj → symmetrize adj = adj.
Proof.
  intros Hs'. pose proof (proj1 (symmetric_edge adj) Hs') as Hs.
  unfold symmetrize.
  assert (∀ us, foldl symmetrize_key adj us = adj) as Hus; [|apply Hus].
  intros us. induction us as [|u us IH]; simpl; [done|].
  assert (symmetrize_key adj u = adj) as ->; [|done].
  unfold symmetrize_key.
  assert (∀ vs, (∀ v, v ∈ vs → edge adj u v) →
                foldl (λ adj v, adj_setdefault_add v u adj) adj vs = adj) as Hvs.
  { intros vs. induction vs as [|v vs IHv]; intros Hin; simpl; [done|].
    rewrite adj_setdefault_add_id.
    - apply IHv. intros w Hw. by apply Hin, list_elem_of_further.
    - apply Hs, Hin, list_elem_of_here. }
  by apply Hvs.
Qed.

(** X6: the pass of lines 53-55 leaves a symmetric map as it is, entries
    and sets in the same order, and so changes nothing when it is run a
    second time. *)
Theorem symmetrize_fixed adj :
  symmetric adj →
  symmetrize adj = adj ∧ symmetrize (symmetrize adj) = symmetrize adj.
Proof.
  intros Hs. split; [by apply symmetrize_symmetric_id|].
  apply symmetrize_symmetric_id, symmetrize_symmetric.
Qed.

(** ** The recursion limit *)

Lemma visit_neighbor_more call call' u v c st :
  (∀ w st1, call w st1 ≠ Raise RecursionError → call' w st1 = call w st1) →
  visit_neighbor call u v c st ≠ Raise RecursionError →
  visit_neighbor call' u v c st = visit_neighbor call u v c st.
Proof.
  intros Hcall. unfold visit_neighbor.
  case_decide; [done|].
  destruct (call v (set_parent v u st)) as [st1|e] eqn:E; simpl.
  - intros _. rewrite Hcall; rewrite E; done.
  - intros He. rewrite Hcall; rewrite E; [done|]. congruence.
Qed.

Lemma dfs_loop_more call call' u :
  (∀ w st1, call w st1 ≠ Raise RecursionError → call' w st1 = call w st1) →
  ∀ vs c st,
    dfs_loop call u vs c st ≠ Raise RecursionError →
    dfs_loop call' u vs c st = dfs_loop call u vs c st.
Proof.
  intros Hcall vs. induction vs as [|v vs IH]; intros c st; [done|].
  cbn [dfs_loop].
  intros H.
  rewrite (visit_neighbor_more call call' u v c st Hcall).
  - destruct (visit_neighbor call u v c st) as [cs|e]; [|done].
    simpl in *. by apply IH.
  - intros E. rewrite E in H. by apply H.
Qed.

Lemma dfs_more adj depth : ∀ u st,
  dfs adj depth u st ≠ Raise RecursionError →
  dfs adj (S depth) u st = dfs adj depth u st.
Proof.
  induction depth as [|depth IH]; intros u st; [done|].
  intros H. change (dfs adj (S (S depth)) u st) with
    (dfs_loop (dfs adj (S depth)) u (adj_get adj u) 0 (enter u st)).
  by apply dfs_loop_more.
Qed.

Lemma dfs_roots_more adj depth us : ∀ st,
  dfs_roots adj depth us st ≠ Raise RecursionError →
  dfs_roots adj (S depth) us st = dfs_roots adj depth us st.
Proof.
  induction us as [|u us IH]; intros st; [done|].
  cbn [dfs_roots]. case_decide; [apply IH|].
  intros Hr. rewrite dfs_more.
  - destruct (dfs adj depth u st) as [st1|e]; [|done].
    simpl in *. by apply IH.
  - intros E. rewrite E in Hr. by apply Hr.
Qed.

Lemma find_articulation_points_within_more adj depth depth' :
  (depth ≤ depth')%nat →
  find_articulation_points_within depth adj ≠ Raise RecursionError →
  find_articulation_points_within depth' adj =
  find_articulation_points_within depth adj.
Proof.
  intros Hle H. induction Hle as [|depth' Hle IH]; [done|].
  rewrite <- IH. unfold find_articulation_points_within.
  rewrite dfs_roots_more; [done|].
  intros Hr. apply H. rewrite <- IH.
  unfold find_articulation_points_within. by rewrite Hr.
Qed.

Lemma find_articulation_points_within_limit depth adj :
  find_articulation_points_within depth adj = Raise RecursionError ∨
  ∃ A, find_articulation_points_within depth adj = Ok A ∧
       find_articulation_points adj = Ok A.
Proof.
  destruct (find_articulation_points_within_total adj (length (mentioned adj)))
    as [A HA]; [done|].
  destruct (decide (depth ≤ length (mentioned adj))%nat) as [Hle|Hgt].
  - destruct (find_articulation_points_within depth adj) as [A'|e] eqn:E.
    + right. exists A'. split; [done|]. unfold find_articulation_points.
      rewrite (find_articulation_points_within_more adj depth) by
        (done || by rewrite E). done.
    + destruct e; try by left.
      all: exfalso;
        pose proof (find_articulation_points_within_more adj depth
                      (length (mentioned adj)) Hle) as Hm;
        rewrite E, HA in Hm; by specialize (Hm ltac:(done)).
  - right. exists A. split; [|done].
    rewrite (find_articulation_points_within_more adj (length (mentioned adj)))
      by (lia || by rewrite HA). done.
Qed.

(** X7: on any map and whatever the room for nested calls, the finder
    either raises RecursionError or returns the set it returns when room is
    no concern; it raises nothing else. *)
Theorem recursion_limit_only_truncates depth adj :
  find_articulation_points_within depth adj = Raise RecursionError ∨
  ∃ A, find_articulation_points_within depth adj = Ok A ∧
       find_articulation_points adj = Ok A.
Proof. apply find_articulation_points_within_limit. Qed.

Lemma find_articulation_points_within_room adj depth :
  (size (list_to_set (mentioned adj) : gset Z) ≤ depth)%nat →
  ∃ A, find_articulation_points_within depth adj = Ok A ∧
       find_articulation_points adj = Ok A.
Proof.
  intros Hroom.
  destruct (dfs_roots_total adj depth (adj_keys adj) init_state) as [st Hst].
  - apply (st_good (settled_init adj)).
  - intros u Hu. apply elem_of_app. by left.
  - done.
  - destruct (find_articulation_points_within_limit depth adj)
      as [He|(A & HA & Hf)].
    + unfold find_articulation_points_within in He. by rewrite Hst in He.
    + by exists A.
Qed.

(** X8: room for as many nested calls as the map mentions distinct
    identifiers is enough for the finder to return, on any map. *)
Theorem recursion_limit_distinct_identifiers adj depth :
  (size (list_to_set (mentioned adj) : gset Z) ≤ depth)%nat →
  ∃ A, find_articulation_points_within depth adj = Ok A ∧
       find_articulation_points adj = Ok A.
Proof. apply find_articulation_points_within_room. Qed.

(** ** What the traversal keeps, on every map *)

Lemma back_edge_inv u v st st' :
  back_edge u v st = Ok st' →
  ∃ lu dv, low st !! u = Some lu ∧ disc st !! v = Some dv ∧
           st' = set_low u (Z.min lu dv) st.
Proof.
  unfold back_edge, getitem.
  destruct (low st !! u) as [lu|]; [|done].
  destruct (disc st !! v) as [dv|]; [|done].
  simpl. intros [= <-]. by exists lu, dv.
Qed.

Lemma after_child_inv u v c st st' :
  after_child u v c st = Ok st' →
  ∃ lu lv, low st !! u = Some lu ∧ low st !! v = Some lv ∧
    (st' = set_low u (Z.min lu lv) st ∨
     st' = add_articulation u (set_low u (Z.min lu lv) st)).
Proof.
  unfold after_child, getitem.
  destruct (low st !! u) as [lu|]; [|done].
  destruct (low st !! v) as [lv|]; [|done].
  simpl. intros H. exists lu, lv. split; [done|]. split; [done|].
  destruct (parent st !! u) as [p|] eqn:Hp; simpl in H.
  - rewrite Hp in H. destruct (<[u:=Z.min lu lv]> (low st) !! v); [|done].
    destruct (disc st !! u); [|done]. simpl in H.
    case_decide; injection H as <-; auto.
  - case_decide; simpl in H; rewrite Hp in H; injection H as <-; auto.
Qed.

Section dfs_preserves.
Context (adj : adjacency) (P : dfs_state → Prop).
Hypothesis P_root : ∀ u st, P st → u ∉ visited st → P (enter u st).
Hypothesis P_child : ∀ u v st,
  P st → u ∈ visited st → v ∉ visited st → edge adj u v →
  P (enter v (set_parent v u st)).
Hypothesis P_back : ∀ u v st st',
  P st → u ∈ visited st → v ∈ visited st → edge adj u v →
  back_edge u v st = Ok st' → P st'.
Hypothesis P_after : ∀ u v c st st',
  P st → u ∈ visited st → v ∈ visited st → edge adj u v →
  after_child u v c st = Ok st' → P st'.

Lemma dfs_loop_preserves call u :
  (∀ w st st', P (enter w st) → call w st = Ok st' →
               P st' ∧ {[w]} ∪ visited st ⊆ visited st') →
  ∀ vs c st st',
    (∀ v, v ∈ vs → edge adj u v) → P st → u ∈ visited st →
    dfs_loop call u vs c st = Ok st' →
    P st' ∧ visited st ⊆ visited st'.
Proof.
  intros Hcall vs. induction vs as [|v vs IH]; intros c st st' Hvs HP Hu.
  - by intros [= <-].
  - cbn [dfs_loop]. intros ([c1 st1] & H1 & Hrest)%bind_Ok.
    assert (edge adj u v) as Huv by apply Hvs, list_elem_of_here.
    assert (P st1 ∧ visited st ⊆ visited st1) as [HP1 Hm1].
    { unfold visit_neighbor in H1. destruct (decide (v ∈ visited st)) as [Hv|Hv].
      - case_decide.
        + apply bind_Ok in H1 as (st2 & Hb & [= <- <-]).
          split; [by apply (P_back u v st st2)|].
          apply back_edge_inv in Hb as (? & ? & _ & _ & ->). done.
        + injection H1 as <- <-. done.
      - apply bind_Ok in H1 as (st2 & Hc & (st3 & Ha & [= <- <-])%bind_Ok).
        apply Hcall in Hc as [HP2 Hm2]; [|by apply P_child].
        simpl in Hm2. split.
        + eapply P_after; [exact HP2| | |exact Huv|exact Ha]; set_solver.
        + apply after_child_inv in Ha as (? & ? & _ & _ & [->| ->]); simpl;
            set_solver. }
    cbn [fst snd] in Hrest.
    apply IH in Hrest as [HP' Hm']; [|by intros; apply Hvs, list_elem_of_further
                                     |done|set_solver].
    split; [done|set_solver].
Qed.

Lemma dfs_preserves depth : ∀ u st st',
  P (enter u st) → dfs adj depth u st = Ok st' →
  P st' ∧ {[u]} ∪ visited st ⊆ visited st'.
Proof.
  induction depth as [|depth IH]; intros u st st' HP; [done|].
  cbn [dfs]. intros Hrun.
  apply (dfs_loop_preserves (dfs adj depth) u IH) in Hrun; [done| |done|].
  - by intros v Hv.
  - simpl. set_solver.
Qed.

Lemma dfs_roots_preserves depth us : ∀ st st',
  P st → dfs_roots adj depth us st = Ok st' →
  P st' ∧ visited st ⊆ visited st' ∧ ∀ u, u ∈ us → u ∈ visited st'.
Proof.
  induction us as [|u us IH]; intros st st' HP.
  - intros [= <-]. split; [done|]. split; [done|]. by intros u ?%elem_of_nil.
  - cbn [dfs_roots]. case_decide as Hu.
    + intros (HP' & Hm & Hus)%IH; [|done]. split; [done|]. split; [done|].
      intros w [->|Hw]%elem_of_cons; [set_solver|auto].
    + intros (st1 & H1 & (HP' & Hm & Hus)%IH)%bind_Ok.
      * apply dfs_preserves in H1 as [_ Hm1]; [|by apply P_root].
        split; [done|]. split; [set_solver|].
        intros w [->|Hw]%elem_of_cons; [set_solver|auto].
      * apply dfs_preserves in H1 as [HP1 _]; [done|by apply P_root].
Qed.
End dfs_preserves.

Section numbering.
Context (adj : adjacency).

Lemma numbered_init : numbered adj init_state.
Proof.
  split; simpl; try done.
  - intros x. rewrite lookup_empty. split; [by intros ?%is_Some_None|set_solver].
  - intros x. rewrite lookup_empty. split; [by intros ?%is_Some_None|set_solver].
Qed.

Lemma numbered_enter par u st :
  numbered adj st → u ∉ visited st →
  par = parent st ∨
    (∃ p, par = <[u:=p]> (parent st) ∧ p ∈ visited st ∧ edge adj p u) →
  numbered adj {| time := time st + 1; visited := {[u]} ∪ visited st;
                  disc := <[u:=time st]> (disc st);
                  low := <[u:=time st]> (low st);
                  parent := par; articulation := articulation st |}.
Proof.
  intros Hn Hu Hpar.
  assert (disc st !! u = None) as Hdu.
  { apply eq_None_not_Some. by rewrite (num_disc_dom Hn). }
  assert (∀ x d, disc st !! x = Some d → x ≠ u) as Hne.
  { intros x d Hx ->. by rewrite Hdu in Hx. }
  pose proof (num_time Hn) as Htime.
  split; simpl.
  - rewrite size_union by set_solver. rewrite size_singleton. lia.
  - intros x. rewrite lookup_insert_is_Some, (num_disc_dom Hn).
    rewrite elem_of_union, elem_of_singleton.
    destruct (decide (u = x)); naive_solver.
  - intros x. rewrite lookup_insert_is_Some, (num_low_dom Hn).
    rewrite elem_of_union, elem_of_singleton.
    destruct (decide (u = x)); naive_solver.
  - intros x d [[<- <-]|[_ Hx]]%lookup_insert_Some; [lia|].
    pose proof (num_disc Hn x d Hx). lia.
  - intros x y d [[<- <-]|[? Hx]]%lookup_insert_Some
                 [[<- Hd]|[? Hy]]%lookup_insert_Some; try done.
    + pose proof (num_disc Hn y _ Hy). lia.
    + pose proof (num_disc Hn x _ Hx). lia.
    + by apply (num_inj Hn x y d).
  - intros x l d [[<- <-]|[? Hx]]%lookup_insert_Some
                 [[? Hd]|[? Hy]]%lookup_insert_Some; try done; [lia|].
    by apply (num_low Hn x).
  - intros x l [[<- <-]|[? Hx]]%lookup_insert_Some.
    + exists u. by rewrite lookup_insert_eq.
    + destruct (num_low_disc Hn x l Hx) as [y Hy]. exists y.
      rewrite lookup_insert_ne; [done|]. intros <-. by rewrite Hdu in Hy.
  - assert (∀ v p, parent st !! v = Some p →
              v ∈ {[u]} ∪ visited st ∧ edge adj p v ∧
              ∃ du dv, <[u:=time st]> (disc st) !! p = Some du ∧
                       <[u:=time st]> (disc st) !! v = Some dv ∧ du < dv) as Hold.
    { intros v p Hv.
      destruct (num_parent Hn v p Hv) as (Hvis & He & du & dv & H1 & H2 & Hlt).
      split; [set_solver|]. split; [done|]. exists du, dv.
      rewrite !lookup_insert_ne by (intros <-; congruence). done. }
    destruct Hpar as [->|(p & -> & Hp & He)]; [done|].
    intros v q [[<- <-]|[? Hv]]%lookup_insert_Some; [|by apply Hold].
    split; [set_solver|]. split; [done|].
    apply (num_disc_dom Hn) in Hp as [dp Hdp].
    exists dp, (time st). rewrite lookup_insert_eq.
    rewrite lookup_insert_ne by (intros <-; congruence).
    pose proof (num_disc Hn p dp Hdp). split; [done|]. split; [done|lia].
  - intros x Hx. destruct (num_art Hn x Hx) as [? ?]. split; [set_solver|done].
Qed.

Lemma numbered_set_low u l st :
  numbered adj st → u ∈ visited st →
  (∀ d, disc st !! u = Some d → l ≤ d) → (∃ y, disc st !! y = Some l) →
  numbered adj (set_low u l st).
Proof.
  intros Hn Hu Hle Hex. split; simpl; try apply Hn.
  - intros x. rewrite lookup_insert_is_Some, (num_low_dom Hn).
    destruct (decide (u = x)); naive_solver.
  - intros x l' d [[<- <-]|[? Hx]]%lookup_insert_Some Hd; [by apply Hle|].
    by apply (num_low Hn x).
  - intros x l' [[<- <-]|[? Hx]]%lookup_insert_Some; [done|].
    by apply (num_low_disc Hn x).
Qed.

Lemma numbered_add_articulation u v st :
  numbered adj st → u ∈ visited st → edge adj u v →
  numbered adj (add_articulation u st).
Proof.
  intros Hn Hu He. split; simpl; try apply Hn.
  intros x [->%elem_of_singleton|Hx]%elem_of_union; [|by apply (num_art Hn)].
  split; [done|by exists v].
Qed.

Lemma numbered_min u lu x st :
  numbered adj st → u ∈ visited st → low st !! u = Some lu →
  (∃ y, disc st !! y = Some x) →
  numbered adj (set_low u (Z.min lu x) st).
Proof.
  intros Hn Hu Hlu Hx. apply numbered_set_low; [done|done| |].
  - intros d Hd. pose proof (num_low Hn u lu d Hlu Hd). lia.
  - destruct (decide (lu ≤ x)).
    + rewrite Z.min_l by lia. by apply (num_low_disc Hn u).
    + rewrite Z.min_r by lia. done.
Qed.

Lemma dfs_roots_numbered depth us st st' :
  numbered adj st → dfs_roots adj depth us st = Ok st' →
  numbered adj st' ∧ visited st ⊆ visited st' ∧ ∀ u, u ∈ us → u ∈ visited st'.
Proof.
  apply (dfs_roots_preserves adj (numbered adj)).
  - intros u st1 Hn Hu. apply (numbered_enter (parent st1)); auto.
  - intros u v st1 Hn Hu Hv He.
    apply (numbered_enter (<[v:=u]> (parent st1)) v st1); [done|done|].
    right. by exists u.
  - intros u v st1 st2 Hn Hu Hv He (lu & dv & Hlu & Hdv & ->)%back_edge_inv.
    apply numbered_min; [done|done|done|by exists v].
  - intros u v c st1 st2 Hn Hu Hv He
      (lu & lv & Hlu & Hlv & Hst)%after_child_inv.
    assert (numbered adj (set_low u (Z.min lu lv) st1)) as Hn'.
    { apply numbered_min; [done|done|done|]. by apply (num_low_disc Hn v). }
    destruct Hst as [->| ->]; [done|].
    by apply (numbered_add_articulation u v).
Qed.
End numbering.

Lemma dfs_roots_final adj :
  ∃ st, dfs_roots adj (length (mentioned adj)) (adj_keys adj) init_state = Ok st ∧
        (∀ u, u ∈ adj_keys adj → u ∈ visited st) ∧ numbered adj st.
Proof.
  destruct (dfs_roots_total adj (length (mentioned adj)) (adj_keys adj)
              init_state) as [st Hst].
  - apply (st_good (settled_init adj)).
  - intros u Hu. apply elem_of_app. by left.
  - apply size_list_to_set_le.
  - exists st. split; [done|].
    destruct (dfs_roots_numbered adj _ _ _ _ (numbered_init adj) Hst)
      as (Hn & _ & Hk).
    done.
Qed.

(** X9: on any map the traversal of lines 96-98 visits every key and ends
    in a state where [time] is the number of visited nodes, the discovery
    numbers are distinct values from 0 up to [time], [low] is at or below
    [disc] and is itself a discovery number, and the recorded parent of a
    node lists it as a neighbour and was discovered before it. *)
Theorem traversal_numbering adj :
  ∃ st, dfs_roots adj (length (mentioned adj)) (adj_keys adj) init_state = Ok st ∧
        (∀ u, u ∈ adj_keys adj → u ∈ visited st) ∧ numbered adj st.
Proof. apply dfs_roots_final. Qed.

(** X10: on any map, symmetric or not, every node the finder returns is a
    key of the map with at least one neighbour. *)
Theorem articulation_points_are_keys adj :
  ∃ A, find_articulation_points adj = Ok A ∧
       ∀ u, u ∈ A → u ∈ adj_keys adj ∧ adj_get adj u ≠ [].
Proof.
  destruct (dfs_roots_final adj) as (st & Hst & _ & Hn).
  exists (articulation st). unfold find_articulation_points,
    find_articulation_points_within. rewrite Hst. split; [done|].
  intros u Hu. destruct (num_art Hn u Hu) as (_ & y & Hy).
  split; [by eapply edge_key|]. unfold edge in Hy. intros E.
  rewrite E in Hy. by apply elem_of_nil in Hy.
Qed.

(** ** Nodes that are never, and nodes that are always, reported *)

Lemma separates_neighbours adj u :
  loop_free adj → separates adj u →
  ∃ a b, a ∈ adj_get adj u ∧ b ∈ adj_get adj u ∧ a ≠ b ∧ a ≠ u ∧ b ≠ u ∧
         b ∉ adj_get adj a.
Proof.
  intros Hl' (a & b & Ha & Hb & Hn). exists a, b.
  pose proof (proj1 (loop_free_edge adj) Hl') as Hl.
  assert (a ≠ u) by (intros ->; by apply (Hl u)).
  assert (b ≠ u) by (intros ->; by apply (Hl u)).
  repeat (split; [done|]). split.
  - intros ->. apply Hn, rtc_refl.
  - split; [done|]. split; [done|]. intros Hab. apply Hn.
    apply rtc_once, edge_remove_node. done.
Qed.

Lemma leaf_separates adj u a b :
  a ∈ adj_get adj u → b ∈ adj_get adj u → a ≠ b →
  (∀ x, x ∈ adj_get adj a → x = u) → separates adj u.
Proof.
  intros Ha Hb Hne Hleaf. exists a, b. split; [done|]. split; [done|].
  intros Hc. apply rtc_inv in Hc as [->|(y & Hay & _)]; [done|].
  apply edge_remove_node in Hay as (Hay & _ & Hy). by apply Hy, Hleaf.
Qed.

(** X11: on a symmetric map without self-loops, every node the finder returns
    has two distinct neighbours that are not neighbours of each other; so a
    node with fewer than two neighbours, or whose neighbours are all
    adjacent to one another, is never returned. *)
Theorem articulation_point_neighbours adj :
  symmetric adj → loop_free adj →
  ∃ A, find_articulation_points adj = Ok A ∧
       ∀ u, u ∈ A →
         ∃ a b, a ∈ adj_get adj u ∧ b ∈ adj_get adj u ∧ a ≠ b ∧
                a ≠ u ∧ b ≠ u ∧ b ∉ adj_get adj a.
Proof.
  intros Hs Hl.
  destruct (find_articulation_points_within_separates adj
              (length (mentioned adj)) Hs Hl) as (A & HA & Hsep); [done|].
  exists A. split; [done|]. intros u Hu%Hsep. by apply separates_neighbours.
Qed.

(** X12: on a symmetric map without self-loops, the only neighbour of a node
    with a single neighbour is returned as soon as it has another neighbour,
    and the node with the single neighbour is not. *)
Theorem leaf_neighbour_is_articulation_point adj u a b :
  symmetric adj → loop_free adj →
  a ∈ adj_get adj u → b ∈ adj_get adj u → a ≠ b →
  Forall (λ x, x = u) (adj_get adj a) →
  ∃ A, find_articulation_points adj = Ok A ∧ (u ∈ A) ∧ a ∉ A.
Proof.
  intros Hs Hl Ha Hb Hne Hleaf. rewrite Forall_forall in Hleaf.
  destruct (find_articulation_points_within_separates adj
              (length (mentioned adj)) Hs Hl) as (A & HA & Hsep); [done|].
  exists A. split; [done|]. split.
  - apply Hsep. by apply (leaf_separates adj u a b).
  - intros (x & y & Hx & Hy & Hxy & _)%Hsep%separates_neighbours; [|done].
    apply Hxy. by rewrite (Hleaf x Hx), (Hleaf y Hy).
Qed.

(** ** The room a symmetric map needs *)

Lemma symmetric_mentioned adj x :
  NoDup (adj_keys adj) → symmetric adj → x ∈ mentioned adj → x ∈ adj_keys adj.
Proof.
  intros Hnd Hs'. pose proof (proj1 (symmetric_edge adj) Hs') as Hs.
  unfold mentioned.
  intros [Hx|Hx]%elem_of_app; [done|].
  apply list_elem_of_join in Hx as (ns & Hx & Hns).
  apply list_elem_of_fmap in Hns as ([a ns'] & -> & Hin). simpl in Hx.
  apply (edge_key adj x a), Hs. unfold edge, adj_get.
  by rewrite (adj_lookup_elem_of adj a ns' Hnd Hin).
Qed.

Lemma symmetric_room adj :
  NoDup (adj_keys adj) → symmetric adj →
  (size (list_to_set (mentioned adj) : gset Z) ≤ length adj)%nat.
Proof.
  intros Hnd Hs.
  rewrite <- (length_fmap fst adj).
  etransitivity; [|apply (size_list_to_set_le (adj_keys adj))].
  apply subseteq_size. intros x Hx%elem_of_list_to_set.
  apply elem_of_list_to_set. by apply symmetric_mentioned.
Qed.

(** ** Networks made of separate parts *)

Section disjoint_union.
Context (adj1 adj2 : adjacency).
Hypothesis Hdisj : ∀ k, k ∈ adj_keys adj1 → k ∉ adj_keys adj2.

Lemma edge_app a b :
  edge (adj1 ++ adj2) a b ↔ edge adj1 a b ∨ edge adj2 a b.
Proof.
  unfold edge, adj_get. rewrite adj_lookup_app.
  destruct (adj_lookup adj1 a) as [ns|] eqn:E1; simpl.
  - split; [by left|]. intros [?|H2]; [done|]. exfalso.
    apply (Hdisj a).
    + apply adj_lookup_is_Some. by eexists.
    + by apply (edge_key adj2 a b).
  - split; [by right|]. by intros [?%elem_of_nil|?].
Qed.
End disjoint_union.

Lemma remove_node_app u adj1 adj2 :
  remove_node u (adj1 ++ adj2) = remove_node u adj1 ++ remove_node u adj2.
Proof. unfold remove_node. by rewrite filter_app, fmap_app. Qed.

Lemma connected_no_key adj a b : a ∉ adj_keys adj → connected adj a b → a = b.
Proof.
  intros Ha [->|(y & Hay & _)]%rtc_inv; [done|].
  exfalso. by apply Ha, (edge_key adj a y).
Qed.

Lemma connected_app adj1 adj2 a b :
  (∀ k, k ∈ adj_keys adj1 → k ∉ adj_keys adj2) →
  symmetric adj1 → symmetric adj2 →
  connected (adj1 ++ adj2) a b ↔ connected adj1 a b ∨ connected adj2 a b.
Proof.
  intros Hdisj Hs1' Hs2'.
  pose proof (proj1 (symmetric_edge adj1) Hs1') as Hs1.
  pose proof (proj1 (symmetric_edge adj2) Hs2') as Hs2.
  split.
  - intros H. induction H as [a|a y b Hay _ IH]; [left; apply rtc_refl|].
    apply (edge_app adj1 adj2 Hdisj) in Hay as [Hay|Hay].
    + left. destruct IH as [IH|IH]; [by eapply rtc_l|].
      apply connected_no_key in IH as <-; [by apply rtc_once|].
      intros Hy. eapply Hdisj; [|exact Hy]. by apply (edge_key adj1 y a), Hs1.
    + right. destruct IH as [IH|IH]; [|by eapply rtc_l].
      apply connected_no_key in IH as <-; [by apply rtc_once|].
      intros Hy. eapply Hdisj; [exact Hy|]. by apply (edge_key adj2 y a), Hs2.
  - intros [H|H]; (eapply same_edges_connected; [|exact H]); intros x y Hxy;
      apply (edge_app adj1 adj2 Hdisj); auto.
Qed.

Lemma separates_app adj1 adj2 u :
  (∀ k, k ∈ adj_keys adj1 → k ∉ adj_keys adj2) →
  symmetric adj1 → loop_free adj1 → symmetric adj2 → loop_free adj2 →
  separates (adj1 ++ adj2) u ↔ separates adj1 u ∨ separates adj2 u.
Proof.
  intros Hdisj Hs1 Hl1 Hs2 Hl2.
  assert (∀ k, k ∈ adj_keys (remove_node u adj1) →
               k ∉ adj_keys (remove_node u adj2)) as Hdisj'.
  { intros k [Hk _]%adj_keys_remove_node [Hk' _]%adj_keys_remove_node.
    by apply (Hdisj k). }
  pose proof (symmetric_remove_node u adj1 Hs1) as Hr1.
  pose proof (symmetric_remove_node u adj2 Hs2) as Hr2.
  pose proof (λ a b, connected_app (remove_node u adj1) (remove_node u adj2)
                       a b Hdisj' Hr1 Hr2) as Hc.
  unfold separates. setoid_rewrite remove_node_app.
  setoid_rewrite (edge_app adj1 adj2 Hdisj).
  split.
  - intros (a & b & [Ha|Ha] & [Hb|Hb] & Hn).
    + left. exists a, b. split; [done|]. split; [done|].
      intros H. apply Hn, Hc. by left.
    + exfalso. apply (Hdisj u);
        [by apply (edge_key adj1 u a)|by apply (edge_key adj2 u b)].
    + exfalso. apply (Hdisj u);
        [by apply (edge_key adj1 u b)|by apply (edge_key adj2 u a)].
    + right. exists a, b. split; [done|]. split; [done|].
      intros H. apply Hn, Hc. by right.
  - intros [(a & b & Ha & Hb & Hn)|(a & b & Ha & Hb & Hn)];
      exists a, b; (split; [auto|]); (split; [auto|]).
    + intros [H|H]%Hc; [done|].
      apply connected_no_key in H as <-; [apply Hn, rtc_refl|].
      intros [Hk _]%adj_keys_remove_node. eapply Hdisj; [|exact Hk].
      apply (edge_key adj1 a u). by apply (proj1 (symmetric_edge adj1) Hs1).
    + intros [H|H]%Hc; [|done].
      apply connected_no_key in H as <-; [apply Hn, rtc_refl|].
      intros [Hk _]%adj_keys_remove_node. eapply Hdisj; [exact Hk|].
      apply (edge_key adj2 a u). by apply (proj1 (symmetric_edge adj2) Hs2).
Qed.

(** X13: on a map made of two symmetric maps without self-loops that share
    no key, one after the other, the finder returns the union of what it
    returns on each. *)
Theorem find_articulation_points_disjoint_union adj1 adj2 :
  symmetric adj1 → loop_free adj1 → symmetric adj2 → loop_free adj2 →
  Forall (λ k, k ∉ adj_keys adj2) (adj_keys adj1) →
  ∃ A1 A2, find_articulation_points adj1 = Ok A1 ∧
           find_articulation_points adj2 = Ok A2 ∧
           find_articulation_points (adj1 ++ adj2) = Ok (A1 ∪ A2).
Proof.
  intros Hs1 Hl1 Hs2 Hl2 Hdisj. rewrite Forall_forall in Hdisj.
  destruct (find_articulation_points_within_separates adj1
              (length (mentioned adj1)) Hs1 Hl1) as (A1 & HA1 & Hsep1); [done|].
  destruct (find_articulation_points_within_separates adj2
              (length (mentioned adj2)) Hs2 Hl2) as (A2 & HA2 & Hsep2); [done|].
  destruct (find_articulation_points_within_separates (adj1 ++ adj2)
              (length (mentioned (adj1 ++ adj2)))) as (A & HA & Hsep); [| |done|].
  { apply symmetric_edge. intros a b. rewrite !(edge_app adj1 adj2 Hdisj).
    intros [?|?]; [left; by apply (proj1 (symmetric_edge adj1) Hs1)
                  |right; by apply (proj1 (symmetric_edge adj2) Hs2)]. }
  { apply loop_free_edge. intros a. rewrite (edge_app adj1 adj2 Hdisj).
    intros [?|?]; [by apply (proj1 (loop_free_edge adj1) Hl1 a)
                  |by apply (proj1 (loop_free_edge adj2) Hl2 a)]. }
  exists A1, A2. split; [done|]. split; [done|].
  unfold find_articulation_points. rewrite HA. f_equal.
  apply set_eq. intros u.
  rewrite Hsep, elem_of_union, Hsep1, Hsep2. by apply separates_app.
Qed.

(** ** The node list of the renderer *)



(** ** The direction of the edge records *)

Lemma emit_edge_fresh u v acc e :
  e ∈ (emit_edge u v acc).2 →
  e ∈ acc.2 ∨ (e = (u, v) ∧ edge_key_of u v ∉ acc.1).
Proof.
  unfold emit_edge. case_decide; cbn [fst snd]; [by left|].
  intros [?| ->%list_elem_of_singleton]%elem_of_app; [by left|by right].
Qed.

Lemma emit_edge_mono u v acc p : p ∈ acc.1 → p ∈ (emit_edge u v acc).1.
Proof. unfold emit_edge. case_decide; cbn [fst snd]; set_solver. Qed.

Lemma emit_edges_fresh u ns : ∀ acc e,
  e ∈ (emit_edges acc (u, ns)).2 →
  e ∈ acc.2 ∨ (e.1 = u ∧ e.2 ∈ ns ∧ pair_of e ∉ acc.1).
Proof.
  unfold emit_edges. cbn [fst snd].
  induction ns as [|v ns IH]; intros acc e; cbn [foldl]; [by left|].
  intros [[?|[-> ?]]%emit_edge_fresh|(? & ? & Hp)]%IH.
  - by left.
  - right. split; [done|]. split; [apply list_elem_of_here|done].
  - right. split; [done|]. split; [by apply list_elem_of_further|].
    intros ?. by apply Hp, emit_edge_mono.
Qed.

Lemma edge_key_of_comm u v : edge_key_of u v = edge_key_of v u.
Proof. unfold edge_key_of. set_solver. Qed.

Lemma emit_all_forward adj :
  NoDup (adj_keys adj) → symmetric adj → loop_free adj →
  ∀ suf pre acc,
    adj = pre ++ suf → emitted acc →
    (∀ u ns v, (u, ns) ∈ pre → v ∈ ns → edge_key_of u v ∈ acc.1) →
    (∀ e, e ∈ acc.2 →
       ∃ i j, adj_keys adj !! i = Some e.1 ∧ adj_keys adj !! j = Some e.2 ∧
              (i < j)%nat) →
    ∀ e, e ∈ (foldl emit_edges acc suf).2 →
      ∃ i j, adj_keys adj !! i = Some e.1 ∧ adj_keys adj !! j = Some e.2 ∧
             (i < j)%nat.
Proof.
  intros Hnd Hs' Hl'.
  pose proof (proj1 (symmetric_edge adj) Hs') as Hs.
  pose proof (proj1 (loop_free_edge adj) Hl') as Hl.
  induction suf as [|[u ns] suf IH]; intros pre acc Hadj Hacc Hpre Hold;
    [done|].
  cbn [foldl]. apply (IH (pre ++ [(u, ns)])).
  - by rewrite <- app_assoc.
  - by apply emit_edges_spec.
  - destruct (emit_edges_spec u ns acc Hacc) as (_ & Hset & _).
    intros u' ns' v [Hin|[= -> ->]%list_elem_of_singleton]%elem_of_app Hv;
      apply Hset; [left; by eapply Hpre|right; by exists v].
  - intros e [He|(Hu & Hv & Hfresh)]%emit_edges_fresh; [auto|].
    assert ((u, ns) ∈ adj) as Hin.
    { rewrite Hadj. apply elem_of_app. right. apply list_elem_of_here. }
    assert (edge adj u e.2) as Huv.
    { unfold edge, adj_get. by rewrite (adj_lookup_elem_of adj u ns Hnd Hin). }
    assert (adj_keys adj !! length pre = Some u) as Hi.
    { unfold adj_keys. rewrite Hadj, fmap_app, fmap_cons.
      rewrite <- (length_fmap fst pre). by rewrite list_lookup_middle. }
    pose proof (edge_key _ _ _ (Hs _ _ Huv)) as Hk.
    apply list_elem_of_lookup in Hk as [j Hj].
    exists (length pre), j. rewrite Hu. split; [done|]. split; [done|].
    destruct (decide (j = length pre)) as [->|Hne].
    { exfalso. rewrite Hi in Hj. injection Hj as Hj. rewrite Hj in Huv.
      by apply (Hl (e.2)). }
    destruct (decide (j < length pre)%nat) as [Hlt|]; [|lia].
    exfalso. apply Hfresh.
    unfold adj_keys in Hj. rewrite list_lookup_fmap in Hj.
    destruct (adj !! j) as [[v' ns']|] eqn:Ej; [|done].
    simpl in Hj. injection Hj as ->.
    assert ((e.2, ns') ∈ pre) as Hinpre.
    { rewrite Hadj, lookup_app_l in Ej by done. by eapply list_elem_of_lookup_2. }
    assert ((e.2, ns') ∈ adj) as Hin'.
    { by eapply list_elem_of_lookup_2. }
    pose proof (Hs _ _ Huv) as Hvu. unfold edge, adj_get in Hvu.
    rewrite (adj_lookup_elem_of adj _ ns' Hnd Hin') in Hvu.
    unfold pair_of. rewrite Hu, edge_key_of_comm. by eapply Hpre.
Qed.

(** X15: on a symmetric adjacency map without self-loops, every edge
    record of [build_html] goes from the node whose entry comes earlier in
    the map to the one whose entry comes later. *)
Theorem vis_edges_forward nodes adj connectors :
  NoDup (adj_keys adj) → symmetric adj → loop_free adj →
  ∀ e, e ∈ (build_html nodes adj connectors).2 →
    ∃ i j, adj_keys adj !! i = Some e.1 ∧ adj_keys adj !! j = Some e.2 ∧
           (i < j)%nat.
Proof.
  intros Hnd Hs Hl. simpl. unfold vis_edges.
  apply (emit_all_forward adj Hnd Hs Hl adj [] (∅, [])).
  - done.
  - split; [apply NoDup_nil_2|]. intros p. simpl. split.
    + by intros ?%not_elem_of_empty.
    + by intros ?%elem_of_nil.
  - by intros u ns v ?%elem_of_nil.
  - by intros e ?%elem_of_nil.
Qed.

(** ** main *)

Section main_facts.
Context (py_int : string → option Z) (py_strip : string → string).
#[local] Abbreviation row_id := (row_id py_int).
#[local] Abbreviation row_targets := (row_targets py_int py_strip).
#[local] Abbreviation parse_input := (parse_input py_int py_strip).
#[local] Abbreviation well_formed := (well_formed py_int).
#[local] Abbreviation main := (main py_int py_strip).

(** The identifiers a row names: its own and those of its connections. *)
Lemma row_targets_length r : (length (row_targets r) ≤ 5)%nat.
Proof.
  unfold row_targets, connection_keys. cbn [omap list_omap].
  repeat (destruct (connection_target _ _ _ _); cbn [length]); lia.
Qed.

Lemma parse_input_graph rows :
  Forall well_formed rows →
  ∃ nodes adj, parse_input rows = Ok (nodes, adj) ∧
    Forall2 (λ r n, row_id r = Some (node_id n)) rows nodes ∧
    NoDup (adj_keys adj) ∧ symmetric adj ∧ loop_free adj ∧
    (length adj ≤ 6 * length rows)%nat.
Proof.
  intros Hwf.
  destruct (parse_input_spec py_int py_strip rows Hwf)
    as (nodes & adj & Hrun & Hids & Hnd & Hk & He).
  exists nodes, adj. repeat (split; [done|]).
  split; [|split].
  - apply symmetric_edge. intros u v. rewrite !He. intros (? & r & ? & [?|?]).
    all: split; [done|]; exists r; auto.
  - apply loop_free_edge. intros u. rewrite He. by intros [? _].
  - rewrite <- (length_fmap fst adj).
    set (named := λ r, option_list (row_id r) ++ row_targets r).
    transitivity (length (rows ≫= named)).
    + apply submseteq_length, NoDup_submseteq; [done|].
      intros k (r & Hr & Hkr)%Hk. apply list_elem_of_bind. exists r.
      split; [|done]. unfold named. apply elem_of_app.
      destruct Hkr as [->|?]; [left; apply list_elem_of_here|by right].
    + clear. induction rows as [|r rows IH]; [done|].
      rewrite bind_cons, length_app. cbn [length].
      assert (length (named r) ≤ 6)%nat; [|lia].
      unfold named. rewrite length_app. pose proof (row_targets_length r).
      destruct (row_id r); simpl; lia.
Qed.

(** X16: on rows that can all be read, [main] returns when the interpreter
    leaves room for six nested calls per row, and the page draws a row with
    the wide border exactly when removing its node (with its connections)
    strictly increases the number of connected components of the network. *)
Theorem main_highlights_cut_nodes limit rows :
  Forall well_formed rows → (6 * length rows ≤ limit)%nat →
  ∃ nodes adj page,
    parse_input rows = Ok (nodes, adj) ∧ main limit rows = Ok page ∧
    Forall2 (λ r v,
      row_id r = Some (vis_id v) ∧
      (vis_border_width v = 3 ↔
       (component_count adj < component_count (remove_node (vis_id v) adj))%nat))
      rows page.1.
Proof.
  intros Hwf Hroom.
  destruct (parse_input_graph rows Hwf)
    as (nodes & adj & Hrun & Hids & Hnd & Hs & Hl & Hlen).
  destruct (find_articulation_points_within_room adj limit)
    as (A & HA & Hfind).
  { pose proof (symmetric_room adj Hnd Hs). lia. }
  destruct (find_articulation_points_within_separates adj
              (length (mentioned adj)) Hs Hl) as (A' & HA' & Hsep); [done|].
  unfold find_articulation_points in Hfind. rewrite Hfind in HA'.
  injection HA' as <-.
  exists nodes, adj, (build_html nodes adj A). split; [done|]. split.
  - unfold main. rewrite Hrun. simpl. by rewrite HA.
  - simpl. apply Forall2_fmap_r.
    eapply Forall2_impl; [exact Hids|]. intros r n Hr. simpl.
    assert (vis_id (vis_node_of A n) = node_id n) as Hid.
    { unfold vis_node_of. by case_decide. }
    rewrite Hid. split; [done|].
    rewrite <- (separates_component_count adj _ Hs Hl), <- Hsep.
    unfold vis_node_of. case_decide; simpl; split; done.
Qed.

End main_facts.

(** ** The order of the rows *)

Section row_order.
Context (py_int : string → option Z) (py_strip : string → string).
#[local] Abbreviation row_id := (row_id py_int).
#[local] Abbreviation row_targets := (row_targets py_int py_strip).
#[local] Abbreviation parse_input := (parse_input py_int py_strip).
#[local] Abbreviation well_formed := (well_formed py_int).

(** X18: two files that hold the same readable rows, in any order and any
    number of times, give maps with the same keys and the same neighbour
    sets, and the finder returns the same set on both. *)
Theorem parse_input_row_order rows rows' :
  Forall well_formed rows → rows ⊆ rows' → rows' ⊆ rows →
  ∃ nodes adj nodes' adj' A,
    parse_input rows = Ok (nodes, adj) ∧
    parse_input rows' = Ok (nodes', adj') ∧
    same_map adj adj' ∧
    find_articulation_points adj = Ok A ∧
    find_articulation_points adj' = Ok A.
Proof.
  intros Hwf Hsub Hsub'.
  assert (Forall well_formed rows') as Hwf'.
  { rewrite Forall_forall in *. intros r Hr. by apply Hwf, Hsub'. }
  destruct (parse_input_spec py_int py_strip rows Hwf)
    as (nodes & adj & Hrun & _ & _ & Hk & He).
  destruct (parse_input_spec py_int py_strip rows' Hwf')
    as (nodes' & adj' & Hrun' & _ & _ & Hk' & He').
  assert (same_map adj adj') as Hsame.
  { split.
    - apply set_eq. intros k. rewrite !elem_of_list_to_set, Hk, Hk'.
      split; intros (r & Hr & H); exists r; auto.
    - apply Forall_forall. intros u _. apply set_eq. intros v.
      rewrite !elem_of_list_to_set. fold (edge adj u v) (edge adj' u v).
      rewrite He, He'.
      split; intros (? & r & Hr & H); (split; [done|]); exists r; auto. }
  destruct (find_articulation_points_same_map adj adj') as (A & HA & HA');
    [| |done|].
  - apply symmetric_edge. intros u v. rewrite !He. intros (? & r & ? & [?|?]).
    all: split; [done|]; exists r; auto.
  - apply loop_free_edge. intros u. rewrite He. by intros [? _].
  - by exists nodes, adj, nodes', adj', A.
Qed.
End row_order.

(** ** Small graphs *)

Example cycle_has_no_articulation_point :
  find_articulation_points [(1, [2; 4]); (2, [1; 3]); (3, [2; 4]); (4, [3; 1])]
  = Ok ∅.
Proof. by vm_compute. Qed.

Example star_center_is_articulation_point :
  find_articulation_points [(1, [2; 3; 4; 5]); (2, [1]); (3, [1]); (4, [1]); (5, [1])]
  = Ok {[1]}.
Proof. by vm_compute. Qed.

Example single_edge_has_no_articulation_point :
  find_articulation_points [(1, [2]); (2, [1])] = Ok ∅.
Proof. by vm_compute. Qed.

Example no_edge_has_no_articulation_point :
  find_articulation_points [(1, []); (2, []); (3, [])] = Ok ∅.
Proof. by vm_compute. Qed.

Example bridge_ends_are_articulation_points :
  find_articulation_points two_triangles = Ok {[3; 4]} ∧
  component_count two_triangles = 2%nat ∧
  component_count (remove_node 3 two_triangles) = 3%nat ∧
  component_count (remove_node 5 two_triangles) = 2%nat ∧
  component_count (remove_node 7 two_triangles) = 1%nat.
Proof. by vm_compute. Qed.

Example path5_is_path_graph : path_graph 5 = path5.
Proof. reflexivity. Qed.

Example path5_needs_five_frames :
  find_articulation_points_within 4 path5 = Raise RecursionError ∧
  find_articulation_points_within 5 path5 = Ok {[2; 3; 4]}.
Proof. by vm_compute. Qed.

(** The sample file from reading to drawing. *)
Example sample_run :
  ∃ nodes adj,
    parse_input decimal_int ascii_strip sample_rows = Ok (nodes, adj) ∧
    node_id <$> nodes = [1; 2; 3; 1] ∧
    adj = [(1, [2; 3]); (2, [1]); (3, [7; 1]); (7, [3])] ∧
    find_articulation_points adj = Ok {[1; 3]} ∧
    (build_html nodes adj {[1; 3]}).2 = [(1, 2); (1, 3); (3, 7)].
Proof. eexists _, _. split; [by vm_compute|]. by vm_compute. Qed.

Example unreadable_run :
  parse_input decimal_int ascii_strip unreadable_rows = Raise ValueError.
Proof. by vm_compute. Qed.

(** ** The theorems at work on the samples *)

Ltac by_computation := apply (bool_decide_unpack _); vm_compute; exact I.

Lemma find_articulation_points_correct_witness :
  symmetric two_triangles ∧ loop_free two_triangles ∧
  ∃ A, find_articulation_points two_triangles = Ok A ∧
       ∀ u, u ∈ A ↔
            (component_count two_triangles <
             component_count (remove_node u two_triangles))%nat.
Proof.
  split; [by_computation|]. split; [by_computation|].
  apply (find_articulation_points_correct two_triangles); by_computation.
Defined.

Lemma parse_input_symmetric_witness :
  Forall (well_formed decimal_int) sample_rows ∧
  ∃ nodes adj, parse_input decimal_int ascii_strip sample_rows = Ok (nodes, adj) ∧
    symmetric adj ∧ loop_free adj ∧
    (∀ u v, v ∈ adj_get adj u ↔ u ∈ adj_get adj v) ∧
    (∀ u, u ∉ adj_get adj u).
Proof.
  split; [by_computation|].
  apply (parse_input_symmetric decimal_int ascii_strip sample_rows).
  by_computation.
Defined.

Lemma parse_input_raises_iff_witness :
  (raises (parse_input decimal_int ascii_strip undescribed_rows) ∧
   Exists (λ r, row_id decimal_int r = None ∨ ¬ described r) undescribed_rows) ∧
  (Exists (λ r, row_id decimal_int r = None) unreadable_rows ∧
   raises (parse_input decimal_int ascii_strip unreadable_rows)) ∧
  (Forall described unreadable_rows ∧
   raises (parse_input decimal_int ascii_strip unreadable_rows) ∧
   Exists (λ r, row_id decimal_int r = None) unreadable_rows) ∧
  (∃ nodes adj,
     parse_input decimal_int ascii_strip sample_rows = Ok (nodes, adj) ∧
     Forall2 (λ r n, row_id decimal_int r = Some (node_id n)) sample_rows nodes).
Proof.
  assert (raises (parse_input decimal_int ascii_strip undescribed_rows)) as H1.
  { exists KeyError. by vm_compute. }
  assert (raises (parse_input decimal_int ascii_strip unreadable_rows)) as H2.
  { exists ValueError. by vm_compute. }
  split; [|split; [|split]].
  - split; [done|].
    by apply (proj1 (proj1 (parse_input_raises_iff decimal_int ascii_strip
                              undescribed_rows))).
  - split; [by_computation|].
    apply (proj1 (proj2 (parse_input_raises_iff decimal_int ascii_strip
                           unreadable_rows))).
    by_computation.
  - split; [by_computation|]. split; [done|].
    apply (proj1 (proj2 (proj2 (parse_input_raises_iff decimal_int ascii_strip
                                  unreadable_rows)))); [by_computation|done].
  - eexists _, _. split; [by vm_compute|].
    eapply (proj2 (proj2 (proj2 (parse_input_raises_iff decimal_int ascii_strip
                                   sample_rows)))).
    by vm_compute.
Defined.

Lemma parse_input_tolerant_witness :
  Forall (well_formed decimal_int) sample_rows ∧
  (∃ nodes adj, parse_input decimal_int ascii_strip sample_rows = Ok (nodes, adj) ∧
     Forall2 (λ r n, row_id decimal_int r = Some (node_id n)) sample_rows nodes ∧
     ∀ r u key t, r ∈ sample_rows → row_id decimal_int r = Some u →
       key ∈ connection_keys →
       connection_target decimal_int ascii_strip r key = Some t → t ≠ u →
       t ∈ adj_get adj u) ∧
  (∀ i r key, sample_rows !! i = Some r → key ∈ connection_keys →
     connection_target decimal_int ascii_strip r key = None →
     parse_input decimal_int ascii_strip (<[i := delete key r]> sample_rows) =
     parse_input decimal_int ascii_strip sample_rows).
Proof.
  split; [by_computation|].
  apply (parse_input_tolerant decimal_int ascii_strip sample_rows).
  by_computation.
Defined.

Lemma parse_input_keys_witness :
  Forall (well_formed decimal_int) sample_rows ∧
  ∃ nodes adj, parse_input decimal_int ascii_strip sample_rows = Ok (nodes, adj) ∧
    (∀ k, k ∈ adj_keys adj ↔
          ∃ r, r ∈ sample_rows ∧
               (row_id decimal_int r = Some k ∨
                k ∈ row_targets decimal_int ascii_strip r)) ∧
    (∀ r u t, r ∈ sample_rows → row_id decimal_int r = Some u →
       t ∈ row_targets decimal_int ascii_strip r → t ≠ u →
       t ∈ adj_keys adj ∧ u ∈ adj_get adj t).
Proof.
  split; [by_computation|].
  apply (parse_input_keys decimal_int ascii_strip sample_rows).
  by_computation.
Defined.

Lemma parse_input_duplicate_ids_witness :
  ∃ r1 r2,
    Forall (well_formed decimal_int) sample_rows ∧
    O ≠ 3%nat ∧ sample_rows !! O = Some r1 ∧ sample_rows !! 3%nat = Some r2 ∧
    row_id decimal_int r1 = Some 1 ∧ row_id decimal_int r2 = Some 1 ∧
    ∃ nodes adj, parse_input decimal_int ascii_strip sample_rows = Ok (nodes, adj) ∧
      length nodes = length sample_rows ∧
      (∃ n1 n2, nodes !! O = Some n1 ∧ nodes !! 3%nat = Some n2 ∧
                node_id n1 = 1 ∧ node_id n2 = 1) ∧
      NoDup (adj_keys adj) ∧ 1 ∈ adj_keys adj ∧
      (∀ t, t ∈ row_targets decimal_int ascii_strip r1 ++
                row_targets decimal_int ascii_strip r2 →
            t ≠ 1 → t ∈ adj_get adj 1).
Proof.
  eexists _, _.
  split; [by_computation|]. split; [done|].
  split; [reflexivity|]. split; [reflexivity|].
  split; [by vm_compute|]. split; [by vm_compute|].
  apply (parse_input_duplicate_ids decimal_int ascii_strip sample_rows
           0%nat 3%nat _ _ 1);
    [by_computation|done|reflexivity|reflexivity|by vm_compute|by vm_compute].
Defined.

Lemma path5_articulation_points_witness :
  same_map path5 path5_shuffled ∧
  find_articulation_points path5_shuffled = Ok ({[2; 3; 4]} : gset Z).
Proof.
  split; [by_computation|].
  apply (path5_articulation_points path5_shuffled). by_computation.
Defined.

Lemma find_articulation_points_idempotent_witness :
  symmetric path5 ∧ loop_free path5 ∧ same_map path5 path5_shuffled ∧
  find_articulation_points path5_shuffled = find_articulation_points path5.
Proof.
  split; [by_computation|]. split; [by_computation|].
  split; [by_computation|].
  apply (proj2 find_articulation_points_idempotent path5 path5_shuffled);
    by_computation.
Defined.

Lemma vis_edges_once_witness :
  NoDup (adj_keys two_triangles) ∧
  let edges := (build_html [] two_triangles {[3; 4]}).2 in
  length edges = size (edge_pairs two_triangles) ∧
  (∀ u v, v ∈ adj_get two_triangles u →
     length (filter (λ e, pair_of e = edge_key_of u v) edges) = 1%nat) ∧
  (∀ e, e ∈ edges → e.2 ∈ adj_get two_triangles e.1).
Proof.
  split; [by_computation|].
  apply (vis_edges_once [] two_triangles {[3; 4]}). by_computation.
Defined.

Lemma recursion_depth_bounded_by_size_witness :
  (length (mentioned path5) ≤ 13)%nat ∧
  ∃ A, find_articulation_points_within 13 path5 = Ok A.
Proof.
  split; [by_computation|].
  apply (recursion_depth_bounded_by_size path5 13). by_computation.
Defined.

Lemma parse_input_first_error_witness :
  ∃ read r rest, unreadable_rows = read ++ r :: rest ∧
    Forall (well_formed decimal_int) read ∧
    row_error decimal_int r = Some ValueError ∧
    parse_input decimal_int ascii_strip (read ++ r :: rest) = Raise ValueError.
Proof.
  eexists [_], _, [_]. split; [reflexivity|].
  split; [by_computation|]. split; [by vm_compute|].
  apply (parse_input_first_error decimal_int ascii_strip);
    [by_computation|by vm_compute].
Defined.

Lemma parse_input_nodes_witness :
  Forall (well_formed decimal_int) sample_rows ∧
  ∃ nodes adj, parse_input decimal_int ascii_strip sample_rows = Ok (nodes, adj) ∧
    Some <$> nodes = node_of_row decimal_int <$> sample_rows.
Proof.
  split; [by_computation|].
  apply (parse_input_nodes decimal_int ascii_strip sample_rows).
  by_computation.
Defined.

Lemma parse_input_adjacency_witness :
  Forall (well_formed decimal_int) sample_rows ∧
  ∃ nodes adj, parse_input decimal_int ascii_strip sample_rows = Ok (nodes, adj) ∧
    NoDup (adj_keys adj) ∧
    ∀ a b, b ∈ adj_get adj a ↔
           a ≠ b ∧ ∃ r, r ∈ sample_rows ∧
             ((row_id decimal_int r = Some a ∧
               b ∈ row_targets decimal_int ascii_strip r) ∨
              (row_id decimal_int r = Some b ∧
               a ∈ row_targets decimal_int ascii_strip r)).
Proof.
  split; [by_computation|].
  apply (parse_input_adjacency decimal_int ascii_strip sample_rows).
  by_computation.
Defined.

Lemma parse_input_ignores_other_columns_witness :
  ∃ r, sample_rows !! O = Some r ∧
    ("connectionID6"%string ∉ read_columns) ∧
    parse_input decimal_int ascii_strip
      (<[O := <["connectionID6"%string := Some "9"%string]> r]> sample_rows) =
    parse_input decimal_int ascii_strip sample_rows.
Proof.
  eexists. split; [reflexivity|]. split; [by_computation|].
  apply (parse_input_ignores_other_columns decimal_int ascii_strip sample_rows
           O _ "connectionID6"%string (Some "9"%string));
    [reflexivity|by_computation].
Defined.

Lemma parse_input_key_order_witness :
  Forall (well_formed decimal_int) sample_rows ∧
  ∃ nodes adj extra,
    parse_input decimal_int ascii_strip sample_rows = Ok (nodes, adj) ∧
    adj_keys adj = first_seen (omap (row_id decimal_int) sample_rows) ++ extra ∧
    ∀ k r, k ∈ extra → r ∈ sample_rows → row_id decimal_int r ≠ Some k.
Proof.
  split; [by_computation|].
  apply (parse_input_key_order decimal_int ascii_strip sample_rows).
  by_computation.
Defined.

Lemma symmetrize_fixed_witness :
  symmetric two_triangles ∧
  symmetrize two_triangles = two_triangles ∧
  symmetrize (symmetrize two_triangles) = symmetrize two_triangles.
Proof.
  split; [by_computation|].
  apply (symmetrize_fixed two_triangles). by_computation.
Defined.

Lemma recursion_limit_distinct_identifiers_witness :
  (size (list_to_set (mentioned path5) : gset Z) ≤ 5)%nat ∧
  ∃ A, find_articulation_points_within 5 path5 = Ok A ∧
       find_articulation_points path5 = Ok A.
Proof.
  split; [by_computation|].
  apply (recursion_limit_distinct_identifiers path5 5). by_computation.
Defined.

Lemma articulation_point_neighbours_witness :
  symmetric two_triangles ∧ loop_free two_triangles ∧
  ∃ A, find_articulation_points two_triangles = Ok A ∧
       ∀ u, u ∈ A →
         ∃ a b, a ∈ adj_get two_triangles u ∧ b ∈ adj_get two_triangles u ∧
                a ≠ b ∧ a ≠ u ∧ b ≠ u ∧ b ∉ adj_get two_triangles a.
Proof.
  split; [by_computation|]. split; [by_computation|].
  apply (articulation_point_neighbours two_triangles); by_computation.
Defined.

Lemma leaf_neighbour_is_articulation_point_witness :
  symmetric path5 ∧ loop_free path5 ∧
  1 ∈ adj_get path5 2 ∧ 3 ∈ adj_get path5 2 ∧ 1 ≠ 3 ∧
  Forall (λ x, x = 2) (adj_get path5 1) ∧
  ∃ A, find_articulation_points path5 = Ok A ∧ (2 ∈ A) ∧ 1 ∉ A.
Proof.
  do 6 (split; [by_computation|]).
  apply (leaf_neighbour_is_articulation_point path5 2 1 3); by_computation.
Defined.

Lemma find_articulation_points_disjoint_union_witness :
  symmetric path5 ∧ loop_free path5 ∧
  symmetric [(6, [7]); (7, [6])] ∧ loop_free [(6, [7]); (7, [6])] ∧
  Forall (λ k, k ∉ adj_keys [(6, [7]); (7, [6])]) (adj_keys path5) ∧
  ∃ A1 A2, find_articulation_points path5 = Ok A1 ∧
           find_articulation_points [(6, [7]); (7, [6])] = Ok A2 ∧
           find_articulation_points (path5 ++ [(6, [7]); (7, [6])]) =
           Ok (A1 ∪ A2).
Proof.
  do 5 (split; [by_computation|]).
  apply (find_articulation_points_disjoint_union path5 [(6, [7]); (7, [6])]);
    by_computation.
Defined.

Lemma vis_edges_forward_witness :
  NoDup (adj_keys two_triangles) ∧ symmetric two_triangles ∧
  loop_free two_triangles ∧
  ∀ e, e ∈ (build_html [] two_triangles {[3; 4]}).2 →
    ∃ i j, adj_keys two_triangles !! i = Some e.1 ∧
           adj_keys two_triangles !! j = Some e.2 ∧ (i < j)%nat.
Proof.
  do 3 (split; [by_computation|]).
  apply (vis_edges_forward [] two_triangles {[3; 4]}); by_computation.
Defined.

Lemma main_highlights_cut_nodes_witness :
  Forall (well_formed decimal_int) sample_rows ∧
  (6 * length sample_rows ≤ 24)%nat ∧
  ∃ nodes adj page,
    parse_input decimal_int ascii_strip sample_rows = Ok (nodes, adj) ∧
    main decimal_int ascii_strip 24 sample_rows = Ok page ∧
    Forall2 (λ r v,
      row_id decimal_int r = Some (vis_id v) ∧
      (vis_border_width v = 3 ↔
       (component_count adj < component_count (remove_node (vis_id v) adj))%nat))
      sample_rows page.1.
Proof.
  split; [by_computation|]. split; [by_computation|].
  apply (main_highlights_cut_nodes decimal_int ascii_strip 24 sample_rows);
    by_computation.
Defined.


Lemma parse_input_row_order_witness :
  Forall (well_formed decimal_int) sample_rows ∧
  sample_rows ⊆ reverse sample_rows ∧ reverse sample_rows ⊆ sample_rows ∧
  ∃ nodes adj nodes' adj' A,
    parse_input decimal_int ascii_strip sample_rows = Ok (nodes, adj) ∧
    parse_input decimal_int ascii_strip (reverse sample_rows) = Ok (nodes', adj') ∧
    same_map adj adj' ∧
    find_articulation_points adj = Ok A ∧
    find_articulation_points adj' = Ok A.
Proof.
  do 3 (split; [by_computation|]).
  apply (parse_input_row_order decimal_int ascii_strip sample_rows
           (reverse sample_rows)); by_computation.
Defined.
